(** * Acronym matching engine of the research-name generator

    A shallow embedding of [matching.ts] and the properties of its
    title analyzer, subsequence matcher, niceness scorer, edit distance,
    and the exact / compound / near-match searches.

    The source carries two evolutions of [matching.ts]:
    - the one exporting [editDistance], [findCompoundWords] and
      [findNearMatches] (module [MatchingA] below);
    - the later one with [generateCompoundMatches], the first-letter
      bonus and the division guards in [calculateNiceness]
      (module [MatchingB] below).
    [analyzeTitleTitle] and [findWordInTitle] are textually identical in
    both and are embedded once.

    Conventions of the model.
    - A JavaScript string is the list of its code units; code units are
      restricted to one byte (Latin-1), so that no surrogate pair occurs
      and [String.prototype.toLowerCase] preserves lengths.
    - Array indices and lengths are [nat]; the result [-1] of [indexOf]
      makes letter indices [Z].
    - An out-of-range array read gives [undefined]: [None].
    - A JavaScript number that is not an index is modelled twice.
      Module [Binary64] embeds the scorer and the search of the later
      version over the kernel's binary64 numbers, which round as the
      program does: the statements that give the value of a niceness
      are made there.  Modules [MatchingA] and [MatchingB] compute with
      exact rationals, NaN and the infinities, and so leave out the
      rounding of each operation: they carry the statements about
      words, indices and list structure and those that order, bound or
      classify numbers. *)

From Stdlib Require Import ZArith QArith Qround Qminmax Lqa Ascii String List Lia.
From Stdlib Require PrimFloat SpecFloat FloatOps.
Import PrimFloat.
From stdpp Require Import base option list sorting gmap sets strings.
Import ListNotations.

Local Open Scope nat_scope.
Set Warnings "-inexact-float".

(** ** Strings and characters *)

Abbreviation jsstring := (list ascii).

(** String literals for examples. *)
Definition str (s : string) : jsstring := list_ascii_of_string s.

(** [/[a-z]/i.test(c)] and the class [[a-zA-Z]]: without the unicode flag
    the case-insensitive class contains the 52 ASCII letters only. *)
Definition isLetter (c : ascii) : bool :=
  let n := N_of_ascii c in
  ((65 <=? n) && (n <=? 90) || (97 <=? n) && (n <=? 122))%N.

(** [toLowerCase] on one Latin-1 code unit: [A-Z] and the accented
    capitals U+00C0..U+00DE (except the multiplication sign U+00D7)
    move by 32; everything else is unchanged. *)
Definition toLowerChar (c : ascii) : ascii :=
  let n := N_of_ascii c in
  if ((65 <=? n) && (n <=? 90)
      || (192 <=? n) && (n <=? 222) && negb (n =? 215))%N
  then ascii_of_N (n + 32) else c.

Definition toLowerCase (s : jsstring) : jsstring := map toLowerChar s.

(** [String.prototype.trim] white space within Latin-1: TAB, LF, VT, FF,
    CR, space and the no-break space. *)
Definition isSpace (c : ascii) : bool :=
  let n := N_of_ascii c in
  ((9 <=? n) && (n <=? 13) || (n =? 32) || (n =? 160))%N.

Fixpoint trimStart (s : jsstring) : jsstring :=
  match s with
  | c :: s' => if isSpace c then trimStart s' else s
  | [] => []
  end.

Definition trim (s : jsstring) : jsstring :=
  rev (trimStart (rev (trimStart s))).

Fixpoint startsWith (s p : jsstring) : bool :=
  match p, s with
  | [], _ => true
  | a :: p', b :: s' => if decide (a = b) then startsWith s' p' else false
  | _ :: _, [] => false
  end.

(** [s.includes(p)]: [p] occurs in [s] as a contiguous substring. *)
Fixpoint includes (s p : jsstring) : bool :=
  startsWith s p ||
  match s with
  | [] => false
  | _ :: s' => includes s' p
  end.

(** ** Data model *)

Record TitleWord := mkTitleWord {
  tw_word : jsstring;
  startIndex : nat;
  letterStartIndex : nat;
  letterEndIndex : nat
}.

Record TitleInfo := mkTitleInfo {
  original : jsstring;
  letters : jsstring;
  letterPositions : list nat;
  words : list TitleWord;
  initials : jsstring
}.

(** ** Title analyzer *)

(** The first loop of [analyzeTitleTitle]: [i] is the loop index, the
    result holds [letterPositions] and [letters]. *)
Fixpoint collectLetters (i : nat) (title : jsstring) : list nat * jsstring :=
  match title with
  | [] => ([], [])
  | c :: rest =>
      let '(ps, ls) := collectLetters (S i) rest in
      if isLetter c then (i :: ps, toLowerChar c :: ls) else (ps, ls)
  end.

(** The successive results of [wordRegex.exec(title)] for the global
    regex [/[a-zA-Z]+/g]: the maximal runs of letters, each with its
    [match.index].  [cur] is the run being read, if any. *)
Fixpoint execAll (i : nat) (cur : option (nat * jsstring)) (title : jsstring)
  : list (nat * jsstring) :=
  match title with
  | [] => match cur with Some m => [m] | None => [] end
  | c :: rest =>
      if isLetter c then
        match cur with
        | Some (s, run) => execAll (S i) (Some (s, run ++ [c])) rest
        | None => execAll (S i) (Some (i, [c])) rest
        end
      else
        match cur with
        | Some m => m :: execAll (S i) None rest
        | None => execAll (S i) None rest
        end
  end.

(** The body of the [while] loop over the matches; [letterIndex] is the
    running cursor into [letters]. *)
Fixpoint buildWords (letterIndex : nat) (ms : list (nat * jsstring))
  : list TitleWord :=
  match ms with
  | [] => []
  | (idx, text) :: ms' =>
      let w := toLowerCase text in
      let letterIndex' := letterIndex + length w in
      mkTitleWord w idx letterIndex letterIndex' :: buildWords letterIndex' ms'
  end.

(** [w.word[0]] inside [map(...).join('')]: an [undefined] element joins
    as the empty string. *)
Definition firstChar (w : TitleWord) : jsstring :=
  match tw_word w with
  | c :: _ => [c]
  | [] => []
  end.

Definition analyzeTitleTitle (title : jsstring) : TitleInfo :=
  let '(letterPositions, letters) := collectLetters 0 title in
  let words := buildWords 0 (execAll 0 None title) in
  let initials := concat (map firstChar words) in
  mkTitleInfo title letters letterPositions words initials.

(** ** Subsequence matcher *)

(** The inner [while] loop of [findWordInTitle].  [titleIdx] is the
    cursor and [rest] the letters from the cursor on.  On a match at
    cursor position [k] the result is [k] with the letters after it (the
    cursor then stands at [k + 1]); [None] is [found = false]. *)
Fixpoint advance (char : ascii) (titleIdx : nat) (rest : jsstring)
  : option (nat * jsstring) :=
  match rest with
  | [] => None
  | l :: rest' =>
      if decide (l = char) then Some (titleIdx, rest')
      else advance char (S titleIdx) rest'
  end.

(** The [for ... of wordLower] loop; the pushed value is
    [titleInfo.letterPositions[titleIdx]]. *)
Fixpoint matchChars (positions : list nat) (wordLower : jsstring)
    (titleIdx : nat) (rest : jsstring) : option (list (option nat)) :=
  match wordLower with
  | [] => Some []
  | char :: wordLower' =>
      match advance char titleIdx rest with
      | None => None
      | Some (k, rest') =>
          match matchChars positions wordLower' (S k) rest' with
          | None => None
          | Some indices => Some (positions !! k :: indices)
          end
      end
  end.

Definition findWordInTitle (titleInfo : TitleInfo) (word : jsstring)
  : option (list (option nat)) :=
  let wordLower := toLowerCase word in
  if length (letters titleInfo) <? length wordLower then None
  else matchChars (letterPositions titleInfo) wordLower 0 (letters titleInfo).

(** ** Numbers *)

(** A JavaScript number: a finite value, an infinity or NaN.  The sign of
    zero is not modelled: every zero divisor below is a length or a
    count, hence [+0]. *)
Inductive number := Fin (q : Q) | PInf | NInf | NaN.

Definition qsign (q : Q) : comparison := (Qnum q ?= 0)%Z.

(** The sign of a number; NaN has none and reads as [Eq], which is how
    [Array.prototype.sort] treats a NaN comparator result. *)
Definition signOf (x : number) : comparison :=
  match x with
  | Fin q => qsign q
  | PInf => Gt
  | NInf => Lt
  | NaN => Eq
  end.

Definition signMul (s t : comparison) : comparison :=
  match s, t with
  | Eq, _ | _, Eq => Eq
  | Gt, Gt | Lt, Lt => Gt
  | _, _ => Lt
  end.

(** The infinity of a given sign; [0 * Infinity] and [0 / 0] are NaN. *)
Definition infOf (s : comparison) : number :=
  match s with
  | Gt => PInf
  | Lt => NInf
  | Eq => NaN
  end.

Definition nopp (x : number) : number :=
  match x with
  | Fin q => Fin (- q)
  | PInf => NInf
  | NInf => PInf
  | NaN => NaN
  end.

Definition nadd (x y : number) : number :=
  match x, y with
  | Fin a, Fin b => Fin (a + b)
  | NaN, _ | _, NaN => NaN
  | PInf, NInf | NInf, PInf => NaN
  | PInf, _ | _, PInf => PInf
  | NInf, _ | _, NInf => NInf
  end.

Definition nsub (x y : number) : number := nadd x (nopp y).

Definition nmul (x y : number) : number :=
  match x, y with
  | Fin a, Fin b => Fin (a * b)
  | NaN, _ | _, NaN => NaN
  | _, _ => infOf (signMul (signOf x) (signOf y))
  end.

Definition ndiv (x y : number) : number :=
  match x, y with
  | NaN, _ | _, NaN => NaN
  | Fin a, Fin b =>
      match qsign b with
      | Eq => infOf (qsign a)
      | _ => Fin (a / b)
      end
  | Fin _, _ => Fin 0
  | _, Fin b => infOf (signMul (signOf x) (match qsign b with Lt => Lt | _ => Gt end))
  | _, _ => NaN
  end.

(** [Math.min] of two numbers. *)
Definition nmin (x y : number) : number :=
  match x, y with
  | NaN, _ | _, NaN => NaN
  | NInf, _ | _, NInf => NInf
  | PInf, z | z, PInf => z
  | Fin a, Fin b => if Qle_bool a b then Fin a else Fin b
  end.

(** [Math.round]: the nearest integer, halves rounded up. *)
Definition nround (x : number) : number :=
  match x with
  | Fin q => Fin (inject_Z (Qfloor (q + (1 # 2))))
  | _ => x
  end.

(** [x !== y] on numbers. *)
Definition nneq (x y : number) : bool :=
  match x, y with
  | Fin a, Fin b => negb (Qeq_bool a b)
  | PInf, PInf | NInf, NInf => false
  | _, _ => true
  end.

Definition ofNat (n : nat) : number := Fin (inject_Z (Z.of_nat n)).
Definition ofZ (z : Z) : number := Fin (inject_Z z).

(** [Math.round(x * 100) / 100]. *)
Definition round2 (x : number) : number :=
  ndiv (nround (nmul x (Fin 100))) (Fin 100).

(** ** Match records, sorting *)

Inductive MatchType := Exact | Compound | Near.

Record WordMatch := mkWordMatch {
  word : jsstring;
  indices : list (option nat);
  niceness : number;
  type : MatchType;
  components : option (list jsstring);
  matchDistance : option nat   (* the field [editDistance] *)
}.

(** [String.prototype.localeCompare] is supplied by the host; only the
    sign of its result is used. *)
Class Collator := localeCompare : jsstring -> jsstring -> comparison.

(** The collation by code units, which is what [localeCompare] amounts to
    on the lowercase [a]-[z] words of a dictionary. *)
Fixpoint codeUnitCompare (a b : jsstring) : comparison :=
  match a, b with
  | [], [] => Eq
  | [], _ :: _ => Lt
  | _ :: _, [] => Gt
  | x :: a', y :: b' =>
      match (N_of_ascii x ?= N_of_ascii y)%N with
      | Eq => codeUnitCompare a' b'
      | c => c
      end
  end.

(** [Array.prototype.sort(comparefn)], which is stable; [cmp a b] is the
    sign of [comparefn(a, b)].  An element moves in front of an earlier
    one only when the comparator puts it strictly first.  When [comparefn]
    is a consistent ordering every conforming sort returns this list. *)
Fixpoint insertBy {A} (cmp : A -> A -> comparison) (x : A) (l : list A) : list A :=
  match l with
  | [] => [x]
  | y :: l' =>
      match cmp x y with
      | Gt => y :: insertBy cmp x l'
      | _ => x :: l
      end
  end.

Definition sortBy {A} (cmp : A -> A -> comparison) (l : list A) : list A :=
  foldr (insertBy cmp) [] l.

(** The comparator of the exact and of the generated compound lists. *)
Definition compareMatches `{Collator} (a b : WordMatch) : comparison :=
  if nneq (niceness b) (niceness a)
  then signOf (nsub (niceness b) (niceness a))
  else if negb (length (word b) =? length (word a))
  then Nat.compare (length (word b)) (length (word a))
  else localeCompare (word a) (word b).

(** [(a, b) => b.niceness - a.niceness]. *)
Definition compareNiceness (a b : WordMatch) : comparison :=
  signOf (nsub (niceness b) (niceness a)).

(** [new Set(words.map(w => w.toLowerCase()))]. *)
Definition buildWordSet (ws : list jsstring) : gset jsstring :=
  list_to_set (map toLowerCase ws).

Record Options := mkOptions {
  minLength : nat;
  maxResults : nat;
  searchTerm : jsstring;
  includeCompounds : bool;
  includeNearMatches : bool
}.

Record Results := mkResults {
  exact_ : list WordMatch;
  compound_ : list WordMatch;
  near_ : list WordMatch
}.

(** Parts of [calculateNiceness] common to both versions. *)

(** [titleInfo.letterPositions.indexOf(origIdx)]; [undefined] is found
    nowhere in an array of numbers. *)
Fixpoint indexOfFrom (i : nat) (l : list nat) (v : nat) : Z :=
  match l with
  | [] => (-1)%Z
  | x :: l' => if decide (x = v) then Z.of_nat i else indexOfFrom (S i) l' v
  end.

Definition indexOf (l : list nat) (origIdx : option nat) : Z :=
  match origIdx with
  | Some v => indexOfFrom 0 l v
  | None => (-1)%Z
  end.

(** [letterIdx >= tw.letterStartIndex && letterIdx < tw.letterEndIndex]. *)
Definition inWord (letterIdx : Z) (tw : TitleWord) : bool :=
  ((Z.of_nat (letterStartIndex tw) <=? letterIdx)
   && (letterIdx <? Z.of_nat (letterEndIndex tw)))%Z.

(** The loop over [titleInfo.words] that stops at the first word holding
    [letterIdx]: its index [wi] and the word. *)
Fixpoint findTitleWord (wi : nat) (ws : list TitleWord) (letterIdx : Z)
  : option (nat * TitleWord) :=
  match ws with
  | [] => None
  | tw :: ws' =>
      if inWord letterIdx tw then Some (wi, tw)
      else findTitleWord (S wi) ws' letterIdx
  end.

(** The set [wordsUsed] after the loop over [letterIndices]. *)
Definition wordsUsed (titleInfo : TitleInfo) (letterIndices : list Z) : gset nat :=
  foldl (fun used letterIdx =>
           match findTitleWord 0 (words titleInfo) letterIdx with
           | Some (wi, _) => {[wi]} ∪ used
           | None => used
           end) ∅ letterIndices.

(** The loop counting [initialsMatched]. *)
Fixpoint initialsMatched (wordLower inits : jsstring) : nat :=
  match wordLower, inits with
  | c :: wordLower', d :: inits' =>
      if decide (c = d) then S (initialsMatched wordLower' inits') else 0
  | _, _ => 0
  end.

(** [Math.min(wordLen / 10, 1) * 10]. *)
Definition lengthBonus (wordLen : nat) : number :=
  nmul (nmin (ndiv (ofNat wordLen) (Fin 10)) (Fin 1)) (Fin 10).

(** ** The version with near matches *)

Module MatchingA.

(** [calculateNiceness]: no first-letter bonus, no guard on any division,
    and [letterIndices] keeps the [-1] entries. *)

(** [startLetterScore] after its loop. *)
Definition startLetterScore (titleInfo : TitleInfo) (letterIndices : list Z) : number :=
  foldl (fun acc letterIdx =>
           match findTitleWord 0 (words titleInfo) letterIdx with
           | Some (_, tw) =>
               let posInWord := (letterIdx - Z.of_nat (letterStartIndex tw))%Z in
               let wordLength :=
                 (Z.of_nat (letterEndIndex tw) - Z.of_nat (letterStartIndex tw))%Z in
               let posScore := nsub (Fin 1) (ndiv (ofZ posInWord) (ofZ wordLength)) in
               nadd acc posScore
           | None => acc
           end) (Fin 0) letterIndices.

Definition calculateNiceness (titleInfo : TitleInfo) (w : jsstring)
    (idxs : list (option nat)) : number :=
  let score := Fin 0 in
  let wordLen := length w in
  let letterIndices := map (indexOf (letterPositions titleInfo)) idxs in
  let wordCoverage :=
    ndiv (ofNat (size (wordsUsed titleInfo letterIndices)))
         (ofNat (length (words titleInfo))) in
  let score := nadd score (nmul wordCoverage (Fin 40)) in
  let score :=
    nadd score
      (nmul (ndiv (startLetterScore titleInfo letterIndices) (ofNat wordLen)) (Fin 30)) in
  let wordLower := toLowerCase w in
  let matched := initialsMatched wordLower (initials titleInfo) in
  let score :=
    if 0 <? matched
    then nadd score
           (nmul (ndiv (ofNat matched) (ofNat (length (initials titleInfo)))) (Fin 20))
    else score in
  let score := nadd score (lengthBonus wordLen) in
  round2 score.

(** One pass of the inner loop of [editDistance]: [ai] is [a[i - 1]],
    [b] the characters [b[j - 1]] still to come, [prev] the old row from
    [prev[j - 1]] on and [left] the entry [curr[j - 1]] just written.
    The result is [curr[j]], [curr[j + 1]], ... *)
Fixpoint fillRow (ai : ascii) (b : jsstring) (prev : list nat) (left : nat)
  : list nat :=
  match b, prev with
  | bj :: b', diag :: ((up :: _) as prev') =>
      let v := if decide (ai = bj) then diag
               else 1 + Nat.min (Nat.min diag up) left in
      v :: fillRow ai b' prev' v
  | _, _ => []
  end.

(** The outer loop: [i] is the row number, [a] the characters from
    [a[i - 1]] on; the result is the final [prev]. *)
Fixpoint rowsFrom (i : nat) (a b : jsstring) (prev : list nat) : list nat :=
  match a with
  | [] => prev
  | ai :: a' => rowsFrom (S i) a' b (i :: fillRow ai b prev i)
  end.

(** [prev[n]] is always in range (lemma [rowsFrom_length]); the default
    stands for [undefined]. *)
Definition editDistance (a b : jsstring) : nat :=
  let n := length b in
  default 0 (rowsFrom 1 a b (seq 0 (n + 1)) !! n).

(** The inner loop of [findCompoundWords] over the split points; the
    result holds the two parts of the pushed record. *)
Fixpoint splitLoop (wordSet seen : gset jsstring) (w : jsstring)
    (splitPoints : list nat) : option (jsstring * jsstring) :=
  match splitPoints with
  | [] => None
  | splitPoint :: rest =>
      let part1 := take splitPoint w in
      let part2 := drop splitPoint w in
      if bool_decide (part1 ∈ wordSet) && bool_decide (part2 ∈ wordSet) then
        if bool_decide (w ∈ seen) then splitLoop wordSet seen w rest
        else Some (part1, part2)
      else splitLoop wordSet seen w rest
  end.

Fixpoint compoundLoop (titleInfo : TitleInfo) (wordSet : gset jsstring)
    (minComponentLength maxResults : nat) (allWords : list jsstring)
    (results : list WordMatch) (seen : gset jsstring) : list WordMatch :=
  match allWords with
  | [] => results
  | w :: rest =>
      let next := compoundLoop titleInfo wordSet minComponentLength maxResults rest in
      if length w <? minComponentLength * 2 then next results seen
      else if length (letters titleInfo) <? length w then next results seen
      else match findWordInTitle titleInfo w with
           | None => next results seen
           | Some idxs =>
               let splitPoints :=
                 seq minComponentLength
                     (S (length w - minComponentLength) - minComponentLength) in
               let '(results', seen') :=
                 match splitLoop wordSet seen w splitPoints with
                 | Some (part1, part2) =>
                     (results ++
                        [mkWordMatch w idxs
                           (nmul (calculateNiceness titleInfo w idxs) (Fin (8 # 10)))
                           Compound (Some [part1; part2]) None],
                      {[w]} ∪ seen)
                 | None => (results, seen)
                 end in
               if maxResults <=? length results' then results'
               else next results' seen'
           end
  end.

Definition findCompoundWords (titleInfo : TitleInfo) (wordSet : gset jsstring)
    (allWords : list jsstring) (minComponentLength maxResults : nat)
  : list WordMatch :=
  sortBy compareNiceness
    (compoundLoop titleInfo wordSet minComponentLength maxResults allWords [] ∅).

(** [containsSubsequence(source, target)]. *)
Fixpoint containsSubsequence (source target : jsstring) : bool :=
  match target with
  | [] => true
  | t :: target' =>
      match source with
      | [] => false
      | s :: source' =>
          if decide (s = t) then containsSubsequence source' target'
          else containsSubsequence source' target
      end
  end.

(** The walk that fills [matchedInitialIndices]: [inits] are the
    initials from [initials[ii]] on and [rest] the word from [wi] on. *)
Fixpoint walkInitials (ws : list TitleWord) (ii : nat) (inits rest : jsstring)
  : list (option nat) :=
  match inits with
  | [] => []
  | c :: inits' =>
      match advance c 0 rest with
      | Some (_, rest') =>
          match ws !! ii with
          | Some tw => Some (startIndex tw) :: walkInitials ws (S ii) inits' rest'
          | None => walkInitials ws (S ii) inits' rest'
          end
      | None => []
      end
  end.

Fixpoint nearLoop (titleInfo : TitleInfo) (inits : jsstring)
    (maxEditDistance maxResults : nat) (allWords : list jsstring)
    (results : list WordMatch) : list WordMatch :=
  match allWords with
  | [] => results
  | w :: rest =>
      let next := nearLoop titleInfo inits maxEditDistance maxResults rest in
      let minLen := Nat.max 2 (length inits - maxEditDistance) in
      let maxLen := length inits + maxEditDistance + 2 in
      if (length w <? minLen) || (maxLen <? length w) then next results
      else
        let wordLower := toLowerCase w in
        let distance := editDistance wordLower inits in
        let results' :=
          if (0 <? distance) && (distance <=? maxEditDistance) then
            match findWordInTitle titleInfo w with
            | Some _ => None   (* [continue]: the check below is skipped *)
            | None =>
                let closeness :=
                  nsub (Fin 1) (ndiv (ofNat distance) (ofNat (maxEditDistance + 1))) in
                let closeness :=
                  if bool_decide (head wordLower = head inits)
                  then nadd closeness (Fin (2 # 10)) else closeness in
                let closeness :=
                  if containsSubsequence wordLower inits
                  then nadd closeness (Fin (3 # 10)) else closeness in
                let nice := nmul (nmin closeness (Fin 1)) (Fin 50) in
                let matchedInitialIndices :=
                  walkInitials (words titleInfo) 0 inits wordLower in
                Some (results ++
                        [mkWordMatch w matchedInitialIndices (round2 nice)
                           Near None (Some distance)])
            end
          else Some results in
        match results' with
        | None => next results
        | Some results' =>
            if maxResults * 2 <=? length results' then results'
            else next results'
        end
  end.

Definition findNearMatches (titleInfo : TitleInfo) (allWords : list jsstring)
    (maxEditDistance maxResults : nat) : list WordMatch :=
  let inits := toLowerCase (initials titleInfo) in
  if length inits <? 2 then []
  else take maxResults
         (sortBy compareNiceness
            (nearLoop titleInfo inits maxEditDistance maxResults allWords [])).

(** The loop of [findAllMatches] that collects the exact matches. *)
Fixpoint exactLoop (titleInfo : TitleInfo) (minLen : nat)
    (term searchLower : jsstring) (allWords : list jsstring) : list WordMatch :=
  match allWords with
  | [] => []
  | w :: rest =>
      let next := exactLoop titleInfo minLen term searchLower rest in
      if length w <? minLen then next
      else if length (letters titleInfo) <? length w then next
      else if (0 <? length term) && negb (includes w searchLower) then next
      else match findWordInTitle titleInfo w with
           | Some idxs =>
               mkWordMatch w idxs (calculateNiceness titleInfo w idxs)
                 Exact None None :: next
           | None => next
           end
  end.

Definition findAllMatches `{Collator} (titleInfo : TitleInfo)
    (allWords : list jsstring) (wordSet : gset jsstring) (options : Options)
  : Results :=
  let searchLower := toLowerCase (searchTerm options) in
  let exactMatches :=
    sortBy compareMatches
      (exactLoop titleInfo (minLength options) (searchTerm options)
         searchLower allWords) in
  let exact := take (maxResults options) exactMatches in
  let exactWordSet : gset jsstring := list_to_set (map word exact) in
  let compound :=
    if includeCompounds options then
      take (maxResults options / 2)
        (filter (fun c => word c ∉ exactWordSet)
           (findCompoundWords titleInfo wordSet allWords 3 (maxResults options)))
    else [] in
  let near :=
    if includeNearMatches options
    then findNearMatches titleInfo allWords 2 (maxResults options / 2)
    else [] in
  mkResults exact compound near.

End MatchingA.

(** ** The version with generated compounds *)

Module MatchingB.

(** [calculateNiceness], statement by statement.  [letterIndices] drops
    the [-1] entries. *)

Definition letterIndicesOf (titleInfo : TitleInfo) (idxs : list (option nat))
  : list Z :=
  filter (fun i => (0 <= i)%Z) (map (indexOf (letterPositions titleInfo)) idxs).

(** 0. The bonus for the first letter of the first word. *)
Definition firstLetterBonus (titleInfo : TitleInfo) (letterIndices : list Z)
  : number :=
  match words titleInfo with
  | first :: _ =>
      if bool_decide (Z.of_nat (letterStartIndex first) ∈ letterIndices)
      then Fin 25 else Fin 0
  | [] => Fin 0
  end.

(** 1. [wordCoverage * 40]. *)
Definition wordCoverageTerm (titleInfo : TitleInfo) (letterIndices : list Z)
  : number :=
  let wordCoverage :=
    if 0 <? length (words titleInfo)
    then ndiv (ofNat (size (wordsUsed titleInfo letterIndices)))
              (ofNat (length (words titleInfo)))
    else Fin 0 in
  nmul wordCoverage (Fin 40).

(** [startLetterScore] after its loop. *)
Definition startLetterScore (titleInfo : TitleInfo) (letterIndices : list Z) : number :=
  foldl (fun acc letterIdx =>
           match findTitleWord 0 (words titleInfo) letterIdx with
           | Some (_, tw) =>
               let posInWord := (letterIdx - Z.of_nat (letterStartIndex tw))%Z in
               let wordLength :=
                 (Z.of_nat (letterEndIndex tw) - Z.of_nat (letterStartIndex tw))%Z in
               let denom := Z.max (wordLength - 1) 1 in
               let posScore := nsub (Fin 1) (ndiv (ofZ posInWord) (ofZ denom)) in
               nadd acc posScore
           | None => acc
           end) (Fin 0) letterIndices.

(** 2. [(startLetterScore / Math.max(wordLen, 1)) * 30]. *)
Definition startLetterTerm (titleInfo : TitleInfo) (wordLen : nat)
    (letterIndices : list Z) : number :=
  nmul (ndiv (startLetterScore titleInfo letterIndices) (ofNat (Nat.max wordLen 1)))
       (Fin 30).

(** 3. The bonus for a common prefix with the initials. *)
Definition initialsTerm (titleInfo : TitleInfo) (w : jsstring) : number :=
  let wordLower := toLowerCase w in
  let matched := initialsMatched wordLower (initials titleInfo) in
  if (0 <? matched) && (0 <? length (initials titleInfo))
  then nmul (ndiv (ofNat matched) (ofNat (length (initials titleInfo)))) (Fin 20)
  else Fin 0.

Definition calculateNiceness (titleInfo : TitleInfo) (w : jsstring)
    (idxs : list (option nat)) : number :=
  let score := Fin 0 in
  let wordLen := length w in
  let letterIndices := letterIndicesOf titleInfo idxs in
  let score := nadd score (firstLetterBonus titleInfo letterIndices) in
  let score := nadd score (wordCoverageTerm titleInfo letterIndices) in
  let score := nadd score (startLetterTerm titleInfo wordLen letterIndices) in
  let score := nadd score (initialsTerm titleInfo w) in
  let score := nadd score (lengthBonus wordLen) in
  round2 score.

Section generate.
Context (titleInfo : TitleInfo) (wordSet : gset jsstring)
        (searchLower : jsstring) (minWordLength maxCandidates : nat).

(** The loop over [j]; [seconds] is the pool from [componentPool[j]]
    on, the state is [compounds] with [seen].  Leaving by [break] shows
    in [compounds.length >= maxCandidates]. *)
Fixpoint innerLoop (i : nat) (first : WordMatch) (j : nat)
    (seconds : list WordMatch) (st : list WordMatch * gset jsstring)
  : list WordMatch * gset jsstring :=
  match seconds with
  | [] => st
  | second :: seconds' =>
      let next := innerLoop i first (S j) seconds' in
      let '(compounds, seen) := st in
      if decide (i = j) then next st
      else
        let combinedWord := word first ++ word second in
        if length combinedWord <? minWordLength then next st
        else if length (letters titleInfo) <? length combinedWord then next st
        else if (0 <? length searchLower)
                && negb (includes combinedWord searchLower) then next st
        else if bool_decide (combinedWord ∈ wordSet) then next st
        else if bool_decide (combinedWord ∈ seen) then next st
        else match findWordInTitle titleInfo combinedWord with
             | None => next st
             | Some idxs =>
                 let nice :=
                   nmul (calculateNiceness titleInfo combinedWord idxs)
                        (Fin (9 # 10)) in
                 let compounds' :=
                   compounds ++
                     [mkWordMatch combinedWord idxs (round2 nice) Compound
                        (Some [word first; word second]) None] in
                 let st' := (compounds', {[combinedWord]} ∪ seen) in
                 if maxCandidates <=? length compounds' then st'
                 else next st'
             end
  end.

(** The loop over [i]; [firsts] is the pool from [componentPool[i]] on. *)
Fixpoint outerLoop (componentPool : list WordMatch) (i : nat)
    (firsts : list WordMatch) (st : list WordMatch * gset jsstring)
  : list WordMatch * gset jsstring :=
  match firsts with
  | [] => st
  | first :: firsts' =>
      let st' := innerLoop i first 0 componentPool st in
      if maxCandidates <=? length (fst st') then st'
      else outerLoop componentPool (S i) firsts' st'
  end.
End generate.

Definition generateCompoundMatches `{Collator} (titleInfo : TitleInfo)
    (exactMatches : list WordMatch) (wordSet : gset jsstring)
    (searchLower : jsstring) (minWordLength maxResults : nat)
    (minComponentLength componentPoolSize : nat) : list WordMatch :=
  if maxResults <=? 0 then []
  else
    let usableMatches :=
      filter (fun m => minComponentLength <= length (word m)) exactMatches in
    if length usableMatches <? 2 then []
    else
      let componentPool := take componentPoolSize usableMatches in
      let maxCandidates := Nat.max (maxResults * 3) (length componentPool) in
      let compounds :=
        fst (outerLoop titleInfo wordSet searchLower minWordLength maxCandidates
               componentPool 0 componentPool ([], ∅)) in
      take maxResults (sortBy compareMatches compounds).

(** The loop of [findAllMatches] that collects the exact matches. *)
Fixpoint exactLoop (titleInfo : TitleInfo) (minLen : nat)
    (searchLower : jsstring) (allWords : list jsstring) : list WordMatch :=
  match allWords with
  | [] => []
  | w :: rest =>
      let next := exactLoop titleInfo minLen searchLower rest in
      if length w <? minLen then next
      else if length (letters titleInfo) <? length w then next
      else if (0 <? length searchLower) && negb (includes w searchLower) then next
      else match findWordInTitle titleInfo w with
           | Some idxs =>
               mkWordMatch w idxs (calculateNiceness titleInfo w idxs)
                 Exact None None :: next
           | None => next
           end
  end.

(** [findAllMatches]; this version has no near matches, its options no
    [includeNearMatches] (the field is not read). *)
Definition findAllMatches `{Collator} (titleInfo : TitleInfo)
    (allWords : list jsstring) (wordSet : gset jsstring) (options : Options)
  : Results :=
  let searchLower := toLowerCase (trim (searchTerm options)) in
  let allExactMatches :=
    sortBy compareMatches
      (exactLoop titleInfo (minLength options) searchLower allWords) in
  let exact := take (maxResults options) allExactMatches in
  let exactWordSet : gset jsstring := list_to_set (map word exact) in
  let compound :=
    if includeCompounds options then
      let compoundLimit := Nat.max 1 (maxResults options / 2) in
      let minComponentLength := Nat.max 2 (Nat.min 4 (minLength options)) in
      let generated :=
        generateCompoundMatches titleInfo allExactMatches wordSet searchLower
          (minLength options) compoundLimit minComponentLength 80 in
      filter (fun c => word c ∉ exactWordSet) generated
    else [] in
  mkResults exact compound [].

End MatchingB.

(** ** The same scorer and search over binary64 numbers

    A JavaScript number is an IEEE 754 binary64 value and every
    operation on it rounds to nearest, ties to even.  Here the scorer
    and the search of the later version are embedded once more, with
    the kernel's binary64 numbers: the results are, bit for bit, the
    numbers that the program computes.  Counts, lengths and indices
    stay integers; they become numbers where the source divides them. *)

Module Binary64.
Import PrimFloat.

Abbreviation number := PrimFloat.float.

(** The number that an integer is (exact below [2^53]). *)
Definition ofZ (z : Z) : number :=
  FloatOps.SF2Prim (SpecFloat.binary_normalize FloatOps.prec FloatOps.emax z 0 false).

Definition ofNat (n : nat) : number := ofZ (Z.of_nat n).

(** [Math.round]: the integer nearest to [x], halves towards
    [+Infinity]; [-0] for [-0.5 <= x < 0]; NaN, the infinities and the
    zeros are returned as they are. *)
Definition round (x : number) : number :=
  match FloatOps.Prim2SF x with
  | SpecFloat.S754_finite s m e =>
      if (0 <=? e)%Z then x
      else
        let n := Z.shiftr ((if s then Zneg m else Zpos m) + Z.shiftl 1 (- e - 1))
                          (- e) in
        if (n =? 0)%Z then (if s then PrimFloat.neg_zero else PrimFloat.zero)
        else ofZ n
  | _ => x
  end.

(** [Math.min] of two numbers: NaN if either is, and [-0] below [+0]. *)
Definition min (a b : number) : number :=
  if PrimFloat.is_nan a || PrimFloat.is_nan b then PrimFloat.nan
  else if (a <? b)%float then a
  else if (b <? a)%float then b
  else if PrimFloat.get_sign a then a else b.

(** [Math.round(x * 100) / 100]. *)
Definition round2 (x : number) : number := (round (x * 100) / 100)%float.

(** [Math.min(wordLen / 10, 1) * 10]. *)
Definition lengthBonus (wordLen : nat) : number :=
  (min (ofNat wordLen / 10) 1 * 10)%float.

(** The sign of a comparator's result, as [Array.prototype.sort] reads
    it: NaN and the zeros read as [Eq]. *)
Definition signOf (x : number) : comparison :=
  if (0 <? x)%float then Gt else if (x <? 0)%float then Lt else Eq.

Record WordMatch := mkWordMatch {
  word : jsstring;
  indices : list (option nat);
  niceness : number;
  type : MatchType;
  components : option (list jsstring)
}.

Record Results := mkResults {
  exact_ : list WordMatch;
  compound_ : list WordMatch
}.

(** The comparator of the exact and of the compound lists. *)
Definition compareMatches `{Collator} (a b : WordMatch) : comparison :=
  if negb (niceness b =? niceness a)%float
  then signOf (niceness b - niceness a)%float
  else if negb (length (word b) =? length (word a))
  then Nat.compare (length (word b)) (length (word a))
  else localeCompare (word a) (word b).

(** [calculateNiceness] of the later version, statement by statement. *)
Definition calculateNiceness (titleInfo : TitleInfo) (w : jsstring)
    (idxs : list (option nat)) : number :=
  let score := 0%float in
  let wordLen := length w in
  let letterIndices := MatchingB.letterIndicesOf titleInfo idxs in
  let score :=
    match words titleInfo with
    | first :: _ =>
        if bool_decide (Z.of_nat (letterStartIndex first) ∈ letterIndices)
        then (score + 25)%float else score
    | [] => score
    end in
  let wordCoverage :=
    if 0 <? length (words titleInfo)
    then (ofNat (size (wordsUsed titleInfo letterIndices))
          / ofNat (length (words titleInfo)))%float
    else 0%float in
  let score := (score + wordCoverage * 40)%float in
  let startLetterScore :=
    foldl (fun acc letterIdx =>
             match findTitleWord 0 (words titleInfo) letterIdx with
             | Some (_, tw) =>
                 let posInWord := (letterIdx - Z.of_nat (letterStartIndex tw))%Z in
                 let wordLength :=
                   (Z.of_nat (letterEndIndex tw) - Z.of_nat (letterStartIndex tw))%Z in
                 let denom := Z.max (wordLength - 1) 1 in
                 let posScore := (1 - ofZ posInWord / ofZ denom)%float in
                 (acc + posScore)%float
             | None => acc
             end) 0%float letterIndices in
  let score :=
    (score + startLetterScore / ofNat (Nat.max wordLen 1) * 30)%float in
  let wordLower := toLowerCase w in
  let matched := initialsMatched wordLower (initials titleInfo) in
  let score :=
    if (0 <? matched) && (0 <? length (initials titleInfo))
    then (score + ofNat matched / ofNat (length (initials titleInfo)) * 20)%float
    else score in
  let score := (score + lengthBonus wordLen)%float in
  round2 score.

Section generate.
Context (titleInfo : TitleInfo) (wordSet : gset jsstring)
        (searchLower : jsstring) (minWordLength maxCandidates : nat).

(** The loop over [j] of [generateCompoundMatches]; [seconds] is the
    pool from [componentPool[j]] on, the state is [compounds] with
    [seen]. *)
Fixpoint innerLoop (i : nat) (first : WordMatch) (j : nat)
    (seconds : list WordMatch) (st : list WordMatch * gset jsstring)
  : list WordMatch * gset jsstring :=
  match seconds with
  | [] => st
  | second :: seconds' =>
      let next := innerLoop i first (S j) seconds' in
      let '(compounds, seen) := st in
      if decide (i = j) then next st
      else
        let combinedWord := word first ++ word second in
        if length combinedWord <? minWordLength then next st
        else if length (letters titleInfo) <? length combinedWord then next st
        else if (0 <? length searchLower)
                && negb (includes combinedWord searchLower) then next st
        else if bool_decide (combinedWord ∈ wordSet) then next st
        else if bool_decide (combinedWord ∈ seen) then next st
        else match findWordInTitle titleInfo combinedWord with
             | None => next st
             | Some idxs =>
                 let nice :=
                   (calculateNiceness titleInfo combinedWord idxs * 0.9)%float in
                 let compounds' :=
                   compounds ++
                     [mkWordMatch combinedWord idxs (round2 nice) Compound
                        (Some [word first; word second])] in
                 let st' := (compounds', {[combinedWord]} ∪ seen) in
                 if maxCandidates <=? length compounds' then st'
                 else next st'
             end
  end.

(** The loop over [i]; [firsts] is the pool from [componentPool[i]] on. *)
Fixpoint outerLoop (componentPool : list WordMatch) (i : nat)
    (firsts : list WordMatch) (st : list WordMatch * gset jsstring)
  : list WordMatch * gset jsstring :=
  match firsts with
  | [] => st
  | first :: firsts' =>
      let st' := innerLoop i first 0 componentPool st in
      if maxCandidates <=? length (fst st') then st'
      else outerLoop componentPool (S i) firsts' st'
  end.
End generate.

Definition generateCompoundMatches `{Collator} (titleInfo : TitleInfo)
    (exactMatches : list WordMatch) (wordSet : gset jsstring)
    (searchLower : jsstring) (minWordLength maxResults : nat)
    (minComponentLength componentPoolSize : nat) : list WordMatch :=
  if maxResults <=? 0 then []
  else
    let usableMatches :=
      filter (fun m => minComponentLength <= length (word m)) exactMatches in
    if length usableMatches <? 2 then []
    else
      let componentPool := take componentPoolSize usableMatches in
      let maxCandidates := Nat.max (maxResults * 3) (length componentPool) in
      let compounds :=
        fst (outerLoop titleInfo wordSet searchLower minWordLength maxCandidates
               componentPool 0 componentPool ([], ∅)) in
      take maxResults (sortBy compareMatches compounds).

(** The loop of [findAllMatches] that collects the exact matches. *)
Fixpoint exactLoop (titleInfo : TitleInfo) (minLen : nat)
    (searchLower : jsstring) (allWords : list jsstring) : list WordMatch :=
  match allWords with
  | [] => []
  | w :: rest =>
      let next := exactLoop titleInfo minLen searchLower rest in
      if length w <? minLen then next
      else if length (letters titleInfo) <? length w then next
      else if (0 <? length searchLower) && negb (includes w searchLower) then next
      else match findWordInTitle titleInfo w with
           | Some idxs =>
               mkWordMatch w idxs (calculateNiceness titleInfo w idxs) Exact None
                 :: next
           | None => next
           end
  end.

Definition findAllMatches `{Collator} (titleInfo : TitleInfo)
    (allWords : list jsstring) (wordSet : gset jsstring) (options : Options)
  : Results :=
  let searchLower := toLowerCase (trim (searchTerm options)) in
  let allExactMatches :=
    sortBy compareMatches
      (exactLoop titleInfo (minLength options) searchLower allWords) in
  let exact := take (maxResults options) allExactMatches in
  let exactWordSet : gset jsstring := list_to_set (map word exact) in
  let compound :=
    if includeCompounds options then
      let compoundLimit := Nat.max 1 (maxResults options / 2) in
      let minComponentLength := Nat.max 2 (Nat.min 4 (minLength options)) in
      let generated :=
        generateCompoundMatches titleInfo allExactMatches wordSet searchLower
          (minLength options) compoundLimit minComponentLength 80 in
      filter (fun c => word c ∉ exactWordSet) generated
    else [] in
  mkResults exact compound.

End Binary64.

(** ** Loading the dictionary *)

(** [text.split(sep)] for a separator of one character. *)
Fixpoint split (sep : ascii) (text : jsstring) : list jsstring :=
  match text with
  | [] => [[]]
  | c :: text' =>
      if decide (c = sep) then [] :: split sep text'
      else match split sep text' with
           | line :: lines => (c :: line) :: lines
           | [] => [[c]]
           end
  end.

(** The word list built when the dictionary file arrives:
    [text.split('\n').map(w => w.trim().toLowerCase()).filter(w => w.length > 0)]. *)
Definition wordList (text : jsstring) : list jsstring :=
  filter (fun w => 0 < length w)
         (map (fun w => toLowerCase (trim w)) (split "010"%char text)).

(** ** Showing a match *)

(** The character spans that [HighlightedTitle] renders for a title and
    the indices of a match: each character of the title in order, with
    whether its span carries the class [highlight]. *)
Definition HighlightedTitle (title : jsstring) (indices : list (option nat))
  : list (ascii * bool) :=
  imap (fun i char => (char, bool_decide (Some i ∈ indices))) title.

(** * Vocabulary of the properties *)

(** Successive words tile the letters from [from] up to [to]: each
    starts where the previous one ends and is not empty. *)
Fixpoint tiles (from : nat) (ws : list TitleWord) (to : nat) : Prop :=
  match ws with
  | [] => from = to
  | w :: ws' =>
      letterStartIndex w = from /\ from < letterEndIndex w /\
      tiles (letterEndIndex w) ws' to
  end.

(** Strictly increasing: an earlier entry is below every later one. *)
Definition increasing (l : list nat) : Prop :=
  forall i j x y, i < j -> l !! i = Some x -> l !! j = Some y -> x < y.

(** The text of all matches, with the open run in front. *)
Definition openText (cur : option (nat * jsstring)) : jsstring :=
  match cur with Some (_, run) => run | None => [] end.

(** [ks] embeds [w] in [ls]: one position per character, increasing,
    each holding that character. *)
Definition embedding (ks : list nat) (w ls : jsstring) : Prop :=
  length ks = length w /\ increasing ks /\
  forall n k, ks !! n = Some k -> exists c, w !! n = Some c /\ ls !! k = Some c.

(** What the exact-match loop of the version with near matches does
    with one dictionary word. *)
Definition exactOfA (titleInfo : TitleInfo) (minLen : nat)
    (term searchLower w : jsstring) : option WordMatch :=
  if length w <? minLen then None
  else if length (letters titleInfo) <? length w then None
  else if (0 <? length term) && negb (includes w searchLower) then None
  else match findWordInTitle titleInfo w with
       | Some idxs =>
           Some (mkWordMatch w idxs (MatchingA.calculateNiceness titleInfo w idxs)
                   Exact None None)
       | None => None
       end.

(** The same for the version with generated compounds. *)
Definition exactOfB (titleInfo : TitleInfo) (minLen : nat)
    (searchLower w : jsstring) : option WordMatch :=
  if length w <? minLen then None
  else if length (letters titleInfo) <? length w then None
  else if (0 <? length searchLower) && negb (includes w searchLower) then None
  else match findWordInTitle titleInfo w with
       | Some idxs =>
           Some (mkWordMatch w idxs (MatchingB.calculateNiceness titleInfo w idxs)
                   Exact None None)
       | None => None
       end.

(** The recurrence that the table of [editDistance] follows, read from
    the last characters of two prefixes towards the first: both
    arguments are reversed prefixes. *)
Fixpoint lev (a : jsstring) : jsstring -> nat :=
  match a with
  | [] => fun b => length b
  | x :: a' =>
      fix inner (b : jsstring) : nat :=
        match b with
        | [] => S (length a')
        | y :: b' =>
            if decide (x = y) then lev a' b'
            else 1 + Nat.min (Nat.min (lev a' b') (lev a' b)) (inner b')
        end
  end.

(** The row of the table for the reversed prefix [ra] of [a]: its
    entries from the reversed prefix [rb] of [b] on, [b'] being the rest
    of [b]. *)
Fixpoint rowOf (ra rb b' : jsstring) : list nat :=
  lev ra rb ::
  match b' with
  | [] => []
  | y :: b'' => rowOf ra (y :: rb) b''
  end.

(** What [findNearMatches] guarantees of a record it returns. *)
Definition isNearMatch (titleInfo : TitleInfo) (maxEditDistance : nat)
    (m : WordMatch) : Prop :=
  type m = Near /\
  (exists d, matchDistance m = Some d /\
     d = MatchingA.editDistance (toLowerCase (word m))
           (toLowerCase (initials titleInfo)) /\
     1 <= d <= maxEditDistance) /\
  findWordInTitle titleInfo (word m) = None.

(** [x] is the finite number [q], up to the equality of rationals. *)
Definition isFin (x : number) (q : Q) : Prop :=
  match x with
  | Fin a => a == q
  | _ => False
  end.

(** Neither NaN nor an infinity. *)
Definition finite (x : number) : Prop := exists q, x = Fin q.

(** What [generateCompoundMatches] guarantees of a record it returns. *)
Definition isGenerated (titleInfo : TitleInfo) (wordSet : gset jsstring)
    (m : WordMatch) : Prop :=
  type m = Compound /\ (word m ∉ wordSet) /\
  findWordInTitle titleInfo (word m) = Some (indices m) /\
  niceness m
  = round2 (nmul (MatchingB.calculateNiceness titleInfo (word m) (indices m))
                 (Fin (9 # 10))) /\
  exists first second, components m = Some [first; second] /\ word m = first ++ second.

(** The records of type compound among all that a search returns. *)
Definition returnedCompound (r : Results) (m : WordMatch) : Prop :=
  (m ∈ exact_ r \/ m ∈ compound_ r \/ m ∈ near_ r) /\ type m = Compound.

(** A collation that is a total order on strings. *)
Class CollatorOrder (C : Collator) : Prop := {
  collate_anti : forall a b, localeCompare b a = CompOpp (localeCompare a b);
  collate_trans : forall a b c,
    localeCompare a b <> Gt -> localeCompare b c <> Gt -> localeCompare a c <> Gt;
  collate_eq : forall a b, localeCompare a b = Eq -> a = b
}.

(** [a] is ranked before [b]: higher niceness first, then the longer
    word, then the word that collates first. *)
Definition outranks `{Collator} (a b : WordMatch) : Prop :=
  exists p q, niceness a = Fin p /\ niceness b = Fin q /\
    ((q < p)%Q \/
     (p == q /\
      (length (word b) < length (word a) \/
       (length (word a) = length (word b) /\ localeCompare (word a) (word b) <> Gt)))).

(** The exact list is the first [maxRes] entries of a ranked arrangement
    of everything that was found. *)
Definition rankedExact `{Collator} (found result : list WordMatch) (maxRes : nat)
  : Prop :=
  exists sorted,
    sorted ≡ₚ found /\
    (forall i j a b, i < j -> sorted !! i = Some a -> sorted !! j = Some b ->
                     outranks a b) /\
    result = take maxRes sorted.

(** The score in the words of its description, over the matched letter
    positions [ks] of the candidate word [w], in the arithmetic of the
    program: binary64 numbers, the bonuses added one after the other in
    the order of the description. *)
Module Formula.
Import PrimFloat.
Section formula.
Context (titleInfo : TitleInfo) (w : jsstring) (ks : list nat).

(** The letter position [k] falls in the range of the title word. *)
Definition touches (tw : TitleWord) (k : nat) : bool :=
  (letterStartIndex tw <=? k) && (k <? letterEndIndex tw).

Definition firstLetter : Binary64.number :=
  match words titleInfo with
  | first :: _ => if bool_decide (letterStartIndex first ∈ ks) then 25%float else 0%float
  | [] => 0%float
  end.

(** The number of title words touched by some matched position. *)
Definition touchedWords : nat :=
  length (List.filter (fun tw => existsb (touches tw) ks) (words titleInfo)).

Definition coverage : Binary64.number :=
  (Binary64.ofNat touchedWords / Binary64.ofNat (length (words titleInfo)) * 40)%float.

(** 1 for the first letter of its title word, falling to 0 for the last. *)
Definition positionScore (k : nat) : Binary64.number :=
  match List.find (fun tw => touches tw k) (words titleInfo) with
  | Some tw =>
      (1 - Binary64.ofNat (k - letterStartIndex tw)
           / Binary64.ofNat (Nat.max (length (tw_word tw) - 1) 1))%float
  | None => 0%float
  end.

Definition startLetter : Binary64.number :=
  (foldl (fun sum k => sum + positionScore k) 0 ks
   / Binary64.ofNat (length w) * 30)%float.

(** The length of the longest common prefix with the initials. *)
Definition commonPrefix : nat :=
  length (max_prefix (toLowerCase w) (initials titleInfo)).2.

(** The bonus for a common prefix, when there is one. *)
Definition initialsPrefix : option Binary64.number :=
  if 0 <? commonPrefix
  then Some (Binary64.ofNat commonPrefix
             / Binary64.ofNat (length (initials titleInfo)) * 20)%float
  else None.

Definition lengthTerm : Binary64.number :=
  (Binary64.min (Binary64.ofNat (length w) / 10) 1 * 10)%float.

(** The nearest hundredth, halves rounded up. *)
Definition roundHundredths (x : Binary64.number) : Binary64.number :=
  (Binary64.round (x * 100) / 100)%float.

Definition score : Binary64.number :=
  let sum := (firstLetter + coverage + startLetter)%float in
  let sum :=
    match initialsPrefix with
    | Some bonus => (sum + bonus)%float
    | None => sum
    end in
  roundHundredths (sum + lengthTerm)%float.
End formula.
End Formula.

(** [edits n a b]: [n] single-character edits (a substitution, a
    deletion or an insertion each) turn [a] into [b]. *)
Inductive edits : nat -> jsstring -> jsstring -> Prop :=
  | edits_nil : edits 0 [] []
  | edits_keep n x a b : edits n a b -> edits n (x :: a) (x :: b)
  | edits_subst n x y a b : edits n a b -> edits (S n) (x :: a) (y :: b)
  | edits_delete n x a b : edits n a b -> edits (S n) (x :: a) b
  | edits_insert n y a b : edits n a b -> edits (S n) a (y :: b).

(** One of the 26 letters [a]-[z]. *)
Definition isLowerLetter (c : ascii) : bool :=
  let n := N_of_ascii c in ((97 <=? n) && (n <=? 122))%N.

(** The title positions that a match of the word regex covers. *)
Definition matchRange (m : nat * jsstring) : list nat := seq (fst m) (length (snd m)).

(** A match of the word regex lies in [full] at its index, consists of
    letters, and has no letter directly before or after it. *)
Definition isRun (full : jsstring) (m : nat * jsstring) : Prop :=
  take (length (snd m)) (drop (fst m) full) = snd m /\
  Forall (fun c => isLetter c = true) (snd m) /\
  (fst m = 0 \/ exists o, full !! (fst m - 1) = Some o /\ isLetter o = false) /\
  (forall o, full !! (fst m + length (snd m)) = Some o -> isLetter o = false).

(** The record that [findNearMatches] pushes for the dictionary word [w]. *)
Definition nearOf (titleInfo : TitleInfo) (inits : jsstring)
    (maxEditDistance : nat) (w : jsstring) : WordMatch :=
  let wordLower := toLowerCase w in
  let distance := MatchingA.editDistance wordLower inits in
  let closeness :=
    nsub (Fin 1) (ndiv (ofNat distance) (ofNat (maxEditDistance + 1))) in
  let closeness :=
    if bool_decide (head wordLower = head inits)
    then nadd closeness (Fin (2 # 10)) else closeness in
  let closeness :=
    if MatchingA.containsSubsequence wordLower inits
    then nadd closeness (Fin (3 # 10)) else closeness in
  let nice := nmul (nmin closeness (Fin 1)) (Fin 50) in
  mkWordMatch w (MatchingA.walkInitials (words titleInfo) 0 inits wordLower)
    (round2 nice) Near None (Some distance).

(** A whole number of hundredths between [lo / 100] and [hi / 100]. *)
Definition hundredths (lo hi : Z) (x : number) : Prop :=
  exists z : Z, x = Fin (inject_Z z / 100) /\ (lo <= z <= hi)%Z.

(** A record that pairs two entries of the component pool, within the
    length limits and holding the search term. *)
Definition pairsPool (titleInfo : TitleInfo) (searchLower : jsstring)
    (minWordLength : nat) (pool : list WordMatch) (m : WordMatch) : Prop :=
  exists first second,
    first ∈ pool /\ second ∈ pool /\
    components m = Some [word first; word second] /\
    word m = word first ++ word second /\
    minWordLength <= length (word m) <= length (letters titleInfo) /\
    (searchLower = [] \/ includes (word m) searchLower = true).

(** The state of the loops of [generateCompoundMatches]: no word twice,
    [seen] holding exactly the words pushed, every record a pair of the
    pool. *)
Definition poolState (titleInfo : TitleInfo) (searchLower : jsstring)
    (minWordLength : nat) (pool : list WordMatch)
    (st : list WordMatch * gset jsstring) : Prop :=
  NoDup (map word (fst st)) /\
  (forall w, w ∈ snd st <-> w ∈ map word (fst st)) /\
  Forall (pairsPool titleInfo searchLower minWordLength pool) (fst st).

(** [part1 ++ part2] is the split of [w] into two members of [wordSet],
    each at least [minComponentLength] long, with the shortest such
    first part. *)
Definition firstSplit (wordSet : gset jsstring) (minComponentLength : nat)
    (w part1 part2 : jsstring) : Prop :=
  w = part1 ++ part2 /\ part1 ∈ wordSet /\ part2 ∈ wordSet /\
  minComponentLength <= length part1 /\ minComponentLength <= length part2 /\
  forall k, minComponentLength <= k < length part1 ->
    ~ (take k w ∈ wordSet /\ drop k w ∈ wordSet).

(** [w] splits at some point into two members of [wordSet] at least
    [minComponentLength] long. *)
Definition splits (wordSet : gset jsstring) (minComponentLength : nat)
    (w : jsstring) : Prop :=
  exists k, minComponentLength <= k <= length w - minComponentLength /\
            take k w ∈ wordSet /\ drop k w ∈ wordSet.

(** The record [findCompoundWords] pushes for a dictionary word. *)
Definition compoundOfA (titleInfo : TitleInfo) (wordSet : gset jsstring)
    (minComponentLength : nat) (m : WordMatch) : Prop :=
  minComponentLength * 2 <= length (word m) <= length (letters titleInfo) /\
  findWordInTitle titleInfo (word m) = Some (indices m) /\
  niceness m =
    nmul (MatchingA.calculateNiceness titleInfo (word m) (indices m))
         (Fin (8 # 10)) /\
  type m = Compound /\ matchDistance m = None /\
  exists part1 part2,
    components m = Some [part1; part2] /\
    firstSplit wordSet minComponentLength (word m) part1 part2.

(** The state of the loop of [findCompoundWords]: no word twice, [seen]
    holding exactly the words pushed, every record built from an entry
    of [allWords]. *)
Definition loopState (titleInfo : TitleInfo) (wordSet : gset jsstring)
    (minComponentLength : nat) (allWords : list jsstring)
    (results : list WordMatch) (seen : gset jsstring) : Prop :=
  NoDup (map word results) /\
  (forall w, w ∈ seen <-> w ∈ map word results) /\
  Forall (fun m => word m ∈ allWords /\
                   compoundOfA titleInfo wordSet minComponentLength m) results.

(** A finite number between two bounds. *)
Definition within (lo hi : Q) (x : number) : Prop :=
  exists q, x = Fin q /\ (lo <= q <= hi)%Q.

(** What [generateCompoundMatches] guarantees of a record it returns,
    in binary64. *)
Definition isGenerated64 (titleInfo : TitleInfo) (wordSet : gset jsstring)
    (m : Binary64.WordMatch) : Prop :=
  Binary64.type m = Compound /\ (Binary64.word m ∉ wordSet) /\
  findWordInTitle titleInfo (Binary64.word m) = Some (Binary64.indices m) /\
  Binary64.niceness m
  = Binary64.round2
      (Binary64.calculateNiceness titleInfo (Binary64.word m) (Binary64.indices m)
       * 0.9)%float /\
  exists first second,
    Binary64.components m = Some [first; second] /\
    Binary64.word m = first ++ second.

(** The records of type compound among all that a search returns. *)
Definition returnedCompound64 (r : Binary64.Results) (m : Binary64.WordMatch)
  : Prop :=
  (m ∈ Binary64.exact_ r \/ m ∈ Binary64.compound_ r) /\
  Binary64.type m = Compound.

(** Two titles read alike: they are equally long and position by
    position either both hold a letter, the same but for its case, or
    neither holds a letter. *)
Definition sameLetters (title title' : jsstring) : Prop :=
  Forall2 (fun c c' => isLetter c = isLetter c' /\
                       (isLetter c = true -> toLowerChar c = toLowerChar c'))
          title title'.

(** * Properties *)

Example analyze_cat_dog :
  let ti := analyzeTitleTitle (str "Cat  Dog!") in
  letters ti = str "catdog" /\
  letterPositions ti = [0; 1; 2; 5; 6; 7] /\
  words ti = [mkTitleWord (str "cat") 0 0 3; mkTitleWord (str "dog") 5 3 6] /\
  initials ti = str "cd".
Proof. vm_compute. auto. Qed.

Example find_cog :
  findWordInTitle (analyzeTitleTitle (str "Cat  Dog!")) (str "Cog")
  = Some [Some 0; Some 6; Some 7].
Proof. vm_compute. reflexivity. Qed.

Example find_cod :
  findWordInTitle (analyzeTitleTitle (str "Cat  Dog!")) (str "cod") = None.
Proof. vm_compute. reflexivity. Qed.

(** ** The title analyzer *)

Lemma toLowerCase_length s : length (toLowerCase s) = length s.
Proof. apply length_map. Qed.

Lemma analyze_fields title :
  letterPositions (analyzeTitleTitle title) = fst (collectLetters 0 title) /\
  letters (analyzeTitleTitle title) = snd (collectLetters 0 title) /\
  words (analyzeTitleTitle title) = buildWords 0 (execAll 0 None title) /\
  initials (analyzeTitleTitle title)
  = concat (map firstChar (buildWords 0 (execAll 0 None title))) /\
  original (analyzeTitleTitle title) = title.
Proof.
  unfold analyzeTitleTitle. destruct (collectLetters 0 title); simpl; auto.
Qed.

Lemma collectLetters_letters title : forall i,
  snd (collectLetters i title) = toLowerCase (List.filter isLetter title).
Proof.
  induction title as [|c rest IH]; intros i; simpl; [reflexivity|].
  specialize (IH (S i)). destruct (collectLetters (S i) rest) as [ps ls].
  simpl in IH. destruct (isLetter c); simpl; congruence.
Qed.

Lemma collectLetters_length title : forall i,
  length (fst (collectLetters i title)) = length (snd (collectLetters i title)).
Proof.
  induction title as [|c rest IH]; intros i; simpl; [reflexivity|].
  specialize (IH (S i)). destruct (collectLetters (S i) rest) as [ps ls].
  simpl in IH. destruct (isLetter c); simpl; congruence.
Qed.

Lemma collectLetters_sorted title : forall i,
  Forall (le i) (fst (collectLetters i title)) /\
  StronglySorted lt (fst (collectLetters i title)).
Proof.
  induction title as [|c rest IH]; intros i; simpl.
  - split; constructor.
  - destruct (IH (S i)) as [Hge Hs].
    destruct (collectLetters (S i) rest) as [ps ls]. simpl in *.
    assert (Forall (le i) ps) by (eapply Forall_impl; [exact Hge|]; simpl; lia).
    destruct (isLetter c); simpl; split; auto.
    constructor; auto.
Qed.

(** Each recorded position is the place, in the title, of the letter it
    stands for. *)
Lemma collectLetters_lookup title : forall i k p,
  fst (collectLetters i title) !! k = Some p ->
  i <= p /\
  exists c, title !! (p - i) = Some c /\ isLetter c = true /\
            snd (collectLetters i title) !! k = Some (toLowerChar c).
Proof.
  induction title as [|c rest IH]; intros i k p; simpl; [done|].
  specialize (IH (S i)).
  destruct (collectLetters (S i) rest) as [ps ls]. simpl in IH.
  destruct (isLetter c) eqn:Hc; simpl.
  - destruct k as [|k]; simpl.
    + intros [= <-]. split; [lia|]. exists c. rewrite Nat.sub_diag. auto.
    + intros Hk. destruct (IH _ _ Hk) as (Hle & c' & Hl & Hc' & Hls).
      split; [lia|]. exists c'. replace (p - i) with (S (p - S i)) by lia. auto.
  - intros Hk. destruct (IH _ _ Hk) as (Hle & c' & Hl & Hc' & Hls).
    split; [lia|]. exists c'. replace (p - i) with (S (p - S i)) by lia. auto.
Qed.

Lemma StronglySorted_lookup {A} (R : A -> A -> Prop) l :
  StronglySorted R l ->
  forall i j a b, i < j -> l !! i = Some a -> l !! j = Some b -> R a b.
Proof.
  induction 1 as [|x l Hs IH Hx]; intros i j a b Hij Hi Hj; [done|].
  destruct j as [|j]; [lia|]. simpl in Hj.
  destruct i as [|i]; simpl in Hi.
  - injection Hi as <-. rewrite Forall_forall in Hx. apply Hx.
    eapply list_elem_of_lookup_2; eauto.
  - eapply IH; [|eauto..]. lia.
Qed.

Lemma StronglySorted_lt_increasing l : StronglySorted lt l -> increasing l.
Proof. intros H i j a b. by apply StronglySorted_lookup. Qed.

Lemma execAll_text title : forall i cur,
  concat (map snd (execAll i cur title)) = openText cur ++ List.filter isLetter title.
Proof.
  induction title as [|c rest IH]; intros i cur; simpl.
  - destruct cur as [[s run]|]; simpl; by rewrite ?app_nil_r.
  - destruct (isLetter c); destruct cur as [[s run]|]; simpl; rewrite IH; simpl;
      by rewrite <- ?app_assoc.
Qed.

Lemma execAll_nonempty title : forall i cur,
  (forall s run, cur = Some (s, run) -> run <> []) ->
  Forall (fun m => snd m <> []) (execAll i cur title).
Proof.
  induction title as [|c rest IH]; intros i cur Hcur; simpl.
  - destruct cur as [[s run]|]; constructor; simpl; eauto.
  - destruct (isLetter c); destruct cur as [[s run]|]; simpl.
    + apply IH. intros ? ? [= <- <-]. by destruct run.
    + apply IH. intros ? ? [= <- <-]. done.
    + constructor; [simpl; eauto|]. apply IH. done.
    + apply IH. done.
Qed.

Lemma buildWords_text ms : forall k,
  concat (map tw_word (buildWords k ms)) = toLowerCase (concat (map snd ms)).
Proof.
  induction ms as [|[idx text] ms IH]; intros k; simpl; [reflexivity|].
  rewrite IH. unfold toLowerCase. by rewrite map_app.
Qed.

Lemma buildWords_tiles ms : forall k,
  Forall (fun m => snd m <> []) ms ->
  tiles k (buildWords k ms) (k + length (concat (map snd ms))).
Proof.
  induction ms as [|[idx text] ms IH]; intros k Hne; simpl; [lia|].
  inversion Hne as [|? ? Hm Hms]; subst. simpl in Hm.
  rewrite toLowerCase_length. split; [done|]. split.
  - destruct text; [done|simpl; lia].
  - rewrite length_app, Nat.add_assoc. by apply IH.
Qed.

Lemma buildWords_wordLength ms : forall k,
  Forall (fun w => letterEndIndex w - letterStartIndex w = length (tw_word w))
         (buildWords k ms).
Proof.
  induction ms as [|[idx text] ms IH]; intros k; simpl; constructor; simpl; auto.
  lia.
Qed.

Lemma buildWords_nonempty ms : forall k,
  Forall (fun m => snd m <> []) ms ->
  Forall (fun w => tw_word w <> []) (buildWords k ms).
Proof.
  induction ms as [|[idx text] ms IH]; intros k Hne; simpl; [constructor|].
  inversion Hne; subst. constructor; auto. simpl in *. by destruct text.
Qed.

(** Every word is the slice of the letters that its range names. *)
Lemma tiles_slices ws : forall from to (ls : jsstring),
  tiles from ws to ->
  Forall (fun w => letterEndIndex w - letterStartIndex w = length (tw_word w)) ws ->
  drop from ls = concat (map tw_word ws) ->
  Forall (fun w => take (length (tw_word w)) (drop (letterStartIndex w) ls) = tw_word w) ws.
Proof.
  induction ws as [|w ws IH]; intros from to ls Ht Hlen Hdrop; [constructor|].
  simpl in Ht. destruct Ht as (Hs & Hlt & Ht).
  inversion Hlen as [|? ? Hw Hws]; subst. simpl in Hdrop.
  constructor.
  - rewrite Hdrop. by rewrite take_app_length.
  - eapply IH; eauto.
    replace (letterEndIndex w) with (letterStartIndex w + length (tw_word w)) by lia.
    rewrite <- drop_drop, Hdrop. by rewrite drop_app_length.
Qed.

(** Ranges of distinct words do not overlap. *)
Lemma tiles_bounds ws : forall from to,
  tiles from ws to -> from <= to /\
  Forall (fun w => from <= letterStartIndex w /\ letterEndIndex w <= to) ws.
Proof.
  induction ws as [|w ws IH]; intros from to Ht; simpl in Ht.
  - split; [lia|constructor].
  - destruct Ht as (Hs & Hlt & Ht). destruct (IH _ _ Ht) as [Hle Hall].
    split; [lia|]. constructor; [lia|].
    eapply Forall_impl; [exact Hall|]. simpl. lia.
Qed.

Lemma tiles_disjoint ws : forall from to i j a b,
  tiles from ws to -> i < j -> ws !! i = Some a -> ws !! j = Some b ->
  letterEndIndex a <= letterStartIndex b.
Proof.
  induction ws as [|w ws IH]; intros from to i j a b Ht Hij Hi Hj; [done|].
  simpl in Ht. destruct Ht as (Hs & Hlt & Ht).
  destruct j as [|j]; [lia|]. simpl in Hj. destruct i as [|i]; simpl in Hi.
  - injection Hi as <-. destruct (tiles_bounds _ _ _ Ht) as [_ Hall].
    rewrite Forall_forall in Hall. apply Hall.
    eapply list_elem_of_lookup_2; eauto.
  - eapply IH; [exact Ht| |eauto..]. lia.
Qed.

Lemma firstChars_length ws :
  Forall (fun w => tw_word w <> []) ws ->
  length (concat (map firstChar ws)) = length ws.
Proof.
  induction 1 as [|w ws Hw _ IH]; simpl; [reflexivity|].
  rewrite length_app, IH. unfold firstChar. by destruct (tw_word w).
Qed.

Lemma analyze_runs_nonempty title :
  Forall (fun m => snd m <> []) (execAll 0 None title).
Proof. apply execAll_nonempty. done. Qed.

Lemma analyze_words_text title :
  concat (map tw_word (words (analyzeTitleTitle title)))
  = letters (analyzeTitleTitle title).
Proof.
  destruct (analyze_fields title) as (_ & -> & -> & _).
  by rewrite buildWords_text, execAll_text, collectLetters_letters.
Qed.

Lemma analyze_tiles title :
  tiles 0 (words (analyzeTitleTitle title))
        (length (letters (analyzeTitleTitle title))).
Proof.
  rewrite <- analyze_words_text.
  destruct (analyze_fields title) as (_ & _ & -> & _).
  rewrite buildWords_text, toLowerCase_length.
  apply (buildWords_tiles _ 0), analyze_runs_nonempty.
Qed.

Lemma analyze_positions_sorted title :
  StronglySorted lt (letterPositions (analyzeTitleTitle title)).
Proof.
  destruct (analyze_fields title) as (-> & _). apply collectLetters_sorted.
Qed.

Lemma analyze_positions_length title :
  length (letterPositions (analyzeTitleTitle title))
  = length (letters (analyzeTitleTitle title)).
Proof.
  destruct (analyze_fields title) as (-> & -> & _). apply collectLetters_length.
Qed.

(** C9: the record returned by the analyzer satisfies the invariant of
    the data model.  [letterPositions] is strictly increasing and as long
    as [letters]; every word's range has the word's length; the ranges of
    successive words start at 0, follow each other without gap or
    overlap and end at the length of [letters], each naming the slice of
    [letters] that is the word; and [initials] has one character per
    word. *)
Theorem analyzer_invariant (title : jsstring) :
  let ti := analyzeTitleTitle title in
  increasing (letterPositions ti) /\
  length (letterPositions ti) = length (letters ti) /\
  Forall (fun w => letterEndIndex w - letterStartIndex w = length (tw_word w))
         (words ti) /\
  tiles 0 (words ti) (length (letters ti)) /\
  (forall i j a b, i < j -> words ti !! i = Some a -> words ti !! j = Some b ->
                   letterEndIndex a <= letterStartIndex b) /\
  Forall (fun w => take (length (tw_word w)) (drop (letterStartIndex w) (letters ti))
                   = tw_word w) (words ti) /\
  length (initials ti) = length (words ti).
Proof.
  intros ti. subst ti.
  pose proof (analyze_tiles title) as Ht.
  assert (Hlen : Forall (fun w => letterEndIndex w - letterStartIndex w
                                  = length (tw_word w))
                        (words (analyzeTitleTitle title))).
  { destruct (analyze_fields title) as (_ & _ & -> & _). apply buildWords_wordLength. }
  repeat split.
  - apply StronglySorted_lt_increasing, analyze_positions_sorted.
  - apply analyze_positions_length.
  - exact Hlen.
  - exact Ht.
  - intros i j a b. eapply tiles_disjoint; eauto.
  - eapply tiles_slices; eauto. by rewrite analyze_words_text.
  - destruct (analyze_fields title) as (_ & _ & -> & -> & _).
    apply firstChars_length, buildWords_nonempty, analyze_runs_nonempty.
Qed.

(** ** The subsequence matcher *)

Lemma increasing_StronglySorted l : increasing l -> StronglySorted lt l.
Proof.
  induction l as [|x l IH]; intros Hinc; constructor.
  - apply IH. intros i j a b Hij Hi Hj. apply (Hinc (S i) (S j)); auto. lia.
  - apply Forall_forall. intros y Hy.
    apply list_elem_of_lookup_1 in Hy as [j Hj].
    apply (Hinc 0 (S j)); auto. lia.
Qed.

Lemma drop_cons_inv {A} (l : list A) t x rest :
  drop t l = x :: rest -> l !! t = Some x /\ drop (S t) l = rest.
Proof.
  intros H. assert (Hx : l !! t = Some x).
  { rewrite <- (Nat.add_0_r t), <- lookup_drop, H. reflexivity. }
  split; [exact Hx|]. rewrite (drop_S _ _ _ Hx) in H. congruence.
Qed.

Lemma advance_Some ls c : forall rest t k rest',
  rest = drop t ls -> advance c t rest = Some (k, rest') ->
  t <= k /\ ls !! k = Some c /\ rest' = drop (S k) ls /\
  forall j, t <= j < k -> ls !! j <> Some c.
Proof.
  induction rest as [|l rest IH]; intros t k rest' Hrest; simpl; [done|].
  symmetry in Hrest. apply drop_cons_inv in Hrest as [Hl Hd].
  destruct (decide (l = c)) as [->|Hne].
  - intros [= <- <-]. repeat split; auto. intros j ?. lia.
  - intros Hadv. destruct (IH (S t) k rest' (eq_sym Hd) Hadv) as (Hle & Hk & Hr & Hfirst).
    repeat split; auto; [lia|]. intros j Hj.
    destruct (decide (j = t)) as [->|]; [congruence|]. apply Hfirst. lia.
Qed.

Lemma advance_None c : forall rest t, advance c t rest = None -> c ∉ rest.
Proof.
  induction rest as [|l rest IH]; intros t; simpl.
  - intros _. apply not_elem_of_nil.
  - destruct (decide (l = c)); [done|]. intros H%IH.
    rewrite not_elem_of_cons. auto.
Qed.

Lemma advance_sublist c w : forall rest t,
  (c :: w) `sublist_of` rest ->
  exists k rest', advance c t rest = Some (k, rest') /\ w `sublist_of` rest'.
Proof.
  induction rest as [|l rest IH]; intros t Hsub; simpl.
  - by apply sublist_nil_r in Hsub.
  - destruct (decide (l = c)) as [->|Hne].
    + exists t, rest. split; [done|].
      apply sublist_cons_r in Hsub as [Hsub|(w' & [= ->] & Hsub)]; [|done].
      transitivity (c :: w); [by apply sublist_cons|done].
    + apply sublist_cons_r in Hsub as [Hsub|(w' & [= ? ->] & Hsub)]; [|congruence].
      by apply IH.
Qed.

Lemma matchChars_complete lp : forall w rest t,
  w `sublist_of` rest -> is_Some (matchChars lp w t rest).
Proof.
  induction w as [|c w IH]; intros rest t Hsub; simpl; [by eexists|].
  destruct (advance_sublist c w rest t Hsub) as (k & rest' & -> & Hsub').
  destruct (IH rest' (S k) Hsub') as [idxs ->]. by eexists.
Qed.

Lemma advance_split c : forall rest t k rest',
  advance c t rest = Some (k, rest') ->
  exists pre, rest = pre ++ c :: rest'.
Proof.
  induction rest as [|l rest IH]; intros t k rest'; simpl; [done|].
  destruct (decide (l = c)) as [->|Hne].
  - intros [= <- <-]. by exists [].
  - intros (pre & ->)%IH. by exists (l :: pre).
Qed.

Lemma matchChars_sublist lp : forall w rest t idxs,
  matchChars lp w t rest = Some idxs -> w `sublist_of` rest.
Proof.
  induction w as [|c w IH]; intros rest t idxs; simpl.
  - intros _. apply sublist_nil_l.
  - destruct (advance c t rest) as [[k rest']|] eqn:Hadv; [|done].
    destruct (matchChars lp w (S k) rest') as [idxs'|] eqn:Hm; [|done].
    intros _. apply advance_split in Hadv as (pre & ->).
    apply sublist_inserts_l, sublist_skip. eauto.
Qed.

(** The cursor scan: what it pushes, and that no embedding lies to its
    left. *)
Lemma matchChars_leftmost lp ls : forall w t idxs,
  matchChars lp w t (drop t ls) = Some idxs ->
  exists ks, idxs = map (fun k => lp !! k) ks /\
    length ks = length w /\ Forall (le t) ks /\ StronglySorted lt ks /\
    (forall n k, ks !! n = Some k -> exists c, w !! n = Some c /\ ls !! k = Some c) /\
    (forall ks', length ks' = length w -> Forall (le t) ks' ->
       StronglySorted lt ks' ->
       (forall n k, ks' !! n = Some k -> exists c, w !! n = Some c /\ ls !! k = Some c) ->
       Forall2 le ks ks').
Proof.
  induction w as [|c w IH]; intros t idxs; simpl.
  - intros [= <-]. exists []. repeat split; auto; try constructor; try done.
    intros ks' Hlen _ _ _. destruct ks'; [constructor|done].
  - destruct (advance c t (drop t ls)) as [[k rest']|] eqn:Hadv; [|done].
    destruct (advance_Some ls c _ _ _ _ eq_refl Hadv) as (Htk & Hk & -> & Hfirst).
    destruct (matchChars lp w (S k) (drop (S k) ls)) as [idxs'|] eqn:Hm; [|done].
    intros [= <-].
    destruct (IH _ _ Hm) as (ks & -> & Hlen & Hge & Hsort & Hemb & Hleft).
    exists (k :: ks). repeat split; simpl; auto.
    + constructor; [done|]. eapply Forall_impl; [exact Hge|]. simpl. lia.
    + constructor; [done|]. eapply Forall_impl; [exact Hge|]. simpl. lia.
    + intros [|n] k'; simpl; [intros [= <-]; eauto|]. apply Hemb.
    + intros ks' Hlen' Hge' Hsort' Hemb'.
      destruct ks' as [|k' ks']; [done|].
      inversion Hge' as [|? ? Hk' Hge'']; subst.
      inversion Hsort' as [|? ? Hs'' Hlt'']; subst.
      destruct (Hemb' 0 k' eq_refl) as (c' & [= <-] & Hc').
      assert (k <= k').
      { destruct (decide (k <= k')); [done|]. exfalso. apply (Hfirst k'); [lia|done]. }
      constructor; [done|]. apply Hleft; auto.
      * eapply Forall_impl; [exact Hlt''|]. simpl. lia.
      * intros n k''. apply (Hemb' (S n) k'').
Qed.

Lemma findWordInTitle_nil titleInfo : findWordInTitle titleInfo [] = Some [].
Proof. reflexivity. Qed.

(** C1: on an analyzed title, [findWordInTitle] succeeds exactly when the
    lowercased word is a subsequence of [letters], fails when the word
    is longer than [letters], and on success returns, one per character
    and in increasing order, the original-title indices of the leftmost
    embedding: no embedding of the word takes any character earlier. *)
Theorem findWordInTitle_greedy (title candidate : jsstring) :
  let ti := analyzeTitleTitle title in
  let wordLower := toLowerCase candidate in
  (is_Some (findWordInTitle ti candidate) <-> wordLower `sublist_of` letters ti) /\
  (length (letters ti) < length candidate -> findWordInTitle ti candidate = None) /\
  (forall idxs, findWordInTitle ti candidate = Some idxs ->
     length idxs = length candidate /\
     exists ks ps,
       idxs = map Some ps /\ Forall2 (fun k p => letterPositions ti !! k = Some p) ks ps /\
       increasing ps /\
       (forall n p, ps !! n = Some p ->
          exists c, title !! p = Some c /\ wordLower !! n = Some (toLowerChar c)) /\
       embedding ks wordLower (letters ti) /\
       (forall ks', embedding ks' wordLower (letters ti) -> Forall2 le ks ks')).
Proof.
  intros ti wordLower. unfold findWordInTitle. fold wordLower.
  assert (Hwl : length wordLower = length candidate) by apply toLowerCase_length.
  split; [|split].
  - split.
    + intros [idxs H]. destruct (_ <? _); [done|]. eapply matchChars_sublist; eauto.
    + intros Hsub. pose proof (sublist_length _ _ Hsub) as Hlen.
      destruct (Nat.ltb_spec (length (letters ti)) (length wordLower)); [lia|].
      by apply matchChars_complete.
  - intros Hlt. destruct (Nat.ltb_spec (length (letters ti)) (length wordLower)); [done|lia].
  - intros idxs H. destruct (_ <? _); [done|].
    destruct (matchChars_leftmost (letterPositions ti) (letters ti) wordLower 0 idxs H)
      as (ks & -> & Hlen & _ & Hsort & Hemb & Hleft).
    split; [rewrite length_map; lia|].
    assert (Hps : forall k, k ∈ ks -> is_Some (letterPositions ti !! k)).
    { intros k [n Hn]%list_elem_of_lookup_1. destruct (Hemb n k Hn) as (c & _ & Hc).
      apply lookup_lt_is_Some. unfold ti. rewrite analyze_positions_length.
      by eapply lookup_lt_Some. }
    assert (Hex : exists ps, Forall2 (fun k p => letterPositions ti !! k = Some p) ks ps).
    { clear -Hps. induction ks as [|k ks IH]; [by exists []|].
      destruct (Hps k) as [p Hp]; [left|].
      destruct IH as [ps IH]; [intros; apply Hps; by right|].
      exists (p :: ps). by constructor. }
    destruct Hex as [ps Hks]. exists ks, ps.
    assert (Hinc : increasing ks) by by apply StronglySorted_lt_increasing.
    split; [|split; [done|split; [|split; [|split]]]].
    + clear -Hks. induction Hks; simpl; [done|]. congruence.
    + intros i j x y Hij Hi Hj.
      destruct (Forall2_lookup_r _ _ _ _ _ Hks Hi) as (ki & Hki & Hpi).
      destruct (Forall2_lookup_r _ _ _ _ _ Hks Hj) as (kj & Hkj & Hpj).
      pose proof (StronglySorted_lt_increasing _ (analyze_positions_sorted title)) as Hlp.
      eapply (Hlp ki kj); eauto.
    + intros n p Hn.
      destruct (Forall2_lookup_r _ _ _ _ _ Hks Hn) as (k & Hk & Hp).
      destruct (Hemb n k Hk) as (c & Hc & Hl).
      destruct (analyze_fields title) as (Hf1 & Hf2 & _).
      unfold ti in Hp, Hl. rewrite Hf1 in Hp. rewrite Hf2 in Hl.
      destruct (collectLetters_lookup title 0 k p Hp) as (_ & c' & Ht & _ & Hc').
      rewrite Nat.sub_0_r in Ht. exists c'. split; [done|]. congruence.
    + done.
    + intros ks' (Hlen' & Hinc' & Hemb').
      apply Hleft; auto.
      * apply Forall_forall. intros; lia.
      * by apply increasing_StronglySorted.
Qed.

(** ** Sorting and the loops of the searches *)

Lemma insertBy_Permutation {A} (cmp : A -> A -> comparison) x l :
  insertBy cmp x l ≡ₚ x :: l.
Proof.
  induction l as [|y l IH]; simpl; [done|].
  destruct (cmp x y); try done. rewrite IH. apply Permutation_swap.
Qed.

Lemma sortBy_Permutation {A} (cmp : A -> A -> comparison) l : sortBy cmp l ≡ₚ l.
Proof.
  induction l as [|x l IH]; simpl; [done|].
  by rewrite insertBy_Permutation, IH.
Qed.

Lemma elem_of_sortBy {A} (cmp : A -> A -> comparison) l x :
  x ∈ sortBy cmp l <-> x ∈ l.
Proof. by rewrite sortBy_Permutation. Qed.

Lemma elem_of_take_sortBy {A} (cmp : A -> A -> comparison) n l x :
  x ∈ take n (sortBy cmp l) -> x ∈ l.
Proof. intros H. eapply elem_of_sortBy, subseteq_take; eauto. Qed.

Lemma exactLoopA_omap titleInfo minLen term searchLower allWords :
  MatchingA.exactLoop titleInfo minLen term searchLower allWords
  = omap (exactOfA titleInfo minLen term searchLower) allWords.
Proof.
  induction allWords as [|w rest IH]; simpl; [done|].
  unfold exactOfA at 1. rewrite IH.
  repeat (destruct (_ <? _); simpl; try done).
  all: repeat (destruct (negb _); simpl; try done).
  all: by destruct (findWordInTitle titleInfo w).
Qed.

Lemma exactLoopB_omap titleInfo minLen searchLower allWords :
  MatchingB.exactLoop titleInfo minLen searchLower allWords
  = omap (exactOfB titleInfo minLen searchLower) allWords.
Proof.
  induction allWords as [|w rest IH]; simpl; [done|].
  unfold exactOfB at 1. rewrite IH.
  repeat (destruct (_ <? _); simpl; try done).
  all: repeat (destruct (negb _); simpl; try done).
  all: by destruct (findWordInTitle titleInfo w).
Qed.

Lemma exactOfA_Some titleInfo minLen term searchLower w m :
  exactOfA titleInfo minLen term searchLower w = Some m ->
  word m = w /\ minLen <= length w /\ type m = Exact /\
  exists idxs, findWordInTitle titleInfo w = Some idxs /\ indices m = idxs /\
               niceness m = MatchingA.calculateNiceness titleInfo w idxs.
Proof.
  unfold exactOfA. destruct (Nat.ltb_spec (length w) minLen); [done|].
  destruct (_ <? _); [done|]. destruct (_ && _); [done|].
  destruct (findWordInTitle titleInfo w) as [idxs|]; [|done].
  intros [= <-]. simpl. eauto 10.
Qed.

Lemma exactOfB_Some titleInfo minLen searchLower w m :
  exactOfB titleInfo minLen searchLower w = Some m ->
  word m = w /\ minLen <= length w /\ type m = Exact /\
  exists idxs, findWordInTitle titleInfo w = Some idxs /\ indices m = idxs /\
               niceness m = MatchingB.calculateNiceness titleInfo w idxs.
Proof.
  unfold exactOfB. destruct (Nat.ltb_spec (length w) minLen); [done|].
  destruct (_ <? _); [done|]. destruct (_ && _); [done|].
  destruct (findWordInTitle titleInfo w) as [idxs|]; [|done].
  intros [= <-]. simpl. eauto 10.
Qed.

Lemma exactA_elem `{Collator} titleInfo allWords wordSet options m :
  m ∈ exact_ (MatchingA.findAllMatches titleInfo allWords wordSet options) ->
  exists w, w ∈ allWords /\
    exactOfA titleInfo (minLength options) (searchTerm options)
      (toLowerCase (searchTerm options)) w = Some m.
Proof.
  simpl. intros Hm%elem_of_take_sortBy. rewrite exactLoopA_omap in Hm.
  by apply list_elem_of_omap in Hm.
Qed.

Lemma exactB_elem `{Collator} titleInfo allWords wordSet options m :
  m ∈ exact_ (MatchingB.findAllMatches titleInfo allWords wordSet options) ->
  exists w, w ∈ allWords /\
    exactOfB titleInfo (minLength options)
      (toLowerCase (trim (searchTerm options))) w = Some m.
Proof.
  simpl. intros Hm%elem_of_take_sortBy. rewrite exactLoopB_omap in Hm.
  by apply list_elem_of_omap in Hm.
Qed.

Lemma omap_length_le {A B} (f : A -> option B) l : length (omap f l) <= length l.
Proof. induction l as [|x l IH]; csimpl; [done|]. destruct (f x); simpl; lia. Qed.

(** C10: the empty word is found in every title, with no index; a
    minimum length of 1 or more keeps it out of the exact matches of
    either version, and with a minimum length of 0, no search term and
    room in the result list the empty word of a dictionary is returned as
    an exact match. *)
Theorem empty_word_found :
  (forall titleInfo, findWordInTitle titleInfo [] = Some []) /\
  (forall (C : Collator) titleInfo allWords wordSet options m,
     1 <= minLength options ->
     m ∈ exact_ (MatchingA.findAllMatches titleInfo allWords wordSet options) \/
     m ∈ exact_ (MatchingB.findAllMatches titleInfo allWords wordSet options) ->
     word m <> []) /\
  (forall (C : Collator) titleInfo allWords wordSet options,
     minLength options = 0 -> searchTerm options = [] ->
     length allWords <= maxResults options -> [] ∈ allWords ->
     exists m,
       m ∈ exact_ (MatchingB.findAllMatches titleInfo allWords wordSet options) /\
       word m = [] /\ indices m = []).
Proof.
  split; [|split].
  - exact findWordInTitle_nil.
  - intros C titleInfo allWords wordSet options m Hmin [Hm|Hm].
    + apply exactA_elem in Hm as (w & _ & Hw).
      apply exactOfA_Some in Hw as (-> & Hlen & _). destruct w; simpl in *; [lia|done].
    + apply exactB_elem in Hm as (w & _ & Hw).
      apply exactOfB_Some in Hw as (-> & Hlen & _). destruct w; simpl in *; [lia|done].
  - intros C titleInfo allWords wordSet options Hmin Hterm Hroom Hin.
    exists (mkWordMatch [] [] (MatchingB.calculateNiceness titleInfo [] []) Exact None None).
    split; [|done]. simpl. rewrite Hmin, Hterm. simpl.
    rewrite take_ge.
    + apply elem_of_sortBy. rewrite exactLoopB_omap. apply list_elem_of_omap.
      exists []. split; [done|]. reflexivity.
    + rewrite (Permutation_length (sortBy_Permutation _ _)), exactLoopB_omap.
      etrans; [apply omap_length_le|done].
Qed.

(** ** Edit distance *)

Lemma lev_nil_r a : lev a [] = length a.
Proof. by destruct a. Qed.

Lemma rowOf_unfold ra rb b' : rowOf ra rb b' = lev ra rb :: tail (rowOf ra rb b').
Proof. by destruct b'. Qed.

Lemma rowOf_first_row b' : forall rb, rowOf [] rb b' = seq (length rb) (S (length b')).
Proof. induction b' as [|y b' IH]; intros rb; simpl; [done|]. by rewrite IH. Qed.

Lemma rowOf_initial b : seq 0 (length b + 1) = rowOf [] [] b.
Proof. by rewrite Nat.add_1_r, rowOf_first_row. Qed.

Lemma rowOf_length ra b' : forall rb, length (rowOf ra rb b') = S (length b').
Proof. induction b' as [|y b' IH]; intros rb; simpl; [done|]. by rewrite IH. Qed.

Lemma rowOf_last ra b' : forall rb,
  rowOf ra rb b' !! length b' = Some (lev ra (rev b' ++ rb)).
Proof.
  induction b' as [|y b' IH]; intros rb; simpl; [done|].
  by rewrite IH, <- app_assoc.
Qed.

Lemma fillRow_rowOf c ra b' : forall rb,
  MatchingA.fillRow c b' (rowOf ra rb b') (lev (c :: ra) rb)
  = tail (rowOf (c :: ra) rb b').
Proof.
  induction b' as [|y b' IH]; intros rb; [done|].
  change (rowOf ra rb (y :: b')) with (lev ra rb :: rowOf ra (y :: rb) b').
  change (tail (rowOf (c :: ra) rb (y :: b'))) with (rowOf (c :: ra) (y :: rb) b').
  rewrite (rowOf_unfold ra (y :: rb) b'), (rowOf_unfold (c :: ra) (y :: rb) b').
  cbn [MatchingA.fillRow]. rewrite <- (rowOf_unfold ra (y :: rb) b').
  assert (Hv : (if decide (c = y) then lev ra rb
                else 1 + Nat.min (Nat.min (lev ra rb) (lev ra (y :: rb))) (lev (c :: ra) rb))
               = lev (c :: ra) (y :: rb)) by reflexivity.
  rewrite Hv. f_equal. apply IH.
Qed.

Lemma rowsFrom_rowOf b a : forall ra,
  MatchingA.rowsFrom (S (length ra)) a b (rowOf ra [] b) = rowOf (rev a ++ ra) [] b.
Proof.
  induction a as [|c a IH]; intros ra; simpl; [done|].
  rewrite <- app_assoc. simpl. rewrite <- (IH (c :: ra)). simpl. f_equal.
  rewrite (rowOf_unfold (c :: ra) [] b). f_equal.
  apply (fillRow_rowOf c ra b []).
Qed.

Lemma rowsFrom_final a b :
  MatchingA.rowsFrom 1 a b (seq 0 (length b + 1)) = rowOf (rev a) [] b.
Proof.
  rewrite rowOf_initial. pose proof (rowsFrom_rowOf b a []) as H. simpl in H.
  by rewrite app_nil_r in H.
Qed.

Lemma rowsFrom_length a b :
  length (MatchingA.rowsFrom 1 a b (seq 0 (length b + 1))) = length b + 1.
Proof.
  rewrite rowsFrom_final, rowOf_length. lia.
Qed.

(** The table holds the recurrence [lev] on the reversed strings. *)
Lemma editDistance_lev a b : MatchingA.editDistance a b = lev (rev a) (rev b).
Proof.
  unfold MatchingA.editDistance.
  rewrite rowsFrom_final, rowOf_last. by rewrite app_nil_r.
Qed.

Lemma lev_sym a : forall b, lev a b = lev b a.
Proof.
  induction a as [|x a IHa]; intros b.
  - by rewrite lev_nil_r.
  - induction b as [|y b IHb]; [done|].
    change (lev (x :: a) (y :: b))
      with (if decide (x = y) then lev a b
            else 1 + Nat.min (Nat.min (lev a b) (lev a (y :: b))) (lev (x :: a) b)).
    change (lev (y :: b) (x :: a))
      with (if decide (y = x) then lev b a
            else 1 + Nat.min (Nat.min (lev b a) (lev b (x :: a))) (lev (y :: b) a)).
    rewrite IHb, (IHa b), (IHa (y :: b)).
    destruct (decide (x = y)), (decide (y = x)); try congruence. lia.
Qed.

Lemma lev_refl a : lev a a = 0.
Proof.
  induction a as [|x a IH]; [done|]. simpl. by rewrite decide_True.
Qed.

(** C8: the edit distance is symmetric, is 0 between a string and itself
    and is the length of a string against the empty string. *)
Theorem editDistance_equations (a b : jsstring) :
  MatchingA.editDistance a b = MatchingA.editDistance b a /\
  MatchingA.editDistance a a = 0 /\
  MatchingA.editDistance a [] = length a.
Proof.
  rewrite !editDistance_lev. split; [apply lev_sym|]. split; [apply lev_refl|].
  simpl. by rewrite lev_nil_r, length_rev.
Qed.

Example editDistance_kitten :
  MatchingA.editDistance (str "kitten") (str "sitting") = 3.
Proof. reflexivity. Qed.

(** ** Near matches *)

Lemma nearLoop_elem titleInfo maxEditDistance maxRes m : forall allWords results,
  m ∈ MatchingA.nearLoop titleInfo (toLowerCase (initials titleInfo))
        maxEditDistance maxRes allWords results ->
  m ∈ results \/ (isNearMatch titleInfo maxEditDistance m /\ word m ∈ allWords).
Proof.
  induction allWords as [|w rest IH]; intros results; simpl; [auto|].
  assert (Hnext : forall rs,
    m ∈ MatchingA.nearLoop titleInfo (toLowerCase (initials titleInfo))
          maxEditDistance maxRes rest rs ->
    m ∈ rs \/ (isNearMatch titleInfo maxEditDistance m /\ word m ∈ w :: rest)).
  { intros rs [?|[? ?]]%IH; [by left|right]. split; [done|by right]. }
  destruct (_ || _); [apply Hnext|].
  set (d := MatchingA.editDistance (toLowerCase w) (toLowerCase (initials titleInfo))).
  destruct (Nat.ltb_spec 0 d) as [Hpos|]; simpl.
  2:{ destruct (_ <=? _); [auto|apply Hnext]. }
  destruct (Nat.leb_spec d maxEditDistance) as [Hle|]; simpl.
  2:{ destruct (_ <=? _); [auto|apply Hnext]. }
  destruct (findWordInTitle titleInfo w) as [idxs|] eqn:Hfind; [apply Hnext|].
  match goal with |- context [results ++ [?r]] => set (new := r) end.
  assert (Hnew : isNearMatch titleInfo maxEditDistance new /\ word new ∈ w :: rest).
  { split; [|by left]. split; [done|]. split; [|done]. exists d. by repeat split. }
  assert (Hin : m ∈ results ++ [new] ->
    m ∈ results \/ (isNearMatch titleInfo maxEditDistance m /\ word m ∈ w :: rest)).
  { intros [?|Hx]%elem_of_app; [auto|].
    apply list_elem_of_singleton in Hx as ->. auto. }
  destruct (_ <=? _); [exact Hin|].
  intros [?|?]%Hnext; auto.
Qed.

Lemma findNearMatches_elem titleInfo allWords maxEditDistance maxRes m :
  m ∈ MatchingA.findNearMatches titleInfo allWords maxEditDistance maxRes ->
  isNearMatch titleInfo maxEditDistance m /\ word m ∈ allWords.
Proof.
  unfold MatchingA.findNearMatches. destruct (_ <? _); [by intros ?%elem_of_nil|].
  intros Hm%elem_of_take_sortBy.
  apply nearLoop_elem in Hm as [Hm%elem_of_nil|Hm]; done.
Qed.

(** C6: every near match returned by [findNearMatches] records an edit
    distance, between its lowercased word and the lowercased initials,
    of at least 1 and at most [maxEditDistance], and its word is not
    found in the title; [findAllMatches] calls it with the distance 2,
    and there no near match has the word of an exact match. *)
Theorem near_matches_exclusive :
  (forall titleInfo allWords maxEditDistance maxRes m,
     m ∈ MatchingA.findNearMatches titleInfo allWords maxEditDistance maxRes ->
     isNearMatch titleInfo maxEditDistance m) /\
  (forall (C : Collator) titleInfo allWords wordSet options m,
     m ∈ near_ (MatchingA.findAllMatches titleInfo allWords wordSet options) ->
     isNearMatch titleInfo 2 m /\
     forall e,
       e ∈ exact_ (MatchingA.findAllMatches titleInfo allWords wordSet options) ->
       word e <> word m).
Proof.
  split.
  - intros. by eapply findNearMatches_elem.
  - intros C titleInfo allWords wordSet options m Hm.
    assert (Hnear : isNearMatch titleInfo 2 m).
    { simpl in Hm. destruct (includeNearMatches options); [|by apply elem_of_nil in Hm].
      by eapply findNearMatches_elem. }
    split; [done|]. intros e He Heq.
    apply exactA_elem in He as (w & _ & Hw).
    apply exactOfA_Some in Hw as (Hword & _ & _ & idxs & Hfind & _).
    destruct Hnear as (_ & _ & Hnone). congruence.
Qed.

(** ** Niceness is a finite number *)

Lemma finite_isFin x : finite x <-> exists q, isFin x q.
Proof.
  split.
  - intros [q ->]. exists q. simpl. reflexivity.
  - intros [q H]. destruct x; try done. by eexists.
Qed.

Lemma nadd_finite x y : finite x -> finite y -> finite (nadd x y).
Proof. intros [a ->] [b ->]. by eexists. Qed.

Lemma nsub_finite x y : finite x -> finite y -> finite (nsub x y).
Proof. intros [a ->] [b ->]. by eexists. Qed.

Lemma nmul_finite x y : finite x -> finite y -> finite (nmul x y).
Proof. intros [a ->] [b ->]. by eexists. Qed.

Lemma nmin_finite x y : finite x -> finite y -> finite (nmin x y).
Proof. intros [a ->] [b ->]. simpl. destruct (Qle_bool a b); by eexists. Qed.

Lemma nround_finite x : finite x -> finite (nround x).
Proof. intros [a ->]. by eexists. Qed.

Lemma qsign_pos z : (0 < z)%Z -> qsign (inject_Z z) = Gt.
Proof. intros H. unfold qsign. simpl. by apply Z.compare_gt_iff. Qed.

Lemma ndiv_ofZ_pos a z : (0 < z)%Z -> ndiv (Fin a) (ofZ z) = Fin (a / inject_Z z).
Proof. intros H. unfold ofZ. simpl. by rewrite qsign_pos. Qed.

Lemma ndiv_ofNat_pos a n : 0 < n -> ndiv (Fin a) (ofNat n) = Fin (a / inject_Z (Z.of_nat n)).
Proof. intros H. apply ndiv_ofZ_pos. lia. Qed.

Lemma ndiv_finite_pos x z : finite x -> (0 < z)%Z -> finite (ndiv x (ofZ z)).
Proof. intros [a ->] H. rewrite ndiv_ofZ_pos by done. by eexists. Qed.

Lemma ndiv_ofNat_finite m n : 0 < n -> finite (ndiv (ofNat m) (ofNat n)).
Proof. intros H. unfold ofNat at 1. rewrite ndiv_ofNat_pos by done. by eexists. Qed.

Lemma round2_Fin q : round2 (Fin q) = Fin (inject_Z (Qfloor (q * 100 + (1 # 2))) / 100).
Proof. reflexivity. Qed.

Lemma round2_finite x : finite x -> finite (round2 x).
Proof. intros [a ->]. rewrite round2_Fin. by eexists. Qed.

Lemma lengthBonus_finite n : finite (lengthBonus n).
Proof.
  unfold lengthBonus. apply nmul_finite; [|by eexists].
  apply nmin_finite; by eexists.
Qed.

Lemma startLetterScoreB_finite titleInfo letterIndices :
  finite (MatchingB.startLetterScore titleInfo letterIndices).
Proof.
  unfold MatchingB.startLetterScore.
  assert (H : finite (Fin 0)) by by eexists. revert H. generalize (Fin 0).
  induction letterIndices as [|i l IH]; intros acc Hacc; cbn [foldl]; [done|].
  apply IH. destruct (findTitleWord 0 (words titleInfo) i) as [[wi tw]|]; [|done].
  cbv zeta. apply nadd_finite; [done|]. apply nsub_finite; [by eexists|].
  apply ndiv_finite_pos; [by eexists|lia].
Qed.

Lemma firstLetterBonus_finite titleInfo letterIndices :
  finite (MatchingB.firstLetterBonus titleInfo letterIndices).
Proof.
  unfold MatchingB.firstLetterBonus. destruct (words titleInfo); [by eexists|].
  destruct (bool_decide _); by eexists.
Qed.

Lemma wordCoverageTerm_finite titleInfo letterIndices :
  finite (MatchingB.wordCoverageTerm titleInfo letterIndices).
Proof.
  unfold MatchingB.wordCoverageTerm. apply nmul_finite; [|by eexists].
  destruct (Nat.ltb_spec 0 (length (words titleInfo))); [|by eexists].
  by apply ndiv_ofNat_finite.
Qed.

Lemma startLetterTerm_finite titleInfo wordLen letterIndices :
  finite (MatchingB.startLetterTerm titleInfo wordLen letterIndices).
Proof.
  unfold MatchingB.startLetterTerm. apply nmul_finite; [|by eexists].
  apply ndiv_finite_pos; [apply startLetterScoreB_finite|lia].
Qed.

Lemma initialsTerm_finite titleInfo w : finite (MatchingB.initialsTerm titleInfo w).
Proof.
  unfold MatchingB.initialsTerm. destruct (0 <? _); cbn [andb]; [|by eexists].
  destruct (Nat.ltb_spec 0 (length (initials titleInfo))); [|by eexists].
  apply nmul_finite; [|by eexists]. by apply ndiv_ofNat_finite.
Qed.

Lemma calculateNicenessB_finite titleInfo w idxs :
  finite (MatchingB.calculateNiceness titleInfo w idxs).
Proof.
  unfold MatchingB.calculateNiceness.
  apply round2_finite. repeat apply nadd_finite.
  - by eexists.
  - apply firstLetterBonus_finite.
  - apply wordCoverageTerm_finite.
  - apply startLetterTerm_finite.
  - apply initialsTerm_finite.
  - apply lengthBonus_finite.
Qed.

(** The unguarded version returns NaN for the empty word. *)
Example calculateNicenessA_empty_word :
  MatchingA.calculateNiceness (analyzeTitleTitle (str "ab")) [] [] = NaN.
Proof. reflexivity. Qed.

Lemma matchChars_length lp : forall w t rest idxs,
  matchChars lp w t rest = Some idxs -> length idxs = length w.
Proof.
  induction w as [|c w IH]; intros t rest idxs; simpl; [by intros [= <-]|].
  destruct (advance c t rest) as [[k rest']|]; [|done].
  destruct (matchChars lp w (S k) rest') as [idxs'|] eqn:Hm; [|done].
  intros [= <-]. simpl. f_equal. by eapply IH.
Qed.

Lemma findWordInTitle_indices_length titleInfo w idxs :
  findWordInTitle titleInfo w = Some idxs -> length idxs = length w.
Proof.
  unfold findWordInTitle. destruct (_ <? _); [done|].
  intros H%matchChars_length. by rewrite toLowerCase_length in H.
Qed.

(** C7: the guarded [calculateNiceness] returns a finite number on every
    input, never NaN.  With no title word the coverage term is 0; with
    no initials the initials term is 0; for the empty word the length
    term is 0, the start-letter division is by [Math.max(0, 1)], so that
    its term is 30 times the position sum, and that term is 0, the index
    list holding no more indices than the word has characters, as every
    list that the matcher returns does. *)
Theorem calculateNiceness_guards (titleInfo : TitleInfo) (w : jsstring)
    (idxs : list (option nat)) :
  finite (MatchingB.calculateNiceness titleInfo w idxs) /\
  (words titleInfo = [] ->
   isFin (MatchingB.wordCoverageTerm titleInfo (MatchingB.letterIndicesOf titleInfo idxs)) 0) /\
  (initials titleInfo = [] -> isFin (MatchingB.initialsTerm titleInfo w) 0) /\
  (w = [] -> isFin (lengthBonus (length w)) 0) /\
  (w = [] ->
   exists q, MatchingB.startLetterScore titleInfo
               (MatchingB.letterIndicesOf titleInfo idxs) = Fin q /\
     isFin (MatchingB.startLetterTerm titleInfo (length w)
              (MatchingB.letterIndicesOf titleInfo idxs)) (30 * q)) /\
  (w = [] -> length idxs <= length w ->
   isFin (MatchingB.startLetterTerm titleInfo (length w)
            (MatchingB.letterIndicesOf titleInfo idxs)) 0) /\
  (findWordInTitle titleInfo w = Some idxs -> length idxs = length w).
Proof.
  split; [apply calculateNicenessB_finite|].
  split; [|split; [|split; [|split; [|split]]]].
  - intros Hw. unfold MatchingB.wordCoverageTerm. rewrite Hw. simpl. reflexivity.
  - intros Hi. unfold MatchingB.initialsTerm. rewrite Hi. simpl.
    rewrite andb_false_r. simpl. reflexivity.
  - intros ->. vm_compute. reflexivity.
  - intros ->.
    destruct (startLetterScoreB_finite titleInfo
                (MatchingB.letterIndicesOf titleInfo idxs)) as [q Hq].
    exists q. split; [exact Hq|].
    unfold MatchingB.startLetterTerm. rewrite Hq.
    rewrite ndiv_ofNat_pos by (simpl; lia). cbn [nmul isFin].
    change (inject_Z (Z.of_nat (Nat.max (length (@nil ascii)) 1))) with 1%Q.
    field.
  - intros -> Hlen. destruct idxs; [|simpl in Hlen; lia].
    unfold MatchingB.startLetterTerm.
    change (MatchingB.startLetterScore titleInfo (MatchingB.letterIndicesOf titleInfo []))
      with (Fin 0).
    rewrite ndiv_ofNat_pos by (simpl; lia). cbn [nmul isFin].
    unfold Qdiv. by rewrite !Qmult_0_l.
  - apply findWordInTitle_indices_length.
Qed.

(** The condition on the index list is needed: with the title [ab], the
    empty word and the index 0, which no call passes, the start-letter
    term is 30. *)
Example startLetterTerm_long_index_list :
  MatchingB.startLetterTerm (analyzeTitleTitle (str "ab")) 0
    (MatchingB.letterIndicesOf (analyzeTitleTitle (str "ab")) [Some 0])
  = Fin 30.
Proof. vm_compute. reflexivity. Qed.

(** The same edge cases in binary64: the empty word in a title, and a
    word against a title without letters, score 0 and 1. *)
Example calculateNiceness64_empty_word :
  Binary64.calculateNiceness (analyzeTitleTitle (str "ab")) [] [] = 0%float.
Proof. vm_compute. reflexivity. Qed.

Example calculateNiceness64_no_title_word :
  Binary64.calculateNiceness (analyzeTitleTitle (str "42")) (str "a") [] = 1%float.
Proof. vm_compute. reflexivity. Qed.

(** ** Generated compounds *)

Section generated.
Context (titleInfo : TitleInfo) (wordSet : gset jsstring)
        (searchLower : jsstring) (minWordLength maxCandidates : nat).

Lemma innerLoop_elem i first m : forall seconds j st,
  m ∈ fst (MatchingB.innerLoop titleInfo wordSet searchLower minWordLength
             maxCandidates i first j seconds st) ->
  m ∈ fst st \/ isGenerated titleInfo wordSet m.
Proof.
  induction seconds as [|second seconds IH]; intros j [compounds seen];
    cbn [MatchingB.innerLoop]; [auto|].
  destruct (decide (i = j)); [apply IH|].
  destruct (_ <? _); [apply IH|]. destruct (_ <? _); [apply IH|].
  destruct (_ && _); [apply IH|].
  destruct (bool_decide_reflect (word first ++ word second ∈ wordSet)) as [|Hnew];
    [apply IH|].
  destruct (bool_decide _); [apply IH|].
  destruct (findWordInTitle titleInfo (word first ++ word second)) as [idxs|] eqn:Hfind;
    [|apply IH].
  cbv zeta.
  match goal with |- context [compounds ++ [?r]] => set (new := r) end.
  assert (Hnew' : isGenerated titleInfo wordSet new).
  { repeat split; try done. by exists (word first), (word second). }
  assert (Hin : m ∈ compounds ++ [new] ->
                m ∈ compounds \/ isGenerated titleInfo wordSet m).
  { intros [?|Hx]%elem_of_app; [auto|].
    apply list_elem_of_singleton in Hx as ->. auto. }
  destruct (_ <=? _); [exact Hin|].
  intros [?|?]%IH; auto.
Qed.

Lemma outerLoop_elem pool m : forall firsts i st,
  m ∈ fst (MatchingB.outerLoop titleInfo wordSet searchLower minWordLength
             maxCandidates pool i firsts st) ->
  m ∈ fst st \/ isGenerated titleInfo wordSet m.
Proof.
  induction firsts as [|first firsts IH]; intros i st;
    cbn [MatchingB.outerLoop]; [auto|].
  cbv zeta. destruct (_ <=? _).
  - apply innerLoop_elem.
  - intros [H|?]%IH; [|auto]. by apply innerLoop_elem in H.
Qed.
End generated.

Lemma generateCompoundMatches_elem `{Collator} titleInfo exactMatches wordSet
    searchLower minWordLength maxRes minComponentLength poolSize m :
  m ∈ MatchingB.generateCompoundMatches titleInfo exactMatches wordSet searchLower
        minWordLength maxRes minComponentLength poolSize ->
  isGenerated titleInfo wordSet m.
Proof.
  unfold MatchingB.generateCompoundMatches.
  destruct (_ <=? _); [by intros ?%elem_of_nil|].
  destruct (_ <? _); [by intros ?%elem_of_nil|].
  intros Hm%elem_of_take_sortBy.
  apply outerLoop_elem in Hm as [Hm%elem_of_nil|Hm]; done.
Qed.

Lemma compoundB_elem `{Collator} titleInfo allWords wordSet options m :
  m ∈ compound_ (MatchingB.findAllMatches titleInfo allWords wordSet options) ->
  isGenerated titleInfo wordSet m.
Proof.
  simpl. destruct (includeCompounds options); [|by intros ?%elem_of_nil].
  intros [_ Hm]%list_elem_of_filter. by eapply generateCompoundMatches_elem.
Qed.

Lemma returnedCompound_generated `{Collator} titleInfo allWords wordSet options m :
  returnedCompound (MatchingB.findAllMatches titleInfo allWords wordSet options) m ->
  isGenerated titleInfo wordSet m.
Proof.
  intros [[Hm|[Hm|Hm]] Hty].
  - apply exactB_elem in Hm as (w & _ & Hw).
    apply exactOfB_Some in Hw as (_ & _ & Hty' & _). congruence.
  - by eapply compoundB_elem.
  - by apply elem_of_nil in Hm.
Qed.

Lemma elem_of_buildWordSet w allWords :
  w ∈ allWords -> toLowerCase w ∈ buildWordSet allWords.
Proof.
  intros Hw. unfold buildWordSet. apply elem_of_list_to_set.
  apply list_elem_of_fmap. by exists w.
Qed.

(** C4: no compound returned by a search is a member of the supplied
    membership set; when that set was built from a dictionary of
    lowercase words, no compound is a word of the dictionary. *)
Theorem compounds_are_fabricated (C : Collator) (titleInfo : TitleInfo)
    (allWords : list jsstring) (wordSet : gset jsstring) (options : Options)
    (m : WordMatch) :
  returnedCompound (MatchingB.findAllMatches titleInfo allWords wordSet options) m ->
  (word m ∉ wordSet) /\
  (wordSet = buildWordSet allWords ->
   Forall (fun w => toLowerCase w = w) allWords ->
   word m ∉ allWords).
Proof.
  intros (_ & Hnot & _)%returnedCompound_generated. split; [done|].
  intros -> Hlower Hin. apply Hnot.
  rewrite Forall_forall in Hlower. rewrite <- (Hlower _ Hin).
  by apply elem_of_buildWordSet.
Qed.

(** ** Generated compounds in binary64 *)

Section generated64.
Context (titleInfo : TitleInfo) (wordSet : gset jsstring)
        (searchLower : jsstring) (minWordLength maxCandidates : nat).

Lemma innerLoop64_elem i first m : forall seconds j st,
  m ∈ fst (Binary64.innerLoop titleInfo wordSet searchLower minWordLength
             maxCandidates i first j seconds st) ->
  m ∈ fst st \/ isGenerated64 titleInfo wordSet m.
Proof.
  induction seconds as [|second seconds IH]; intros j [compounds seen];
    cbn [Binary64.innerLoop]; [auto|].
  destruct (decide (i = j)); [apply IH|].
  destruct (_ <? _); [apply IH|]. destruct (_ <? _); [apply IH|].
  destruct (_ && _); [apply IH|].
  destruct (bool_decide_reflect
              (Binary64.word first ++ Binary64.word second ∈ wordSet)) as [|Hnew];
    [apply IH|].
  destruct (bool_decide _); [apply IH|].
  destruct (findWordInTitle titleInfo (Binary64.word first ++ Binary64.word second))
    as [idxs|] eqn:Hfind; [|apply IH].
  cbv zeta.
  match goal with |- context [compounds ++ [?r]] => set (new := r) end.
  assert (Hnew' : isGenerated64 titleInfo wordSet new).
  { repeat split; try done.
    by exists (Binary64.word first), (Binary64.word second). }
  assert (Hin : m ∈ compounds ++ [new] ->
                m ∈ compounds \/ isGenerated64 titleInfo wordSet m).
  { intros [?|Hx]%elem_of_app; [auto|].
    apply list_elem_of_singleton in Hx as ->. auto. }
  destruct (_ <=? _); [exact Hin|].
  intros [?|?]%IH; auto.
Qed.

Lemma outerLoop64_elem pool m : forall firsts i st,
  m ∈ fst (Binary64.outerLoop titleInfo wordSet searchLower minWordLength
             maxCandidates pool i firsts st) ->
  m ∈ fst st \/ isGenerated64 titleInfo wordSet m.
Proof.
  induction firsts as [|first firsts IH]; intros i st;
    cbn [Binary64.outerLoop]; [auto|].
  cbv zeta. destruct (_ <=? _).
  - apply innerLoop64_elem.
  - intros [H|?]%IH; [|auto]. by apply innerLoop64_elem in H.
Qed.
End generated64.

Lemma generateCompoundMatches64_elem `{Collator} titleInfo exactMatches wordSet
    searchLower minWordLength maxRes minComponentLength poolSize m :
  m ∈ Binary64.generateCompoundMatches titleInfo exactMatches wordSet searchLower
        minWordLength maxRes minComponentLength poolSize ->
  isGenerated64 titleInfo wordSet m.
Proof.
  unfold Binary64.generateCompoundMatches.
  destruct (_ <=? _); [by intros ?%elem_of_nil|].
  destruct (_ <? _); [by intros ?%elem_of_nil|].
  intros Hm%elem_of_take_sortBy.
  apply outerLoop64_elem in Hm as [Hm%elem_of_nil|Hm]; done.
Qed.

Lemma exactLoop64_type titleInfo minLen searchLower m : forall allWords,
  m ∈ Binary64.exactLoop titleInfo minLen searchLower allWords ->
  Binary64.type m = Exact.
Proof.
  induction allWords as [|w rest IH]; cbn [Binary64.exactLoop];
    [by intros ?%elem_of_nil|].
  cbv zeta. destruct (_ <? _); [done|]. destruct (_ <? _); [done|].
  destruct (_ && _); [done|].
  destruct (findWordInTitle titleInfo w) as [idxs|]; [|done].
  intros [->|?]%elem_of_cons; [done|auto].
Qed.

Lemma returnedCompound64_generated `{Collator} titleInfo allWords wordSet options m :
  returnedCompound64 (Binary64.findAllMatches titleInfo allWords wordSet options) m ->
  isGenerated64 titleInfo wordSet m.
Proof.
  intros [[Hm|Hm] Hty]; cbn [Binary64.exact_ Binary64.compound_
                              Binary64.findAllMatches] in Hm; cbv zeta in Hm.
  - apply elem_of_take_sortBy, exactLoop64_type in Hm. congruence.
  - destruct (includeCompounds options); [|by apply elem_of_nil in Hm].
    apply list_elem_of_filter in Hm as [_ Hm].
    by eapply generateCompoundMatches64_elem.
Qed.

(** C5: the niceness of every compound returned by a search is that of
    its word with the indices found for it, times 0.9, rounded to two
    decimals; all of it in binary64, as the program computes it. *)
Theorem compound_niceness_penalty (C : Collator) (titleInfo : TitleInfo)
    (allWords : list jsstring) (wordSet : gset jsstring) (options : Options)
    (m : Binary64.WordMatch) :
  returnedCompound64 (Binary64.findAllMatches titleInfo allWords wordSet options) m ->
  findWordInTitle titleInfo (Binary64.word m) = Some (Binary64.indices m) /\
  Binary64.niceness m
  = (Binary64.round
       (Binary64.calculateNiceness titleInfo (Binary64.word m) (Binary64.indices m)
        * 0.9 * 100) / 100)%float.
Proof.
  intros (_ & _ & Hfind & Hnice & _)%returnedCompound64_generated. done.
Qed.

(** A niceness of 83.55 gives a compound the niceness 75.19: the
    binary64 product with 0.9 and then with 100 lies just below 7519.5. *)
Example compound_niceness_penalty_value :
  (Binary64.round (83.55 * 0.9 * 100) / 100 = 75.19)%float.
Proof. vm_compute. reflexivity. Qed.

(** The earlier [findCompoundWords] does the opposite: it looks for
    dictionary words that split in two (and scales their niceness by
    0.8 without rounding again). *)
Example findCompoundWords_dictionary_word :
  let dict := [str "catdog"; str "cat"; str "dog"] in
  map (fun m => (word m, components m))
      (MatchingA.findCompoundWords (analyzeTitleTitle (str "Cat Dog"))
         (buildWordSet dict) dict 3 50)
  = [(str "catdog", Some [str "cat"; str "dog"])].
Proof. vm_compute. reflexivity. Qed.

(** ** The order of the exact matches *)

Lemma qsign_Gt x : qsign x = Gt <-> (0 < x)%Q.
Proof.
  unfold qsign, Qlt. simpl. rewrite Z.mul_1_r. apply Z.compare_gt_iff.
Qed.

Lemma sortBy_sorted {A} (cmp : A -> A -> comparison) (P : A -> Prop) l :
  (forall a b, P a -> P b -> cmp a b = Gt -> cmp b a <> Gt) ->
  (forall a b c, P a -> P b -> P c ->
     cmp a b <> Gt -> cmp b c <> Gt -> cmp a c <> Gt) ->
  Forall P l ->
  StronglySorted (fun a b => cmp a b <> Gt) (sortBy cmp l).
Proof.
  intros Htotal Htrans. induction 1 as [|x l Hx Hl IH]; simpl; [constructor|].
  assert (HP : Forall P (sortBy cmp l)) by by rewrite sortBy_Permutation.
  revert IH HP. generalize (sortBy cmp l). clear l Hl.
  induction l as [|y l IHl]; intros Hs HP; simpl.
  - repeat constructor.
  - inversion Hs as [|? ? Hs' Hy]; subst. inversion HP as [|? ? Py HP']; subst.
    destruct (cmp x y) eqn:Hxy.
    + constructor; [done|]. constructor; [congruence|].
      rewrite Forall_forall in Hy, HP'. apply Forall_forall. intros z Hz.
      apply (Htrans x y z); auto. congruence.
    + constructor; [done|]. constructor; [congruence|].
      rewrite Forall_forall in Hy, HP'. apply Forall_forall. intros z Hz.
      apply (Htrans x y z); auto. congruence.
    + constructor; [by apply IHl|].
      rewrite insertBy_Permutation. constructor; [by apply Htotal|done].
Qed.

Section ranking.
Context `{ord : CollatorOrder}.

Lemma collate_refl a : localeCompare a a = Eq.
Proof.
  pose proof (collate_anti a a) as H. destruct (localeCompare a a); done.
Qed.

Lemma compareMatches_outranks a b :
  finite (niceness a) -> finite (niceness b) ->
  compareMatches a b <> Gt <-> outranks a b.
Proof.
  intros [p Hp] [q Hq]. unfold compareMatches, outranks. rewrite Hp, Hq.
  cbn [nneq nsub nopp nadd signOf].
  destruct (Qeq_bool q p) eqn:Hqp; cbn [negb].
  - apply Qeq_bool_eq in Hqp.
    destruct (Nat.eqb_spec (length (word b)) (length (word a))) as [Hlen|Hlen]; cbn [negb].
    + split.
      * intros Hc. exists p, q. repeat split; try done. right. split; [lra|]. right. done.
      * intros (p' & q' & [= <-] & [= <-] & [Hlt|[_ [Hl|[_ Hc]]]]); [lra|lia|done].
    + split.
      * intros Hc. exists p, q. repeat split; try done. right. split; [lra|]. left.
        rewrite Nat.compare_gt_iff in Hc. lia.
      * intros (p' & q' & [= <-] & [= <-] & [Hlt|[_ [Hl|[Hl _]]]]); [lra| |lia].
        rewrite Nat.compare_gt_iff. lia.
  - apply Qeq_bool_neq in Hqp. rewrite qsign_Gt. split.
    + intros Hc. exists p, q. repeat split; try done. left.
      destruct (Qlt_le_dec q p) as [|Hle]; [done|]. exfalso.
      apply Hc. apply Qle_lteq in Hle as [Hlt|Heq]; [lra|]. exfalso. apply Hqp. lra.
    + intros (p' & q' & [= <-] & [= <-] & [Hlt|[Heq _]]); [lra|]. exfalso. apply Hqp. lra.
Qed.

Lemma outranks_total a b :
  finite (niceness a) -> finite (niceness b) -> outranks a b \/ outranks b a.
Proof.
  intros [p Hp] [q Hq]. unfold outranks.
  destruct (Q_dec p q) as [[Hlt|Hgt]|Heq].
  - right. exists q, p. auto.
  - left. exists p, q. auto.
  - destruct (Nat.lt_total (length (word a)) (length (word b))) as [Hl|[Hl|Hl]].
    + right. exists q, p. repeat split; try done. right. split; [lra|]. auto.
    + pose proof (collate_anti (word a) (word b)) as Hanti.
      destruct (localeCompare (word a) (word b)) eqn:Hc.
      * left. exists p, q. repeat split; try done. right. split; [done|]. right.
        split; [done|]. congruence.
      * left. exists p, q. repeat split; try done. right. split; [done|]. right.
        split; [done|]. congruence.
      * right. exists q, p. repeat split; try done. right. split; [lra|]. right.
        split; [done|]. rewrite Hanti. done.
    + left. exists p, q. repeat split; try done. right. split; [done|]. auto.
Qed.

Lemma outranks_trans a b c : outranks a b -> outranks b c -> outranks a c.
Proof.
  intros (p & q & Hp & Hq & Hab) (q' & r & Hq' & Hr & Hbc).
  rewrite Hq in Hq'. injection Hq' as <-.
  exists p, r. repeat split; try done.
  destruct Hab as [Hab|[Hpq Hab]], Hbc as [Hbc|[Hqr Hbc]].
  - left. lra.
  - left. lra.
  - left. lra.
  - right. split; [lra|].
    destruct Hab as [Hab|[Hlab Hab]], Hbc as [Hbc|[Hlbc Hbc]].
    + left. lia.
    + left. lia.
    + left. lia.
    + right. split; [lia|]. by eapply collate_trans.
Qed.

(** Two records that outrank each other have the same word. *)
Lemma outranks_antisym a b : outranks a b -> outranks b a -> word a = word b.
Proof.
  intros (p & q & Hp & Hq & Hab) (q' & p' & Hq' & Hp' & Hba).
  rewrite Hq in Hq'. injection Hq' as <-. rewrite Hp in Hp'. injection Hp' as <-.
  destruct Hab as [Hab|[Hpq Hab]], Hba as [Hba|[Hqp Hba]]; try lra.
  destruct Hab as [Hab|[Hlab Hab]], Hba as [Hba|[Hlba Hba]]; try lia.
  apply collate_eq. rewrite (collate_anti (word a) (word b)) in Hba.
  destruct (localeCompare (word a) (word b)); done.
Qed.

(** The sort of the records that a function [f] of the word emits,
    all with a finite niceness. *)
Section emitted.
Context (f : jsstring -> option WordMatch).
Hypothesis f_word : forall w m, f w = Some m -> word m = w.
Hypothesis f_finite : forall w m, f w = Some m -> finite (niceness m).

Lemma emitted_finite l : Forall (fun m => finite (niceness m)) (omap f l).
Proof.
  apply Forall_forall. intros m (w & _ & Hm)%list_elem_of_omap. eauto.
Qed.

Lemma sort_emitted_sorted l :
  StronglySorted (fun a b => compareMatches a b <> Gt)
                 (sortBy compareMatches (omap f l)).
Proof.
  apply (sortBy_sorted compareMatches (fun m => finite (niceness m))).
  - intros a b Ha Hb Hab.
    destruct (outranks_total a b Ha Hb) as [H|H].
    + apply compareMatches_outranks in H; [|done..]. congruence.
    + apply compareMatches_outranks; done.
  - intros a b c Ha Hb Hc Hab Hbc. apply compareMatches_outranks; try done.
    apply (outranks_trans a b c); apply compareMatches_outranks; done.
  - apply emitted_finite.
Qed.

Lemma sort_emitted_ranked l i j a b :
  i < j -> sortBy compareMatches (omap f l) !! i = Some a ->
  sortBy compareMatches (omap f l) !! j = Some b -> outranks a b.
Proof.
  intros Hij Hi Hj.
  assert (Hfin : Forall (fun m => finite (niceness m))
                        (sortBy compareMatches (omap f l))).
  { rewrite sortBy_Permutation. apply emitted_finite. }
  rewrite Forall_forall in Hfin.
  apply compareMatches_outranks; [eapply Hfin, list_elem_of_lookup_2; eauto..|].
  eapply (StronglySorted_lookup _ _ (sort_emitted_sorted l)); eauto.
Qed.

Lemma sort_emitted_Permutation l l' :
  l ≡ₚ l' ->
  sortBy compareMatches (omap f l) = sortBy compareMatches (omap f l').
Proof.
  intros Hperm.
  apply (StronglySorted_unique_strong (fun a b => compareMatches a b <> Gt)).
  - intros a b Ha Hb Hab Hba.
    rewrite elem_of_sortBy in Ha, Hb.
    apply list_elem_of_omap in Ha as (wa & _ & Ha).
    apply list_elem_of_omap in Hb as (wb & _ & Hb).
    apply compareMatches_outranks in Hab; eauto.
    apply compareMatches_outranks in Hba; eauto.
    pose proof (outranks_antisym a b Hab Hba) as Hw.
    rewrite (f_word _ _ Ha), (f_word _ _ Hb) in Hw. subst wb. congruence.
  - apply sort_emitted_sorted.
  - apply sort_emitted_sorted.
  - by rewrite !sortBy_Permutation, Hperm.
Qed.
End emitted.
End ranking.

(** The collation by code units is a total order. *)
Lemma codeUnitCompare_anti a : forall b,
  codeUnitCompare b a = CompOpp (codeUnitCompare a b).
Proof.
  induction a as [|x a IH]; intros [|y b]; simpl; try done.
  rewrite (N.compare_antisym (N_of_ascii x) (N_of_ascii y)).
  destruct (N_of_ascii x ?= N_of_ascii y)%N; simpl; auto.
Qed.

Lemma codeUnitCompare_eq a : forall b, codeUnitCompare a b = Eq -> a = b.
Proof.
  induction a as [|x a IH]; intros [|y b]; simpl; try done.
  destruct (N_of_ascii x ?= N_of_ascii y)%N eqn:Hxy; try done.
  intros H. apply N.compare_eq in Hxy.
  f_equal; [|by apply IH].
  by rewrite <- (ascii_N_embedding x), <- (ascii_N_embedding y), Hxy.
Qed.

Lemma codeUnitCompare_trans a : forall b c,
  codeUnitCompare a b <> Gt -> codeUnitCompare b c <> Gt -> codeUnitCompare a c <> Gt.
Proof.
  induction a as [|x a IH]; intros [|y b] [|z c]; simpl; try done.
  destruct (N.compare_spec (N_of_ascii x) (N_of_ascii y)) as [Hxy|Hxy|Hxy];
    destruct (N.compare_spec (N_of_ascii y) (N_of_ascii z)) as [Hyz|Hyz|Hyz];
    destruct (N.compare_spec (N_of_ascii x) (N_of_ascii z)) as [Hxz|Hxz|Hxz];
    try done; try lia.
  apply IH.
Qed.

Lemma codeUnit_order : CollatorOrder codeUnitCompare.
Proof.
  split.
  - intros a b. apply codeUnitCompare_anti.
  - intros a b c. apply codeUnitCompare_trans.
  - intros a b. apply codeUnitCompare_eq.
Qed.

(** The unguarded niceness is finite for a non-empty word and a title
    with words. *)
Lemma findTitleWord_inWord ws : forall k i wi tw,
  findTitleWord k ws i = Some (wi, tw) ->
  inWord i tw = true /\ k <= wi /\ ws !! (wi - k) = Some tw /\
  forall j tw', j < wi - k -> ws !! j = Some tw' -> inWord i tw' = false.
Proof.
  induction ws as [|w ws IH]; intros k i wi tw; simpl; [done|].
  destruct (inWord i w) eqn:Hin.
  - intros [= <- <-]. rewrite Nat.sub_diag. repeat split; auto. intros j tw' Hj. lia.
  - intros (Hi & Hk & Hl & Hfirst)%IH.
    replace (wi - k) with (S (wi - S k)) by lia. repeat split; auto; [lia|].
    intros [|j] tw' Hj; simpl; [congruence|]. apply Hfirst. lia.
Qed.

Lemma startLetterScoreA_finite titleInfo letterIndices :
  finite (MatchingA.startLetterScore titleInfo letterIndices).
Proof.
  unfold MatchingA.startLetterScore.
  assert (H : finite (Fin 0)) by by eexists. revert H. generalize (Fin 0).
  induction letterIndices as [|i l IH]; intros acc Hacc; cbn [foldl]; [done|].
  apply IH.
  destruct (findTitleWord 0 (words titleInfo) i) as [[wi tw]|] eqn:Hf; [|done].
  apply findTitleWord_inWord in Hf as (Hin & _).
  cbv zeta. apply nadd_finite; [done|]. apply nsub_finite; [by eexists|].
  apply ndiv_finite_pos; [by eexists|].
  unfold inWord in Hin. lia.
Qed.

Lemma initialsMatched_nil w : initialsMatched w [] = 0.
Proof. by destruct w. Qed.

Lemma calculateNicenessA_finite titleInfo w idxs :
  words titleInfo <> [] -> w <> [] ->
  finite (MatchingA.calculateNiceness titleInfo w idxs).
Proof.
  intros Hws Hw. unfold MatchingA.calculateNiceness. cbv zeta.
  assert (0 < length (words titleInfo)) by (destruct (words titleInfo); simpl; [done|lia]).
  assert (0 < length w) by (destruct w; simpl; [done|lia]).
  apply round2_finite. apply nadd_finite; [|apply lengthBonus_finite].
  assert (Hbase : finite
    (nadd (nadd (Fin 0)
       (nmul (ndiv (ofNat (size (wordsUsed titleInfo
                 (map (indexOf (letterPositions titleInfo)) idxs))))
               (ofNat (length (words titleInfo)))) (Fin 40)))
       (nmul (ndiv (MatchingA.startLetterScore titleInfo
                      (map (indexOf (letterPositions titleInfo)) idxs))
                   (ofNat (length w))) (Fin 30)))).
  { apply nadd_finite; [apply nadd_finite; [by eexists|]|].
    - apply nmul_finite; [|by eexists]. by apply ndiv_ofNat_finite.
    - apply nmul_finite; [|by eexists].
      apply ndiv_finite_pos; [apply startLetterScoreA_finite|lia]. }
  destruct (Nat.ltb_spec 0 (initialsMatched (toLowerCase w) (initials titleInfo))) as [Hm|];
    [|done].
  apply nadd_finite; [done|]. apply nmul_finite; [|by eexists].
  apply ndiv_ofNat_finite.
  destruct (initials titleInfo); [|simpl; lia].
  rewrite initialsMatched_nil in Hm. lia.
Qed.

Lemma analyze_words_nonempty title :
  letters (analyzeTitleTitle title) <> [] -> words (analyzeTitleTitle title) <> [].
Proof.
  intros Hl Hw. pose proof (analyze_tiles title) as Ht. rewrite Hw in Ht.
  simpl in Ht. by destruct (letters (analyzeTitleTitle title)).
Qed.

Lemma exactOfA_finite title minLen term searchLower w m :
  1 <= minLen ->
  exactOfA (analyzeTitleTitle title) minLen term searchLower w = Some m ->
  finite (niceness m).
Proof.
  intros Hmin Hm. unfold exactOfA in Hm.
  destruct (Nat.ltb_spec (length w) minLen); [done|].
  destruct (Nat.ltb_spec (length (letters (analyzeTitleTitle title))) (length w)); [done|].
  destruct (_ && _); [done|].
  destruct (findWordInTitle _ w) as [idxs|]; [|done].
  injection Hm as <-. simpl.
  apply calculateNicenessA_finite.
  - apply analyze_words_nonempty.
    destruct (letters (analyzeTitleTitle title)); simpl in *; [lia|done].
  - destruct w; simpl in *; [lia|done].
Qed.


(** ** The niceness formula *)

Lemma indexOfFrom_sorted lp : forall i k p,
  StronglySorted lt lp -> lp !! k = Some p ->
  indexOfFrom i lp p = Z.of_nat (i + k).
Proof.
  induction lp as [|x lp IH]; intros i k p Hs Hk; [done|].
  inversion Hs as [|? ? Hs' Hx]; subst. simpl.
  destruct k as [|k]; simpl in Hk.
  - injection Hk as ->. rewrite decide_True by done. f_equal. lia.
  - rewrite Forall_forall in Hx.
    assert (x < p) by (apply Hx; eapply list_elem_of_lookup_2; eauto).
    rewrite decide_False by lia. rewrite (IH (S i) k p Hs' Hk). f_equal. lia.
Qed.

(** On an analyzed title the indices map back to the letter positions
    they came from. *)
Lemma letterIndicesOf_positions titleInfo ks :
  StronglySorted lt (letterPositions titleInfo) ->
  Forall (fun k => is_Some (letterPositions titleInfo !! k)) ks ->
  MatchingB.letterIndicesOf titleInfo (map (fun k => letterPositions titleInfo !! k) ks)
  = map Z.of_nat ks.
Proof.
  intros Hs. unfold MatchingB.letterIndicesOf.
  induction 1 as [|k ks [p Hp] _ IH]; [done|].
  cbn [map]. rewrite Hp at 1. cbn [indexOf].
  rewrite (indexOfFrom_sorted _ 0 k p Hs Hp).
  rewrite filter_cons_True by lia. by rewrite IH.
Qed.

Lemma inWord_touches tw k : inWord (Z.of_nat k) tw = Formula.touches tw k.
Proof.
  unfold inWord, Formula.touches.
  destruct (Z.leb_spec (Z.of_nat (letterStartIndex tw)) (Z.of_nat k));
    destruct (Nat.leb_spec (letterStartIndex tw) k); try lia; simpl;
    destruct (Z.ltb_spec (Z.of_nat k) (Z.of_nat (letterEndIndex tw)));
    destruct (Nat.ltb_spec k (letterEndIndex tw)); try lia; done.
Qed.

Lemma findTitleWord_find ws k : forall i,
  snd <$> findTitleWord i ws (Z.of_nat k)
  = List.find (fun tw => Formula.touches tw k) ws.
Proof.
  induction ws as [|tw ws IH]; intros i; simpl; [done|].
  rewrite inWord_touches. destruct (Formula.touches tw k); [done|]. apply IH.
Qed.

Lemma initialsMatched_max_prefix a : forall b,
  initialsMatched a b = length (max_prefix a b).2.
Proof.
  induction a as [|x a IH]; intros [|y b]; simpl; try done.
  unfold decide_rel.
  destruct (decide (x = y)) as [->|Hne], (Ascii.eq_dec _ y); try done.
  rewrite IH. by destruct (max_prefix a b) as [[? ?] ?].
Qed.

Lemma firstLetter_positions (s : nat) ks :
  bool_decide (Z.of_nat s ∈ map Z.of_nat ks) = bool_decide (s ∈ ks).
Proof.
  apply bool_decide_ext. rewrite list_elem_of_fmap. split.
  - intros (k & Hk%Nat2Z.inj & Hin). by subst.
  - intros Hin. by exists s.
Qed.

Lemma ndiv_ofZ_ofZ a z :
  (0 < z)%Z -> ndiv (ofZ a) (ofZ z) = Fin (inject_Z a / inject_Z z).
Proof. apply ndiv_ofZ_pos. Qed.

Lemma isFin_proper x q q' : isFin x q -> q == q' -> isFin x q'.
Proof. destruct x; simpl; try done. intros -> ->. reflexivity. Qed.

Lemma findTitleWord_None ws z : forall i,
  findTitleWord i ws z = None -> Forall (fun tw => inWord z tw = false) ws.
Proof.
  induction ws as [|tw ws IH]; intros i; simpl; [constructor|].
  destruct (inWord z tw) eqn:Hin; [done|]. intros H. constructor; eauto.
Qed.

Lemma wordsUsed_elem titleInfo l : forall (acc : gset nat) wi,
  wi ∈ foldl (fun used letterIdx =>
                match findTitleWord 0 (words titleInfo) letterIdx with
                | Some (wi, _) => {[wi]} ∪ used
                | None => used
                end) acc l
  <-> wi ∈ acc \/
      exists i tw, i ∈ l /\ findTitleWord 0 (words titleInfo) i = Some (wi, tw).
Proof.
  induction l as [|i l IH]; intros acc wi; cbn [foldl].
  - split; [auto|]. intros [?|(i & tw & Hi%elem_of_nil & _)]; done.
  - rewrite IH. split.
    + intros [Hacc|(j & tw & Hj & Hf)].
      * destruct (findTitleWord 0 (words titleInfo) i) as [[wi' tw]|] eqn:Hf; [|auto].
        apply elem_of_union in Hacc as [->%elem_of_singleton|?]; [|auto].
        right. exists i, tw. split; [left|done].
      * right. exists j, tw. split; [by right|done].
    + intros [Hacc|(j & tw & Hj & Hf)].
      * left. destruct (findTitleWord 0 (words titleInfo) i) as [[wi' tw]|]; [|done].
        apply elem_of_union. by right.
      * apply elem_of_cons in Hj as [->|Hj].
        -- left. rewrite Hf. apply elem_of_union. left. by apply elem_of_singleton.
        -- right. eauto.
Qed.

Lemma size_indexed {A} (P : A -> bool) ws : forall U : gset nat,
  (forall i, i ∈ U <-> exists x, ws !! i = Some x /\ P x = true) ->
  size U = length (List.filter P ws).
Proof.
  induction ws as [|x ws IH] using rev_ind; intros U HU.
  - simpl. apply size_empty_iff. intros i. split; [|by intros ?%elem_of_empty].
    intros (x & Hx & _)%HU. done.
  - rewrite List.filter_app, length_app. simpl.
    assert (HU' : forall i, i ∈ U ∖ {[length ws]}
                            <-> exists y, ws !! i = Some y /\ P y = true).
    { intros i. rewrite elem_of_difference, HU, not_elem_of_singleton. split.
      - intros [(y & Hy & HP) Hne]. exists y. split; [|done].
        pose proof (lookup_lt_Some _ _ _ Hy) as Hlt. rewrite length_app in Hlt.
        simpl in Hlt. rewrite lookup_app_l in Hy by lia. done.
      - intros (y & Hy & HP). pose proof (lookup_lt_Some _ _ _ Hy) as Hlt.
        split; [|lia]. exists y. split; [|done]. by rewrite lookup_app_l by lia. }
    specialize (IH _ HU'). rewrite <- IH.
    destruct (P x) eqn:HPx; simpl.
    + assert (Hn : length ws ∈ U).
      { apply HU. exists x. split; [|done].
        by rewrite lookup_app_r, Nat.sub_diag by lia. }
      rewrite (union_difference_singleton_L _ _ Hn) at 1.
      rewrite size_union, size_singleton by by apply disjoint_difference_r1. lia.
    + assert (Hn : length ws ∉ U).
      { intros (y & Hy & HP)%HU.
        rewrite lookup_app_r, Nat.sub_diag in Hy by lia. simpl in Hy. congruence. }
      rewrite difference_disjoint_L by by apply disjoint_singleton_r. lia.
Qed.

Lemma wordsUsed_touched titleInfo ks to :
  tiles 0 (words titleInfo) to ->
  size (wordsUsed titleInfo (map Z.of_nat ks)) = Formula.touchedWords titleInfo ks.
Proof.
  intros Ht. apply size_indexed. intros wi. unfold wordsUsed.
  rewrite wordsUsed_elem. split.
  - intros [?%elem_of_empty|(i & tw & Hi & Hf)]; [done|].
    apply list_elem_of_fmap in Hi as (k & -> & Hk).
    apply findTitleWord_inWord in Hf as (Hin & _ & Hl & _).
    rewrite Nat.sub_0_r in Hl. exists tw. split; [done|].
    apply existsb_exists. exists k. rewrite <- inWord_touches.
    split; [by apply list_elem_of_In|done].
  - intros (tw & Hl & Hex). right.
    apply existsb_exists in Hex as (k & Hk%list_elem_of_In & Htouch).
    exists (Z.of_nat k).
    destruct (findTitleWord 0 (words titleInfo) (Z.of_nat k)) as [[wi' tw']|] eqn:Hf.
    + pose proof Hf as Hf'.
      apply findTitleWord_inWord in Hf' as (Hin' & _ & Hl' & Hfirst).
      rewrite Nat.sub_0_r in Hl', Hfirst.
      assert (wi' = wi) as ->.
      { destruct (Nat.lt_total wi' wi) as [Hlt|[?|Hgt]]; [|done|].
        - pose proof (tiles_disjoint _ _ _ _ _ _ _ Ht Hlt Hl' Hl) as Hdis.
          rewrite inWord_touches in Hin'. unfold Formula.touches in Hin', Htouch.
          apply andb_prop in Hin' as [_ ?%Nat.ltb_lt].
          apply andb_prop in Htouch as [?%Nat.leb_le _]. lia.
        - specialize (Hfirst _ _ Hgt Hl). rewrite inWord_touches in Hfirst. congruence. }
      exists tw'. split; [|done]. apply list_elem_of_fmap. by exists k.
    + apply findTitleWord_None in Hf. rewrite Forall_forall in Hf.
      specialize (Hf tw (list_elem_of_lookup_2 _ _ _ Hl)).
      rewrite inWord_touches in Hf. congruence.
Qed.

(** The letter positions behind the indices that the matcher returns on
    an analyzed title. *)
Lemma find_matched_positions title w idxs :
  let ti := analyzeTitleTitle title in
  findWordInTitle ti w = Some idxs ->
  exists ks,
    idxs = map (fun k => letterPositions ti !! k) ks /\
    Forall (fun k => is_Some (letterPositions ti !! k)) ks /\
    embedding ks (toLowerCase w) (letters ti).
Proof.
  intros ti. unfold findWordInTitle. destruct (_ <? _); [done|]. intros H.
  destruct (matchChars_leftmost (letterPositions ti) (letters ti) (toLowerCase w) 0 idxs H)
    as (ks & -> & Hlen & _ & Hsort & Hemb & _).
  exists ks. split; [done|]. split.
  - apply Forall_forall. intros k [n Hn]%list_elem_of_lookup_1.
    destruct (Hemb n k Hn) as (c & _ & Hc).
    apply lookup_lt_is_Some. unfold ti. rewrite analyze_positions_length.
    by eapply lookup_lt_Some.
  - split; [done|]. split; [by apply StronglySorted_lt_increasing|done].
Qed.

(** On tiled words every letter position lies in a word. *)
Lemma tiles_find ws : forall from to k,
  tiles from ws to -> from <= k < to ->
  is_Some (List.find (fun tw => Formula.touches tw k) ws).
Proof.
  induction ws as [|tw ws IH]; intros from to k Ht Hk; simpl in Ht; [lia|].
  destruct Ht as (Hs & Hlt & Ht). cbn [List.find]. unfold Formula.touches at 1.
  destruct (Nat.leb_spec (letterStartIndex tw) k); [|lia].
  destruct (Nat.ltb_spec k (letterEndIndex tw)); cbn [andb]; [by eexists|].
  apply (IH _ _ _ Ht). lia.
Qed.

(** The loop that sums the position scores, against the sum of the
    formula. *)
Lemma startLetterScore_formula titleInfo ks :
  Forall (fun tw => letterEndIndex tw - letterStartIndex tw = length (tw_word tw))
         (words titleInfo) ->
  Forall (fun k => is_Some (List.find (fun tw => Formula.touches tw k)
                              (words titleInfo))) ks ->
  forall acc : Binary64.number,
  foldl (fun acc letterIdx =>
           match findTitleWord 0 (words titleInfo) letterIdx with
           | Some (_, tw) =>
               let posInWord := (letterIdx - Z.of_nat (letterStartIndex tw))%Z in
               let wordLength :=
                 (Z.of_nat (letterEndIndex tw) - Z.of_nat (letterStartIndex tw))%Z in
               let denom := Z.max (wordLength - 1) 1 in
               let posScore :=
                 PrimFloat.sub 1%float (PrimFloat.div (Binary64.ofZ posInWord)
                                                (Binary64.ofZ denom)) in
               PrimFloat.add acc posScore
           | None => acc
           end) acc (map Z.of_nat ks)
  = foldl (fun sum k => PrimFloat.add sum (Formula.positionScore titleInfo k)) acc ks.
Proof.
  intros Hinv. induction 1 as [|k ks Hk _ IH]; intros acc; cbn [map foldl]; [done|].
  rewrite IH. f_equal. unfold Formula.positionScore.
  pose proof (findTitleWord_find (words titleInfo) k 0) as Hfind.
  destruct (findTitleWord 0 (words titleInfo) (Z.of_nat k)) as [[wi tw]|] eqn:Hf;
    cbn [fmap option_fmap option_map snd] in Hfind; rewrite <- Hfind.
  - apply findTitleWord_inWord in Hf as (Hin & _ & Hl & _).
    rewrite Forall_forall in Hinv.
    pose proof (Hinv tw (list_elem_of_lookup_2 _ _ _ Hl)) as Hlen.
    rewrite inWord_touches in Hin. unfold Formula.touches in Hin.
    apply andb_prop in Hin as [Hs%Nat.leb_le He%Nat.ltb_lt].
    cbv zeta. unfold Binary64.ofNat.
    replace (Z.of_nat (k - letterStartIndex tw))
      with (Z.of_nat k - Z.of_nat (letterStartIndex tw))%Z by lia.
    replace (Z.of_nat (Nat.max (length (tw_word tw) - 1) 1))
      with (Z.max (Z.of_nat (letterEndIndex tw) - Z.of_nat (letterStartIndex tw) - 1) 1)
      by lia.
    reflexivity.
  - rewrite <- Hfind in Hk. by destruct Hk.
Qed.

(** C2: on an analyzed title with at least one word, for a non-empty
    word and the indices that the matcher returns for it,
    [calculateNiceness] is the sum of the bonuses of the formula, taken
    over the matched letter positions and rounded to the nearest
    hundredth; both sides are computed in binary64, as the program
    does. *)
Theorem calculateNiceness_formula (title w : jsstring) (idxs : list (option nat)) :
  let ti := analyzeTitleTitle title in
  words ti <> [] -> w <> [] -> findWordInTitle ti w = Some idxs ->
  exists ks,
    idxs = map (fun k => letterPositions ti !! k) ks /\
    Forall (fun k => is_Some (letterPositions ti !! k)) ks /\
    embedding ks (toLowerCase w) (letters ti) /\
    Binary64.calculateNiceness ti w idxs = Formula.score ti w ks.
Proof.
  intros ti Hwords Hw Hfind. subst ti.
  destruct (find_matched_positions title w idxs Hfind) as (ks & -> & Hks & Hemb).
  exists ks. split; [done|]. split; [done|]. split; [done|].
  set (ti := analyzeTitleTitle title) in *.
  assert (Hpos : 0 < length (words ti))
    by (destruct (words ti); simpl; [done|lia]).
  assert (Hlen : 0 < length w) by (destruct w; simpl; [done|lia]).
  assert (Hinv : Forall (fun tw => letterEndIndex tw - letterStartIndex tw
                                   = length (tw_word tw)) (words ti)).
  { unfold ti. destruct (analyze_fields title) as (_ & _ & -> & _).
    apply buildWords_wordLength. }
  assert (Hcover : Forall (fun k => is_Some (List.find (fun tw => Formula.touches tw k)
                                               (words ti))) ks).
  { apply Forall_forall. intros k [n Hn]%list_elem_of_lookup_1.
    destruct Hemb as (_ & _ & Hemb). destruct (Hemb n k Hn) as (c & _ & Hc).
    apply (tiles_find _ 0 (length (letters ti))); [apply analyze_tiles|].
    apply lookup_lt_Some in Hc. lia. }
  unfold Binary64.calculateNiceness, Formula.score. cbv zeta.
  rewrite (letterIndicesOf_positions ti ks (analyze_positions_sorted title) Hks).
  rewrite (startLetterScore_formula ti ks Hinv Hcover).
  rewrite (wordsUsed_touched ti ks _ (analyze_tiles title)).
  replace (Nat.max (length w) 1) with (length w) by lia.
  destruct (Nat.ltb_spec 0 (length (words ti))); [|lia].
  unfold Formula.roundHundredths, Binary64.round2, Binary64.lengthBonus,
    Formula.lengthTerm, Formula.startLetter, Formula.coverage.
  assert (Hfirst :
    match words ti with
    | first :: _ =>
        if bool_decide (Z.of_nat (letterStartIndex first) ∈ map Z.of_nat ks)
        then PrimFloat.add PrimFloat.zero 25%float else PrimFloat.zero
    | [] => PrimFloat.zero
    end = Formula.firstLetter ti ks).
  { unfold Formula.firstLetter. destruct (words ti) as [|first ws]; [done|].
    rewrite firstLetter_positions. by destruct (bool_decide _). }
  assert (Hinit :
    (0 <? initialsMatched (toLowerCase w) (initials ti))
    && (0 <? length (initials ti))
    = (0 <? Formula.commonPrefix ti w)).
  { unfold Formula.commonPrefix. rewrite <- initialsMatched_max_prefix.
    destruct (Nat.ltb_spec 0 (initialsMatched (toLowerCase w) (initials ti)))
      as [Hm|]; [|done].
    destruct (initials ti); [rewrite initialsMatched_nil in Hm; lia|done]. }
  change PrimFloat.zero with 0%float in Hfirst.
  rewrite Hfirst, Hinit. unfold Formula.initialsPrefix, Formula.commonPrefix.
  rewrite <- !(initialsMatched_max_prefix (toLowerCase w) (initials ti)).
  by destruct (0 <? _).
Qed.

(** With the title "The Image Plan" the word "time" scores 89.62: the
    sum of the bonuses is the binary64 number just below 89.625. *)
Example calculateNiceness_time :
  Binary64.calculateNiceness (analyzeTitleTitle (str "The Image Plan")) (str "time")
    [Some 0; Some 4; Some 5; Some 8]
  = 89.62%float.
Proof. vm_compute. reflexivity. Qed.

(** Exact rational arithmetic rounds the same sum, 89.625, up. *)
Example calculateNiceness_time_exact :
  MatchingB.calculateNiceness (analyzeTitleTitle (str "The Image Plan")) (str "time")
    [Some 0; Some 4; Some 5; Some 8]
  = Fin (8963 # 100).
Proof. vm_compute. reflexivity. Qed.

(** The unguarded version scores differently: no first-letter bonus,
    and positions are divided by the length of the title word. *)
Example calculateNiceness_versions :
  let ti := analyzeTitleTitle (str "Cat Dog") in
  MatchingA.calculateNiceness ti (str "cog") [Some 0; Some 5; Some 6] = Fin (7300 # 100) /\
  MatchingB.calculateNiceness ti (str "cog") [Some 0; Some 5; Some 6] = Fin (9300 # 100).
Proof. vm_compute. auto. Qed.

(** ** The properties at concrete inputs *)

Lemma findWordInTitle_greedy_witness :
  findWordInTitle (analyzeTitleTitle (str "Cat Dog")) (str "Cog")
  = Some [Some 0; Some 5; Some 6] /\
  length [Some 0; Some 5; Some 6] = length (str "Cog").
Proof.
  split; [reflexivity|].
  destruct (findWordInTitle_greedy (str "Cat Dog") (str "Cog")) as (_ & _ & H).
  apply H. reflexivity.
Defined.

Lemma calculateNiceness_formula_witness :
  let ti := analyzeTitleTitle (str "Cat Dog") in
  words ti <> [] /\ str "cog" <> [] /\
  findWordInTitle ti (str "cog") = Some [Some 0; Some 5; Some 6] /\
  exists ks,
    [Some 0; Some 5; Some 6] = map (fun k => letterPositions ti !! k) ks /\
    Forall (fun k => is_Some (letterPositions ti !! k)) ks /\
    embedding ks (toLowerCase (str "cog")) (letters ti) /\
    Binary64.calculateNiceness ti (str "cog") [Some 0; Some 5; Some 6]
    = Formula.score ti (str "cog") ks.
Proof.
  intros ti.
  assert (H1 : words ti <> []) by (intros E; vm_compute in E; discriminate E).
  assert (H2 : str "cog" <> []) by (intros E; vm_compute in E; discriminate E).
  assert (H3 : findWordInTitle ti (str "cog") = Some [Some 0; Some 5; Some 6])
    by reflexivity.
  split; [exact H1|]. split; [exact H2|]. split; [exact H3|].
  exact (calculateNiceness_formula (str "Cat Dog") (str "cog") _ H1 H2 H3).
Defined.


Lemma compounds_are_fabricated_witness :
  let dict := [str "ca"; str "do"] in
  let r := @MatchingB.findAllMatches codeUnitCompare
             (analyzeTitleTitle (str "Cat Dog")) dict (buildWordSet dict)
             (mkOptions 2 10 [] true true) in
  let m := mkWordMatch (str "cado") [Some 0; Some 1; Some 4; Some 5]
             (Fin (9135 # 100)) Compound (Some [str "ca"; str "do"]) None in
  returnedCompound r m /\ word m ∉ buildWordSet dict.
Proof.
  intros dict r m.
  assert (H : returnedCompound r m).
  { split; [right; left|reflexivity].
    replace (compound_ r) with [m] by (vm_compute; reflexivity).
    apply list_elem_of_singleton. reflexivity. }
  split; [exact H|].
  exact (proj1 (compounds_are_fabricated codeUnitCompare _ dict _ _ m H)).
Defined.

Lemma compound_niceness_penalty_witness :
  let dict := [str "ca"; str "do"] in
  let ti := analyzeTitleTitle (str "Cat Dog") in
  let r := @Binary64.findAllMatches codeUnitCompare ti dict (buildWordSet dict)
             (mkOptions 2 10 [] true true) in
  let m := Binary64.mkWordMatch (str "cado") [Some 0; Some 1; Some 4; Some 5]
             91.35%float Compound (Some [str "ca"; str "do"]) in
  returnedCompound64 r m /\
  Binary64.niceness m
  = (Binary64.round
       (Binary64.calculateNiceness ti (Binary64.word m) (Binary64.indices m)
        * 0.9 * 100) / 100)%float.
Proof.
  intros dict ti r m.
  assert (H : returnedCompound64 r m).
  { split; [right|reflexivity].
    replace (Binary64.compound_ r) with [m] by (vm_compute; reflexivity).
    apply list_elem_of_singleton. reflexivity. }
  split; [exact H|].
  exact (proj2 (compound_niceness_penalty codeUnitCompare ti dict _ _ m H)).
Defined.

Lemma near_matches_exclusive_witness :
  let ti := analyzeTitleTitle (str "Cat Dog") in
  let r := @MatchingA.findAllMatches codeUnitCompare ti [str "cdx"; str "ca"] ∅
             (mkOptions 2 10 [] true true) in
  let m := mkWordMatch (str "cdx") [Some 0; Some 4] (Fin (5000 # 100)) Near None
             (Some 1) in
  m ∈ near_ r /\ isNearMatch ti 2 m /\
  forall e, e ∈ exact_ r -> word e <> word m.
Proof.
  intros ti r m.
  assert (H : m ∈ near_ r).
  { replace (near_ r) with [m] by (vm_compute; reflexivity).
    apply list_elem_of_singleton. reflexivity. }
  split; [exact H|].
  exact (proj2 near_matches_exclusive codeUnitCompare ti _ _ _ m H).
Defined.

Lemma calculateNiceness_guards_witness :
  let ti := analyzeTitleTitle (str "ab") in
  findWordInTitle ti [] = Some [] /\
  isFin (MatchingB.startLetterTerm ti (length (@nil ascii))
           (MatchingB.letterIndicesOf ti [])) 0.
Proof.
  intros ti. split; [reflexivity|].
  destruct (calculateNiceness_guards ti [] []) as (_ & _ & _ & _ & _ & H & _).
  apply H; [reflexivity|simpl; lia].
Defined.

Lemma empty_word_found_witness :
  let r := @MatchingB.findAllMatches codeUnitCompare
             (analyzeTitleTitle (str "Cat Dog")) [str "ca"; []] ∅
             (mkOptions 1 10 [] false false) in
  let m := mkWordMatch (str "ca") [Some 0; Some 1] (Fin (7950 # 100)) Exact None None in
  1 <= 1 /\ m ∈ exact_ r /\ word m <> [].
Proof.
  intros r m.
  assert (H : m ∈ exact_ r).
  { replace (exact_ r) with [m] by (vm_compute; reflexivity).
    apply list_elem_of_singleton. reflexivity. }
  split; [lia|]. split; [exact H|].
  destruct empty_word_found as (_ & H2 & _).
  apply (H2 codeUnitCompare (analyzeTitleTitle (str "Cat Dog")) [str "ca"; []] ∅
            (mkOptions 1 10 [] false false) m); [simpl; lia|].
  right. exact H.
Defined.

(** * Further properties *)

(** ** Subsequence test *)

(** [containsSubsequence] decides the subsequence relation: it answers
    [true] exactly when [target] can be obtained from [source] by
    deleting characters. *)
Theorem containsSubsequence_sublist (source target : jsstring) :
  MatchingA.containsSubsequence source target = true <-> target `sublist_of` source.
Proof.
  revert target. induction source as [|s source IH]; intros [|t target]; simpl.
  - split; [intros _; constructor|done].
  - split; [done|]. intros H. by apply sublist_nil_r in H.
  - split; [intros _; apply sublist_nil_l|done].
  - destruct (decide (s = t)) as [->|Hne]; rewrite IH.
    + split; [apply sublist_skip|].
      intros [H1|(l' & [= <-] & H2)]%sublist_cons_r; [|done].
      transitivity (t :: target); [by apply sublist_cons|done].
    + split; [apply sublist_cons|].
      intros [H1|(l' & [= ? <-] & H2)]%sublist_cons_r; [done|congruence].
Qed.

(** ** Edit distance is the Levenshtein distance *)

Lemma lev_le_max a : forall b, lev a b <= Nat.max (length a) (length b).
Proof.
  induction a as [|x a IHa]; intros b; [simpl; lia|].
  induction b as [|y b IHb]; [simpl; lia|].
  change (lev (x :: a) (y :: b))
    with (if decide (x = y) then lev a b
          else 1 + Nat.min (Nat.min (lev a b) (lev a (y :: b))) (lev (x :: a) b)).
  specialize (IHa b). destruct (decide (x = y)); simpl; lia.
Qed.

Lemma lev_ge_diff a : forall b,
  length a - length b <= lev a b /\ length b - length a <= lev a b.
Proof.
  induction a as [|x a IHa]; intros b; [simpl; lia|].
  induction b as [|y b IHb]; [simpl; lia|].
  change (lev (x :: a) (y :: b))
    with (if decide (x = y) then lev a b
          else 1 + Nat.min (Nat.min (lev a b) (lev a (y :: b))) (lev (x :: a) b)).
  pose proof (IHa b). pose proof (IHa (y :: b)).
  destruct (decide (x = y)); simpl in *; lia.
Qed.

Lemma lev_zero a : forall b, lev a b = 0 -> a = b.
Proof.
  induction a as [|x a IHa]; intros b.
  - simpl. by destruct b.
  - destruct b as [|y b]; [done|].
    change (lev (x :: a) (y :: b))
      with (if decide (x = y) then lev a b
            else 1 + Nat.min (Nat.min (lev a b) (lev a (y :: b))) (lev (x :: a) b)).
    destruct (decide (x = y)) as [->|]; [|lia]. intros H. f_equal. by apply IHa.
Qed.

(** Dropping the first character of either string moves the distance by
    at most one. *)
Lemma lev_step n : forall a b x, length a + length b <= n ->
  lev (x :: a) b <= S (lev a b) /\ lev a b <= S (lev (x :: a) b).
Proof.
  induction n as [n IH] using lt_wf_ind. intros a b x Hn.
  destruct b as [|y b].
  - rewrite !lev_nil_r. simpl. lia.
  - change (lev (x :: a) (y :: b))
      with (if decide (x = y) then lev a b
            else 1 + Nat.min (Nat.min (lev a b) (lev a (y :: b))) (lev (x :: a) b)).
    simpl in Hn.
    assert (Hba : lev (y :: b) a <= S (lev b a) /\ lev b a <= S (lev (y :: b) a))
      by (apply (IH (length b + length a)); lia).
    rewrite (lev_sym (y :: b) a), (lev_sym b a) in Hba.
    assert (Hab : lev (x :: a) b <= S (lev a b) /\ lev a b <= S (lev (x :: a) b))
      by (apply (IH (length a + length b)); lia).
    destruct (decide (x = y)); lia.
Qed.

Lemma lev_delete x a b : lev (x :: a) b <= S (lev a b).
Proof. by apply (lev_step (length a + length b)). Qed.

Lemma lev_insert y a b : lev a (y :: b) <= S (lev a b).
Proof. rewrite (lev_sym a (y :: b)), (lev_sym a b). apply lev_delete. Qed.

Lemma lev_least n a b : edits n a b -> lev a b <= n.
Proof.
  induction 1 as [|n x a b _ IH|n x y a b _ IH|n x a b _ IH|n y a b _ IH].
  - done.
  - simpl. by rewrite decide_True.
  - change (lev (x :: a) (y :: b))
      with (if decide (x = y) then lev a b
            else 1 + Nat.min (Nat.min (lev a b) (lev a (y :: b))) (lev (x :: a) b)).
    destruct (decide (x = y)); lia.
  - pose proof (lev_delete x a b). lia.
  - pose proof (lev_insert y a b). lia.
Qed.

Lemma edits_deletes a : edits (length a) a [].
Proof. induction a; simpl; by constructor. Qed.

Lemma edits_inserts b : edits (length b) [] b.
Proof. induction b; simpl; by constructor. Qed.

Lemma lev_edits a : forall b, edits (lev a b) a b.
Proof.
  induction a as [|x a IHa]; intros b; [apply edits_inserts|].
  induction b as [|y b IHb]; [apply (edits_deletes (x :: a))|].
  change (lev (x :: a) (y :: b))
    with (if decide (x = y) then lev a b
          else 1 + Nat.min (Nat.min (lev a b) (lev a (y :: b))) (lev (x :: a) b)).
  destruct (decide (x = y)) as [->|]; [by constructor|].
  destruct (Nat.min_spec (lev a b) (lev a (y :: b))) as [[_ ->]|[_ ->]].
  - destruct (Nat.min_spec (lev a b) (lev (x :: a) b)) as [[_ ->]|[_ ->]];
      simpl; by constructor.
  - destruct (Nat.min_spec (lev a (y :: b)) (lev (x :: a) b)) as [[_ ->]|[_ ->]];
      simpl; by constructor.
Qed.

(** Edit sequences read the same from the other end. *)
Lemma edits_snoc_keep n a b x : edits n a b -> edits n (a ++ [x]) (b ++ [x]).
Proof. induction 1; simpl; by repeat constructor. Qed.

Lemma edits_snoc_subst n a b x y : edits n a b -> edits (S n) (a ++ [x]) (b ++ [y]).
Proof. induction 1; simpl; by repeat constructor. Qed.

Lemma edits_snoc_delete n a b x : edits n a b -> edits (S n) (a ++ [x]) b.
Proof. induction 1; simpl; by repeat constructor. Qed.

Lemma edits_snoc_insert n a b y : edits n a b -> edits (S n) a (b ++ [y]).
Proof. induction 1; simpl; by repeat constructor. Qed.

Lemma edits_rev n a b : edits n a b -> edits n (rev a) (rev b).
Proof.
  induction 1; simpl.
  - constructor.
  - by apply edits_snoc_keep.
  - by apply edits_snoc_subst.
  - by apply edits_snoc_delete.
  - by apply edits_snoc_insert.
Qed.

(** [editDistance a b] edits turn [a] into [b], and no fewer do. *)
Theorem editDistance_levenshtein (a b : jsstring) :
  edits (MatchingA.editDistance a b) a b /\
  forall n, edits n a b -> MatchingA.editDistance a b <= n.
Proof.
  rewrite editDistance_lev. split.
  - rewrite <- (rev_involutive a), <- (rev_involutive b) at 2.
    apply edits_rev, lev_edits.
  - intros n H. by apply lev_least, edits_rev.
Qed.

Lemma editDistance_levenshtein_witness :
  edits 3 (str "kitten") (str "sitting") /\
  MatchingA.editDistance (str "kitten") (str "sitting") <= 3.
Proof.
  assert (H : edits 3 (str "kitten") (str "sitting")).
  { apply edits_subst, edits_keep, edits_keep, edits_keep, edits_subst, edits_keep,
      edits_insert, edits_nil. }
  split; [exact H|].
  exact (proj2 (editDistance_levenshtein (str "kitten") (str "sitting")) 3 H).
Defined.

(** The distance lies between the difference of the lengths and the
    greater length, and is 0 only between equal strings. *)
Theorem editDistance_bounds (a b : jsstring) :
  length a - length b <= MatchingA.editDistance a b /\
  length b - length a <= MatchingA.editDistance a b /\
  MatchingA.editDistance a b <= Nat.max (length a) (length b) /\
  (MatchingA.editDistance a b = 0 <-> a = b).
Proof.
  rewrite editDistance_lev.
  pose proof (lev_ge_diff (rev a) (rev b)) as Hd.
  pose proof (lev_le_max (rev a) (rev b)) as Hm.
  rewrite !length_rev in Hd, Hm. repeat split; try lia.
  - intros H%lev_zero. by rewrite <- (rev_involutive a), H, rev_involutive.
  - intros ->. apply lev_refl.
Qed.

(** ** Characters *)

Lemma toLowerChar_idem c : toLowerChar (toLowerChar c) = toLowerChar c.
Proof. destruct c as [[] [] [] [] [] [] [] []]; reflexivity. Qed.

Lemma isLetter_toLowerChar c : isLetter (toLowerChar c) = isLetter c.
Proof. destruct c as [[] [] [] [] [] [] [] []]; reflexivity. Qed.

Lemma isSpace_toLowerChar c : isSpace (toLowerChar c) = isSpace c.
Proof. destruct c as [[] [] [] [] [] [] [] []]; reflexivity. Qed.

Lemma isLetter_lower c : isLetter c = true -> isLowerLetter (toLowerChar c) = true.
Proof. destruct c as [[] [] [] [] [] [] [] []]; done. Qed.

Lemma toLowerCase_idem s : toLowerCase (toLowerCase s) = toLowerCase s.
Proof.
  unfold toLowerCase. rewrite map_map. apply map_ext. apply toLowerChar_idem.
Qed.

(** ** Where the title words lie *)

Lemma execAll_runs full : forall title i cur,
  drop i full = title ->
  match cur with
  | Some (s, run) =>
      s + length run = i /\ run <> [] /\
      take (length run) (drop s full) = run /\
      Forall (fun c => isLetter c = true) run /\
      (s = 0 \/ exists o, full !! (s - 1) = Some o /\ isLetter o = false)
  | None => i = 0 \/ exists o, full !! (i - 1) = Some o /\ isLetter o = false
  end ->
  Forall (isRun full) (execAll i cur title).
Proof.
  induction title as [|c rest IH]; intros i cur Hdrop Hcur; simpl.
  - destruct cur as [[s run]|]; [|constructor].
    destruct Hcur as (Hi & Hne & Htake & Hall & Hleft).
    constructor; [|constructor]. repeat split; simpl; auto.
    intros o Ho. rewrite Hi in Ho.
    rewrite <- (Nat.add_0_r i), <- lookup_drop, Hdrop in Ho. done.
  - apply drop_cons_inv in Hdrop as [Hc Hdrop].
    destruct (isLetter c) eqn:Hletter.
    + destruct cur as [[s run]|].
      * destruct Hcur as (Hi & Hne & Htake & Hall & Hleft).
        apply IH; [done|]. rewrite length_app. simpl.
        split; [lia|]. split; [by destruct run|]. split; [|split; [|done]].
        -- rewrite Nat.add_1_r, (take_S_r _ _ c).
           ++ by rewrite Htake.
           ++ rewrite lookup_drop. by rewrite Hi.
        -- apply Forall_app. split; [done|]. by constructor.
      * apply IH; [done|]. simpl. split; [lia|]. split; [done|].
        split; [|split; [by repeat constructor|]].
        -- by rewrite (drop_S _ _ _ Hc).
        -- destruct Hcur as [->|Hcur]; [by left|by right].
    + assert (Hnone : S i = 0 \/ exists o, full !! (S i - 1) = Some o /\ isLetter o = false).
      { right. exists c. by rewrite Nat.sub_1_r. }
      destruct cur as [[s run]|]; [|by apply IH].
      destruct Hcur as (Hi & Hne & Htake & Hall & Hleft).
      constructor; [|by apply IH]. repeat split; simpl; auto.
      intros o Ho. rewrite Hi in Ho. congruence.
Qed.

Lemma execAll_positions title : forall i cur,
  (forall s run, cur = Some (s, run) -> s + length run = i) ->
  concat (map matchRange (execAll i cur title))
  = match cur with Some m => matchRange m | None => [] end
    ++ fst (collectLetters i title).
Proof.
  induction title as [|c rest IH]; intros i cur Hcur; simpl.
  - destruct cur; simpl; by rewrite ?app_nil_r.
  - pose proof (IH (S i)) as IH'.
    destruct (collectLetters (S i) rest) as [ps ls]. simpl in IH'.
    destruct (isLetter c); destruct cur as [[s run]|]; simpl.
    + rewrite IH'.
      * unfold matchRange. simpl. rewrite length_app. simpl.
        rewrite seq_app. simpl. rewrite (Hcur s run eq_refl).
        by rewrite <- app_assoc.
      * intros ? ? [= <- <-]. rewrite length_app. simpl.
        specialize (Hcur s run eq_refl). lia.
    + rewrite IH'; [done|]. intros ? ? [= <- <-]. simpl. lia.
    + rewrite IH'; [done|done].
    + rewrite IH'; [done|done].
Qed.

Lemma buildWords_elem ms : forall k w,
  w ∈ buildWords k ms ->
  k <= letterStartIndex w /\
  exists m, m ∈ ms /\ startIndex w = fst m /\ tw_word w = toLowerCase (snd m).
Proof.
  induction ms as [|[idx text] ms IH]; intros k w; simpl.
  - by intros ?%elem_of_nil.
  - intros [->|Hw]%elem_of_cons.
    + simpl. split; [lia|]. exists (idx, text). split; [left|done].
    + apply IH in Hw as (Hk & m & Hm & ?). split; [lia|].
      exists m. split; [by right|done].
Qed.

Lemma buildWords_positions ms : forall k w j,
  w ∈ buildWords k ms -> j < length (tw_word w) ->
  concat (map matchRange ms) !! (letterStartIndex w - k + j) = Some (startIndex w + j).
Proof.
  induction ms as [|[idx text] ms IH]; intros k w j; simpl.
  - by intros ?%elem_of_nil.
  - intros [->|Hw]%elem_of_cons Hj.
    + simpl in *. rewrite toLowerCase_length in Hj.
      rewrite Nat.sub_diag. simpl. rewrite lookup_app_l.
      * unfold matchRange. simpl. by apply lookup_seq_lt.
      * unfold matchRange. simpl. by rewrite length_seq.
    + pose proof (buildWords_elem _ _ _ Hw) as [Hk _].
      rewrite toLowerCase_length in Hk.
      rewrite lookup_app_r.
      * unfold matchRange at 1. simpl. rewrite length_seq.
        rewrite <- (IH _ w j Hw Hj). f_equal. rewrite toLowerCase_length. lia.
      * unfold matchRange. simpl. rewrite length_seq. lia.
Qed.

Lemma analyze_runs title : Forall (isRun title) (execAll 0 None title).
Proof. apply (execAll_runs title title 0 None); [done|by left]. Qed.

Lemma analyze_positions_runs title :
  letterPositions (analyzeTitleTitle title)
  = concat (map matchRange (execAll 0 None title)).
Proof.
  destruct (analyze_fields title) as (-> & _).
  by rewrite (execAll_positions title 0 None).
Qed.

Lemma analyze_word_letter title w j c :
  w ∈ words (analyzeTitleTitle title) -> tw_word w !! j = Some c ->
  letters (analyzeTitleTitle title) !! (letterStartIndex w + j) = Some c.
Proof.
  intros Hw Hj.
  pose proof (analyze_tiles title) as Ht.
  assert (Hlen : Forall (fun w => letterEndIndex w - letterStartIndex w
                                  = length (tw_word w))
                        (words (analyzeTitleTitle title))).
  { destruct (analyze_fields title) as (_ & _ & -> & _). apply buildWords_wordLength. }
  pose proof (tiles_slices _ 0 _ (letters (analyzeTitleTitle title)) Ht Hlen) as Hs.
  rewrite Forall_forall in Hs. specialize (Hs (eq_sym (analyze_words_text title)) w Hw).
  rewrite <- Hj, <- Hs, lookup_take_lt, lookup_drop; [done|].
  by eapply lookup_lt_Some.
Qed.

(** Every title word is a maximal run of letters of the title: it stands
    at [startIndex], lowercased, with no letter directly before or after
    it, and its letters are the letter positions from [letterStartIndex]
    on, which map back to the consecutive title positions from
    [startIndex] on. *)
Theorem title_words_located (title : jsstring) (w : TitleWord) :
  w ∈ words (analyzeTitleTitle title) ->
  (forall j c, tw_word w !! j = Some c ->
     letterPositions (analyzeTitleTitle title) !! (letterStartIndex w + j)
     = Some (startIndex w + j) /\
     letters (analyzeTitleTitle title) !! (letterStartIndex w + j) = Some c /\
     exists o, title !! (startIndex w + j) = Some o /\ isLetter o = true /\
               c = toLowerChar o) /\
  (startIndex w = 0 \/
   exists o, title !! (startIndex w - 1) = Some o /\ isLetter o = false) /\
  (forall o, title !! (startIndex w + length (tw_word w)) = Some o ->
             isLetter o = false).
Proof.
  intros Hw. pose proof Hw as Hw0.
  destruct (analyze_fields title) as (_ & _ & Hwords & _). rewrite Hwords in Hw.
  pose proof (buildWords_elem _ _ _ Hw) as (_ & [s run] & Hm & Hstart & Hword).
  simpl in Hstart, Hword.
  pose proof (analyze_runs title) as Hruns. rewrite Forall_forall in Hruns.
  destruct (Hruns _ Hm) as (Htake & Hall & Hleft & Hright). simpl in *.
  rewrite Hstart, Hword, toLowerCase_length. split; [|split; [done|done]].
  intros j c Hj.
  assert (Hjlt : j < length run).
  { apply lookup_lt_Some in Hj. by rewrite toLowerCase_length in Hj. }
  split; [|split].
  - rewrite analyze_positions_runs.
    pose proof (buildWords_positions _ 0 w j Hw) as Hp.
    rewrite Nat.sub_0_r, Hstart, Hword, toLowerCase_length in Hp. by apply Hp.
  - apply analyze_word_letter; [done|]. by rewrite Hword.
  - unfold toLowerCase in Hj. rewrite list_lookup_fmap in Hj.
    destruct (run !! j) as [o|] eqn:Ho; [|done]. injection Hj as <-.
    exists o. split; [|split; [|done]].
    + rewrite <- Htake, lookup_take_lt, lookup_drop in Ho; done.
    + rewrite Forall_forall in Hall. apply Hall. by eapply list_elem_of_lookup_2.
Qed.

Lemma firstChars_lookup ws : forall i w,
  Forall (fun w => tw_word w <> []) ws -> ws !! i = Some w ->
  concat (map firstChar ws) !! i = head (tw_word w).
Proof.
  induction ws as [|v ws IH]; intros i w Hne Hi; [done|].
  inversion Hne as [|? ? Hv Hws]; subst. simpl.
  unfold firstChar at 1. destruct (tw_word v) as [|c t] eqn:Hc; [done|]. simpl.
  destruct i as [|i]; simpl in *.
  - injection Hi as <-. by rewrite Hc.
  - by apply IH.
Qed.

Lemma analyze_words_nonempty_words title :
  Forall (fun w => tw_word w <> []) (words (analyzeTitleTitle title)).
Proof.
  destruct (analyze_fields title) as (_ & _ & -> & _).
  apply buildWords_nonempty, analyze_runs_nonempty.
Qed.

(** [letters] holds only the letters [a]-[z], and [initials] holds, for
    each title word in order, the letter at its [letterStartIndex]. *)
Theorem analyzer_letters_initials (title : jsstring) :
  let ti := analyzeTitleTitle title in
  Forall (fun c => isLowerLetter c = true) (letters ti) /\
  forall i w, words ti !! i = Some w ->
    exists c, initials ti !! i = Some c /\
              letters ti !! letterStartIndex w = Some c /\
              head (tw_word w) = Some c /\ isLowerLetter c = true.
Proof.
  intros ti. subst ti.
  assert (Hlow : Forall (fun c => isLowerLetter c = true)
                        (letters (analyzeTitleTitle title))).
  { destruct (analyze_fields title) as (_ & -> & _).
    rewrite collectLetters_letters. unfold toLowerCase.
    apply Forall_fmap, Forall_forall. intros c Hc%list_elem_of_In.
    apply List.filter_In in Hc as [_ Hc]. simpl. by apply isLetter_lower. }
  split; [done|]. intros i w Hi.
  pose proof (analyze_words_nonempty_words title) as Hne.
  destruct (analyze_fields title) as (_ & _ & _ & Hinit & _).
  assert (Hin : w ∈ words (analyzeTitleTitle title))
    by by eapply list_elem_of_lookup_2.
  rewrite Forall_forall in Hne. pose proof (Hne w Hin) as Hw.
  destruct (tw_word w) as [|c t] eqn:Hc; [done|].
  pose proof (analyze_word_letter title w 0 c Hin) as Hl.
  rewrite Hc, Nat.add_0_r in Hl. specialize (Hl eq_refl). exists c. split; [|split; [done|split; [done|]]].
  - rewrite Hinit.
    destruct (analyze_fields title) as (_ & _ & <- & _).
    rewrite (firstChars_lookup _ i w); [by rewrite Hc| |done].
    apply Forall_forall, Hne.
  - rewrite Forall_forall in Hlow. apply Hlow. by eapply list_elem_of_lookup_2.
Qed.

(** ** Letter case *)

Lemma collectLetters_alike title title' :
  sameLetters title title' ->
  forall i, collectLetters i title = collectLetters i title'.
Proof.
  induction 1 as [|c c' rest rest' [Hl Hc] _ IH]; intros i; simpl; [done|].
  rewrite IH, <- Hl. destruct (isLetter c); [|done]. by rewrite Hc.
Qed.

Lemma execAll_alike title title' :
  sameLetters title title' ->
  forall i cur cur',
    prod_map id toLowerCase <$> cur = prod_map id toLowerCase <$> cur' ->
    prod_map id toLowerCase <$> execAll i cur title
    = prod_map id toLowerCase <$> execAll i cur' title'.
Proof.
  induction 1 as [|c c' rest rest' [Hl Hc] _ IH]; intros i cur cur' Hcur; simpl.
  - destruct cur as [[s run]|], cur' as [[s' run']|]; simpl in *; congruence.
  - rewrite <- Hl. destruct (isLetter c) eqn:Hlet.
    + specialize (Hc eq_refl).
      destruct cur as [[s run]|], cur' as [[s' run']|]; simpl in Hcur; try done.
      * apply IH. simpl. injection Hcur as -> Hrun. unfold toLowerCase in *.
        rewrite !map_app, Hrun. simpl. by rewrite Hc.
      * apply IH. simpl. by rewrite Hc.
    + destruct cur as [[s run]|], cur' as [[s' run']|]; simpl in Hcur; try done.
      * injection Hcur as Hs Hrun. rewrite !fmap_cons.
        f_equal; [unfold prod_map; simpl; by rewrite Hs, Hrun|by apply IH].
      * by apply IH.
Qed.

Lemma buildWords_lower ms : forall k,
  buildWords k (prod_map id toLowerCase <$> ms) = buildWords k ms.
Proof.
  induction ms as [|[idx text] ms IH]; intros k; simpl; [done|].
  rewrite toLowerCase_idem. f_equal. apply IH.
Qed.

(** The analysis reads a title only through the places of its letters
    and their lowercase forms: two titles that hold the same letters, up
    to case, at the same positions give the same [letters],
    [letterPositions], [words] and [initials], and the matcher returns
    the same for both. *)
Theorem analyze_case_insensitive (title title' : jsstring) :
  sameLetters title title' ->
  let ti := analyzeTitleTitle title in
  let ti' := analyzeTitleTitle title' in
  letters ti' = letters ti /\ letterPositions ti' = letterPositions ti /\
  words ti' = words ti /\ initials ti' = initials ti /\
  forall w, findWordInTitle ti' w = findWordInTitle ti w.
Proof.
  intros Hsame ti ti'. subst ti ti'.
  destruct (analyze_fields title) as (Hp & Hl & Hw & Hi & _).
  destruct (analyze_fields title') as (Hp' & Hl' & Hw' & Hi' & _).
  assert (Hwords : words (analyzeTitleTitle title') = words (analyzeTitleTitle title)).
  { rewrite Hw, Hw'.
    rewrite <- (buildWords_lower (execAll 0 None title')),
            <- (buildWords_lower (execAll 0 None title)).
    by rewrite (execAll_alike title title' Hsame 0 None None). }
  assert (Hletters : letters (analyzeTitleTitle title') = letters (analyzeTitleTitle title)).
  { by rewrite Hl, Hl', (collectLetters_alike title title' Hsame). }
  assert (Hpos : letterPositions (analyzeTitleTitle title')
                 = letterPositions (analyzeTitleTitle title)).
  { by rewrite Hp, Hp', (collectLetters_alike title title' Hsame). }
  repeat split; try done.
  - rewrite Hi, Hi'. rewrite Hw, Hw' in Hwords. by rewrite Hwords.
  - intros w. unfold findWordInTitle. by rewrite Hletters, Hpos.
Qed.

Lemma analyze_case_insensitive_witness :
  words (analyzeTitleTitle (str "cAT-dOG")) = words (analyzeTitleTitle (str "Cat Dog")).
Proof.
  assert (H : sameLetters (str "Cat Dog") (str "cAT-dOG")).
  { unfold sameLetters.
    repeat (constructor;
            [split; [reflexivity|];
             first [intros _; reflexivity|intros E; vm_compute in E; discriminate E]|]).
    constructor. }
  exact (proj1 (proj2 (proj2 (analyze_case_insensitive _ _ H)))).
Defined.



(** ** The exact matches *)

Lemma startsWith_prefix s : forall p,
  startsWith s p = true <-> exists post, s = p ++ post.
Proof.
  induction s as [|b s IH]; intros [|a p]; simpl.
  - split; [by exists []|done].
  - split; [done|]. by intros [post ?].
  - split; [by eexists|done].
  - destruct (decide (a = b)) as [->|Hne].
    + rewrite IH. split; intros [post Hpost]; exists post; congruence.
    + split; [done|]. intros [post [= ? ?]]. congruence.
Qed.

(** [includes s p] holds exactly when [p] occurs in [s] as a block. *)
Lemma includes_infix s : forall p,
  includes s p = true <-> exists pre post, s = pre ++ p ++ post.
Proof.
  induction s as [|b s IH]; intros p.
  - cbn [includes]. rewrite orb_false_r, startsWith_prefix. split.
    + intros [post ->]. by exists [], post.
    + intros (pre & post & H). destruct pre; [|done]. by exists post.
  - cbn [includes]. rewrite orb_true_iff, startsWith_prefix, IH. split.
    + intros [[post ->]|(pre & post & ->)]; [by exists [], post|].
      by exists (b :: pre), post.
    + intros ([|c pre] & post & H).
      * left. by exists post.
      * right. injection H as -> ->. by exists pre, post.
Qed.

Lemma findWordInTitle_length titleInfo w idxs :
  findWordInTitle titleInfo w = Some idxs ->
  length w <= length (letters titleInfo).
Proof.
  unfold findWordInTitle. rewrite toLowerCase_length.
  destruct (Nat.ltb_spec (length (letters titleInfo)) (length w)); [done|lia].
Qed.

Lemma exactOfB_iff titleInfo minLen searchLower w m :
  exactOfB titleInfo minLen searchLower w = Some m <->
  minLen <= length w /\
  (searchLower = [] \/ includes w searchLower = true) /\
  exists idxs, findWordInTitle titleInfo w = Some idxs /\
    m = mkWordMatch w idxs (MatchingB.calculateNiceness titleInfo w idxs)
          Exact None None.
Proof.
  unfold exactOfB. split.
  - destruct (Nat.ltb_spec (length w) minLen); [done|].
    destruct (_ <? _); [done|].
    destruct searchLower as [|c sl]; simpl.
    + destruct (findWordInTitle titleInfo w) as [idxs|]; [|done].
      intros [= <-]. eauto 10.
    + destruct (includes w (c :: sl)); simpl; [|done].
      destruct (findWordInTitle titleInfo w) as [idxs|]; [|done].
      intros [= <-]. eauto 10.
  - intros (Hmin & Hterm & idxs & Hfind & ->).
    pose proof (findWordInTitle_length _ _ _ Hfind).
    destruct (Nat.ltb_spec (length w) minLen); [lia|].
    destruct (Nat.ltb_spec (length (letters titleInfo)) (length w)); [lia|].
    rewrite Hfind.
    destruct Hterm as [Ht|Ht]; rewrite Ht; [done|]. by rewrite andb_false_r.
Qed.

(** The exact list holds only dictionary words that are at least
    [minLength] long, contain the trimmed, lowercased search term (when
    there is one) and are found in the title, each with the indices and
    the niceness that the matcher and the scorer give for it; when the
    list has room for the whole dictionary, every such word is in it. *)
Theorem exact_matches_characterised (C : Collator) (titleInfo : TitleInfo)
    (allWords : list jsstring) (wordSet : gset jsstring) (options : Options) :
  let term := toLowerCase (trim (searchTerm options)) in
  let found w idxs :=
    w ∈ allWords /\ minLength options <= length w /\
    (term = [] \/ exists pre post, w = pre ++ term ++ post) /\
    findWordInTitle titleInfo w = Some idxs in
  (forall m,
     m ∈ exact_ (MatchingB.findAllMatches titleInfo allWords wordSet options) ->
     found (word m) (indices m) /\
     length (word m) <= length (letters titleInfo) /\
     m = mkWordMatch (word m) (indices m)
           (MatchingB.calculateNiceness titleInfo (word m) (indices m))
           Exact None None) /\
  (length allWords <= maxResults options ->
   forall w idxs, found w idxs ->
     mkWordMatch w idxs (MatchingB.calculateNiceness titleInfo w idxs) Exact None None
     ∈ exact_ (MatchingB.findAllMatches titleInfo allWords wordSet options)).
Proof.
  intros term found. split.
  - intros m (w & Hw & Hm)%exactB_elem.
    apply exactOfB_iff in Hm as (Hmin & Hterm & idxs & Hfind & ->). simpl.
    split; [|split; [by eapply findWordInTitle_length|done]].
    repeat split; try done.
    destruct Hterm as [?|Hinc%includes_infix]; [by left|by right].
  - intros Hroom w idxs (Hw & Hmin & Hterm & Hfind). simpl.
    rewrite take_ge.
    + apply elem_of_sortBy. rewrite exactLoopB_omap. apply list_elem_of_omap.
      exists w. split; [done|]. apply exactOfB_iff.
      split; [done|]. split; [|by exists idxs].
      destruct Hterm as [?|Hinc%includes_infix]; [by left|by right].
    + rewrite (Permutation_length (sortBy_Permutation _ _)), exactLoopB_omap.
      etrans; [apply omap_length_le|done].
Qed.

Lemma sortBy_length {A} (cmp : A -> A -> comparison) l :
  length (sortBy cmp l) = length l.
Proof. apply Permutation_length, sortBy_Permutation. Qed.

Lemma filter_length_le {A} (P : A -> Prop) `{forall x, Decision (P x)} (l : list A) :
  length (filter P l) <= length l.
Proof. apply length_filter. Qed.

Lemma generateCompoundMatches_length `{Collator} titleInfo exactMatches wordSet
    searchLower minWordLength maxRes minComponentLength poolSize :
  length (MatchingB.generateCompoundMatches titleInfo exactMatches wordSet
            searchLower minWordLength maxRes minComponentLength poolSize) <= maxRes.
Proof.
  unfold MatchingB.generateCompoundMatches.
  destruct (_ <=? _); [simpl; lia|]. destruct (_ <? _); [simpl; lia|].
  rewrite length_take. lia.
Qed.

(** No list is longer than its limit: the exact list has at most
    [maxResults] entries and at most one per dictionary word; the
    generated compounds are at most [max(1, floor(maxResults / 2))]; the
    compounds and the near matches of the other version are at most
    [floor(maxResults / 2)] each. *)
Theorem result_sizes (C : Collator) (titleInfo : TitleInfo)
    (allWords : list jsstring) (wordSet : gset jsstring) (options : Options) :
  let a := MatchingA.findAllMatches titleInfo allWords wordSet options in
  let b := MatchingB.findAllMatches titleInfo allWords wordSet options in
  length (exact_ a) <= Nat.min (maxResults options) (length allWords) /\
  length (exact_ b) <= Nat.min (maxResults options) (length allWords) /\
  length (compound_ b) <= Nat.max 1 (maxResults options / 2) /\
  length (compound_ a) <= maxResults options / 2 /\
  length (near_ a) <= maxResults options / 2.
Proof.
  intros a b. subst a b. cbn [exact_ compound_ near_ MatchingA.findAllMatches
    MatchingB.findAllMatches]. cbv zeta.
  rewrite !length_take, !sortBy_length, exactLoopA_omap, exactLoopB_omap.
  pose proof (omap_length_le (exactOfA titleInfo (minLength options) (searchTerm options)
                (toLowerCase (searchTerm options))) allWords).
  pose proof (omap_length_le (exactOfB titleInfo (minLength options)
                (toLowerCase (trim (searchTerm options)))) allWords).
  split; [lia|]. split; [lia|]. split; [|split].
  - destruct (includeCompounds options); [|simpl; lia].
    etrans; [apply filter_length_le|]. apply generateCompoundMatches_length.
  - destruct (includeCompounds options); [|simpl; lia].
    rewrite length_take. lia.
  - destruct (includeNearMatches options); [|simpl; lia].
    unfold MatchingA.findNearMatches. destruct (_ <? _); [simpl; lia|].
    rewrite length_take. lia.
Qed.

(** ** Titles without letters *)

Lemma collectLetters_no_letters title : forall i,
  Forall (fun c => isLetter c = false) title -> collectLetters i title = ([], []).
Proof.
  induction title as [|c rest IH]; intros i H; simpl; [done|].
  inversion H as [|? ? Hc Hrest]; subst. by rewrite (IH (S i) Hrest), Hc.
Qed.

Lemma execAll_no_letters title : forall i,
  Forall (fun c => isLetter c = false) title -> execAll i None title = [].
Proof.
  induction title as [|c rest IH]; intros i H; simpl; [done|].
  inversion H as [|? ? Hc Hrest]; subst. rewrite Hc. by apply IH.
Qed.

Lemma exactLoopA_no_letters titleInfo minLen term searchLower allWords :
  letters titleInfo = [] -> 1 <= minLen ->
  MatchingA.exactLoop titleInfo minLen term searchLower allWords = [].
Proof.
  intros Hl Hmin. induction allWords as [|w rest IH]; simpl; [done|].
  rewrite IH, Hl. destruct (Nat.ltb_spec (length w) minLen); [done|].
  simpl. destruct (Nat.ltb_spec 0 (length w)); [done|lia].
Qed.

Lemma exactLoopB_no_letters titleInfo minLen searchLower allWords :
  letters titleInfo = [] -> 1 <= minLen ->
  MatchingB.exactLoop titleInfo minLen searchLower allWords = [].
Proof.
  intros Hl Hmin. induction allWords as [|w rest IH]; simpl; [done|].
  rewrite IH, Hl. destruct (Nat.ltb_spec (length w) minLen); [done|].
  simpl. destruct (Nat.ltb_spec 0 (length w)); [done|lia].
Qed.

Lemma compoundLoop_no_letters titleInfo wordSet maxRes allWords : forall seen,
  letters titleInfo = [] ->
  MatchingA.compoundLoop titleInfo wordSet 3 maxRes allWords [] seen = [].
Proof.
  intros seen Hl. induction allWords as [|w rest IH]; simpl; [done|].
  rewrite Hl. destruct (Nat.ltb_spec (length w) 6); [done|].
  simpl. destruct (Nat.ltb_spec 0 (length w)); [done|lia].
Qed.

(** A title without any letter gives empty [letters], [words] and
    [initials], and with a minimum length of 1 or more every category of
    both searches is empty. *)
Theorem title_without_letters (C : Collator) (title : jsstring)
    (allWords : list jsstring) (wordSet : gset jsstring) (options : Options) :
  Forall (fun c => isLetter c = false) title ->
  analyzeTitleTitle title = mkTitleInfo title [] [] [] [] /\
  (1 <= minLength options ->
   MatchingA.findAllMatches (analyzeTitleTitle title) allWords wordSet options
   = mkResults [] [] [] /\
   MatchingB.findAllMatches (analyzeTitleTitle title) allWords wordSet options
   = mkResults [] [] []).
Proof.
  intros Hno.
  assert (Hti : analyzeTitleTitle title = mkTitleInfo title [] [] [] []).
  { unfold analyzeTitleTitle.
    by rewrite (collectLetters_no_letters _ 0 Hno), (execAll_no_letters _ 0 Hno). }
  split; [done|]. intros Hmin. rewrite Hti. split.
  - unfold MatchingA.findAllMatches.
    rewrite exactLoopA_no_letters by done.
    unfold MatchingA.findCompoundWords. rewrite compoundLoop_no_letters by done.
    assert (Hnear : forall n,
      MatchingA.findNearMatches (mkTitleInfo title [] [] [] []) allWords 2 n = [])
      by reflexivity.
    cbn [sortBy foldr]. rewrite Hnear, filter_nil, !take_nil.
    by destruct (includeCompounds options), (includeNearMatches options).
  - unfold MatchingB.findAllMatches.
    rewrite exactLoopB_no_letters by done. cbn [sortBy foldr]. rewrite take_nil.
    destruct (includeCompounds options); [|done].
    unfold MatchingB.generateCompoundMatches. rewrite ?filter_nil.
    destruct (_ <=? _); by rewrite ?filter_nil.
Qed.

Lemma title_without_letters_witness :
  Forall (fun c => isLetter c = false) (str "2024 - 17!") /\
  @MatchingB.findAllMatches codeUnitCompare (analyzeTitleTitle (str "2024 - 17!"))
    [str "cat"] ∅ (mkOptions 1 10 [] true true)
  = mkResults [] [] [].
Proof.
  assert (H : Forall (fun c => isLetter c = false) (str "2024 - 17!"))
    by (repeat constructor).
  split; [exact H|].
  destruct (title_without_letters codeUnitCompare (str "2024 - 17!") [str "cat"] ∅
              (mkOptions 1 10 [] true true) H) as [_ H2].
  apply H2. simpl. lia.
Defined.

(** ** What a near match is *)

Lemma isLowerLetter_fixed c : isLowerLetter c = true -> toLowerChar c = c.
Proof. destruct c as [[] [] [] [] [] [] [] []]; done. Qed.

Lemma toLowerCase_fixed s :
  Forall (fun c => isLowerLetter c = true) s -> toLowerCase s = s.
Proof.
  induction 1 as [|c s Hc _ IH]; simpl; [done|].
  by rewrite (isLowerLetter_fixed c Hc), IH.
Qed.

Lemma analyze_words_lower title :
  Forall (fun w => Forall (fun c => isLowerLetter c = true) (tw_word w))
         (words (analyzeTitleTitle title)).
Proof.
  destruct (analyze_fields title) as (_ & _ & -> & _).
  apply Forall_forall. intros w Hw.
  apply buildWords_elem in Hw as (_ & [s run] & Hm & _ & ->). simpl.
  pose proof (analyze_runs title) as Hruns. rewrite Forall_forall in Hruns.
  destruct (Hruns _ Hm) as (_ & Hall & _). simpl in Hall.
  unfold toLowerCase. apply Forall_fmap. eapply Forall_impl; [exact Hall|].
  intros c Hc. simpl. by apply isLetter_lower.
Qed.

Lemma analyze_initials_lower title :
  toLowerCase (initials (analyzeTitleTitle title)) = initials (analyzeTitleTitle title).
Proof.
  apply toLowerCase_fixed.
  pose proof (analyze_words_lower title) as Hlow.
  destruct (analyze_fields title) as (_ & _ & <- & -> & _).
  induction Hlow as [|w ws Hw _ IH]; simpl; [constructor|].
  apply Forall_app. split; [|done]. unfold firstChar.
  destruct (tw_word w) as [|c t]; [constructor|].
  inversion Hw; subst. by repeat constructor.
Qed.

Lemma analyze_initials_length title :
  length (initials (analyzeTitleTitle title))
  = length (words (analyzeTitleTitle title)).
Proof.
  destruct (analyze_fields title) as (_ & _ & -> & -> & _).
  apply firstChars_length, buildWords_nonempty, analyze_runs_nonempty.
Qed.

Lemma nearLoop_nearOf titleInfo inits maxEditDistance maxRes m :
  forall allWords results,
  m ∈ MatchingA.nearLoop titleInfo inits maxEditDistance maxRes allWords results ->
  m ∈ results \/
  exists w, w ∈ allWords /\
    Nat.max 2 (length inits - maxEditDistance) <= length w /\
    length w <= length inits + maxEditDistance + 2 /\
    0 < MatchingA.editDistance (toLowerCase w) inits <= maxEditDistance /\
    m = nearOf titleInfo inits maxEditDistance w.
Proof.
  induction allWords as [|w rest IH]; intros results; cbn [MatchingA.nearLoop];
    [auto|]. cbv zeta.
  assert (Hnext : forall rs,
    m ∈ MatchingA.nearLoop titleInfo inits maxEditDistance maxRes rest rs ->
    m ∈ rs \/
    exists v, v ∈ w :: rest /\
      Nat.max 2 (length inits - maxEditDistance) <= length v /\
      length v <= length inits + maxEditDistance + 2 /\
      0 < MatchingA.editDistance (toLowerCase v) inits <= maxEditDistance /\
      m = nearOf titleInfo inits maxEditDistance v).
  { intros rs [?|(v & Hv & ?)]%IH; [by left|right]. exists v. split; [by right|done]. }
  destruct (Nat.ltb_spec (length w) (Nat.max 2 (length inits - maxEditDistance)));
    [apply Hnext|].
  destruct (Nat.ltb_spec (length inits + maxEditDistance + 2) (length w));
    [apply Hnext|]. cbn [orb].
  set (d := MatchingA.editDistance (toLowerCase w) inits).
  destruct (Nat.ltb_spec 0 d) as [Hpos|]; cbn [andb].
  2:{ destruct (_ <=? _); [auto|apply Hnext]. }
  destruct (Nat.leb_spec d maxEditDistance) as [Hle|].
  2:{ destruct (_ <=? _); [auto|apply Hnext]. }
  destruct (findWordInTitle titleInfo w) as [idxs|] eqn:Hfind; [apply Hnext|].
  assert (Hin : m ∈ results ++ [nearOf titleInfo inits maxEditDistance w] ->
    m ∈ results \/
    exists v, v ∈ w :: rest /\
      Nat.max 2 (length inits - maxEditDistance) <= length v /\
      length v <= length inits + maxEditDistance + 2 /\
      0 < MatchingA.editDistance (toLowerCase v) inits <= maxEditDistance /\
      m = nearOf titleInfo inits maxEditDistance v).
  { intros [?|Hx]%elem_of_app; [auto|].
    apply list_elem_of_singleton in Hx as ->. right. exists w.
    split; [left|]. unfold d in *. repeat split; try done; try lia. }
  change (mkWordMatch w _ _ Near None (Some d))
    with (nearOf titleInfo inits maxEditDistance w).
  destruct (_ <=? _); [exact Hin|].
  intros [?|?]%Hnext; auto.
Qed.

Lemma Qfloor_half (z : Z) : Qfloor (inject_Z z + (1 # 2)) = z.
Proof.
  pose proof (Qfloor_le (inject_Z z + (1 # 2))) as Hle.
  pose proof (Qlt_floor (inject_Z z + (1 # 2))) as Hlt.
  rewrite inject_Z_plus in Hlt. change (inject_Z 1) with 1%Q in Hlt.
  assert (H1 : (Qfloor (inject_Z z + (1 # 2)) < z + 1)%Z).
  { rewrite Zlt_Qlt, inject_Z_plus. change (inject_Z 1) with 1%Q. lra. }
  assert (H2 : (z < Qfloor (inject_Z z + (1 # 2)) + 1)%Z).
  { rewrite Zlt_Qlt, inject_Z_plus. change (inject_Z 1) with 1%Q. lra. }
  lia.
Qed.

(** Rounding keeps a value within hundredths that bound it. *)
Lemma round2_range (x : Q) (lo hi : Z) :
  (inject_Z lo <= x * 100)%Q -> (x * 100 <= inject_Z hi)%Q ->
  hundredths lo hi (round2 (Fin x)).
Proof.
  intros Hlo Hhi. exists (Qfloor (x * 100 + (1 # 2))). split; [apply round2_Fin|].
  split.
  - rewrite <- (Qfloor_Z lo). apply Qfloor_resp_le. lra.
  - rewrite <- (Qfloor_half hi). apply Qfloor_resp_le. lra.
Qed.

Lemma ratio_unit (d n : nat) :
  d <= n -> 0 < n ->
  (0 <= inject_Z (Z.of_nat d) / inject_Z (Z.of_nat n) <= 1)%Q.
Proof.
  intros Hd Hn.
  assert (Hpos : (0 < inject_Z (Z.of_nat n))%Q) by (rewrite <- (Zlt_Qlt 0); lia).
  split.
  - apply Qle_shift_div_l; [done|]. rewrite Qmult_0_l, <- (Zle_Qle 0). lia.
  - apply Qle_shift_div_r; [done|]. rewrite Qmult_1_l, <- Zle_Qle. lia.
Qed.

Lemma ndiv_ofNat_ofNat d n :
  0 < n ->
  ndiv (ofNat d) (ofNat n)
  = Fin (inject_Z (Z.of_nat d) / inject_Z (Z.of_nat n)).
Proof. intros H. unfold ofNat at 1. by apply ndiv_ofNat_pos. Qed.

Lemma nearOf_niceness titleInfo inits maxEditDistance w :
  0 < MatchingA.editDistance (toLowerCase w) inits <= maxEditDistance ->
  hundredths 0 5000 (niceness (nearOf titleInfo inits maxEditDistance w)).
Proof.
  intros [Hpos Hle]. unfold nearOf. cbv zeta. cbn [niceness].
  set (d := MatchingA.editDistance (toLowerCase w) inits) in *.
  rewrite !ndiv_ofNat_ofNat by lia.
  pose proof (ratio_unit d (maxEditDistance + 1)) as Hr.
  destruct Hr as [Hr0 Hr1]; [lia|lia|].
  set (r := (inject_Z (Z.of_nat d) / inject_Z (Z.of_nat (maxEditDistance + 1)))%Q) in *.
  cbn [nsub nopp nadd].
  destruct (MatchingA.containsSubsequence _ _), (bool_decide _); cbn [nadd nmin];
    (match goal with
     | |- context [Qle_bool ?q 1] => destruct (Qle_bool q 1) eqn:Hq1
     end; cbn [nmul];
     [apply Qle_bool_iff in Hq1|]; apply round2_range; unfold inject_Z; lra).
Qed.

Lemma sublist_StronglySorted {A} (R : A -> A -> Prop) l1 l2 :
  l1 `sublist_of` l2 -> StronglySorted R l2 -> StronglySorted R l1.
Proof.
  induction 1 as [|x l1 l2 Hsub IH|x l1 l2 Hsub IH]; intros Hs; [done| |].
  - inversion Hs as [|? ? Hs' Hx]; subst. constructor; [by apply IH|].
    rewrite Forall_forall in *. intros y Hy. apply Hx.
    by apply (sublist_subseteq _ _ Hsub).
  - inversion Hs; subst. by apply IH.
Qed.

Lemma lookup_StronglySorted {A} (R : A -> A -> Prop) l :
  (forall i j a b, i < j -> l !! i = Some a -> l !! j = Some b -> R a b) ->
  StronglySorted R l.
Proof.
  induction l as [|x l IH]; intros H; constructor.
  - apply IH. intros i j a b Hij Hi Hj. apply (H (S i) (S j)); auto. lia.
  - apply Forall_forall. intros y [j Hj]%list_elem_of_lookup_1.
    apply (H 0 (S j)); auto. lia.
Qed.

Lemma analyze_word_position title w j :
  w ∈ words (analyzeTitleTitle title) -> j < length (tw_word w) ->
  letterPositions (analyzeTitleTitle title) !! (letterStartIndex w + j)
  = Some (startIndex w + j).
Proof.
  intros Hw Hj. rewrite analyze_positions_runs.
  destruct (analyze_fields title) as (_ & _ & Hwords & _). rewrite Hwords in Hw.
  pose proof (buildWords_positions _ 0 w j Hw Hj) as Hp.
  by rewrite Nat.sub_0_r in Hp.
Qed.

Lemma tiles_nonempty_ranges ws : forall from to,
  tiles from ws to -> Forall (fun w => letterStartIndex w < letterEndIndex w) ws.
Proof.
  induction ws as [|w ws IH]; intros from to Ht; [constructor|].
  simpl in Ht. destruct Ht as (Hs & Hlt & Ht). constructor; [lia|eauto].
Qed.

(** Title words start one after the other in the title. *)
Lemma analyze_startIndex_sorted title :
  StronglySorted (fun a b => startIndex a < startIndex b)
                 (words (analyzeTitleTitle title)).
Proof.
  apply lookup_StronglySorted. intros i j a b Hij Hi Hj.
  pose proof (analyze_tiles title) as Ht.
  pose proof (tiles_disjoint _ _ _ _ _ _ _ Ht Hij Hi Hj) as Hdis.
  pose proof (tiles_nonempty_ranges _ _ _ Ht) as Hne. rewrite Forall_forall in Hne.
  pose proof (analyze_words_nonempty_words title) as Hwne.
  rewrite Forall_forall in Hwne.
  assert (Ha : a ∈ words (analyzeTitleTitle title)) by by eapply list_elem_of_lookup_2.
  assert (Hb : b ∈ words (analyzeTitleTitle title)) by by eapply list_elem_of_lookup_2.
  pose proof (analyze_word_position title a 0 Ha) as Hpa.
  pose proof (analyze_word_position title b 0 Hb) as Hpb.
  rewrite !Nat.add_0_r in Hpa, Hpb.
  pose proof (Hwne a Ha). pose proof (Hwne b Hb). pose proof (Hne a Ha).
  assert (0 < length (tw_word a)) by (destruct (tw_word a); simpl; [done|lia]).
  assert (0 < length (tw_word b)) by (destruct (tw_word b); simpl; [done|lia]).
  pose proof (StronglySorted_lt_increasing _ (analyze_positions_sorted title)) as Hinc.
  apply (Hinc (letterStartIndex a) (letterStartIndex b)); auto. lia.
Qed.

Lemma walkInitials_words ws : forall inits ii rest,
  exists tws, tws `sublist_of` drop ii ws /\ length tws <= length inits /\
    MatchingA.walkInitials ws ii inits rest = map (fun tw => Some (startIndex tw)) tws.
Proof.
  induction inits as [|c inits IH]; intros ii rest; simpl.
  - exists []. split; [apply sublist_nil_l|done].
  - destruct (advance c 0 rest) as [[k rest']|].
    2:{ exists []. split; [apply sublist_nil_l|]. split; [simpl; lia|done]. }
    destruct (IH (S ii) rest') as (tws & Hsub & Hlen & Hwalk).
    destruct (ws !! ii) as [tw|] eqn:Hii.
    + exists (tw :: tws). rewrite (drop_S _ _ _ Hii). split; [by apply sublist_skip|].
      split; [simpl; lia|]. simpl. by rewrite Hwalk.
    + exists tws. split; [|split; [lia|done]].
      transitivity (drop (S ii) ws); [done|].
      replace (drop (S ii) ws) with (drop 1 (drop ii ws))
        by (rewrite drop_drop; f_equal; lia).
      apply sublist_drop.
Qed.

(** Every near match of an analyzed title is a dictionary word of two
    letters or more whose length differs from the number of title words
    by at most [maxEditDistance] and whose lowercase form is not the
    initials; there are at least two title words; its niceness is a
    whole number of hundredths from 0 to 50; and its indices are the
    start positions of some of the title words, in title order, at most
    one per title word. *)
Theorem near_matches_described (title : jsstring) (allWords : list jsstring)
    (maxEditDistance maxRes : nat) (m : WordMatch) :
  let ti := analyzeTitleTitle title in
  m ∈ MatchingA.findNearMatches ti allWords maxEditDistance maxRes ->
  2 <= length (words ti) /\ word m ∈ allWords /\ 2 <= length (word m) /\
  length (word m) - length (words ti) <= maxEditDistance /\
  length (words ti) - length (word m) <= maxEditDistance /\
  toLowerCase (word m) <> initials ti /\
  hundredths 0 5000 (niceness m) /\
  exists tws, tws `sublist_of` words ti /\
    indices m = map (fun tw => Some (startIndex tw)) tws /\
    StronglySorted (fun a b => startIndex a < startIndex b) tws.
Proof.
  intros ti. subst ti. unfold MatchingA.findNearMatches.
  rewrite analyze_initials_lower.
  destruct (Nat.ltb_spec (length (initials (analyzeTitleTitle title))) 2) as [|Htwo];
    [by intros ?%elem_of_nil|].
  intros Hm%elem_of_take_sortBy.
  apply nearLoop_nearOf in Hm as [Hm%elem_of_nil|Hm]; [done|].
  destruct Hm as (w & Hw & Hmin & Hmax & Hd & ->).
  rewrite <- analyze_initials_length.
  pose proof (editDistance_lev (toLowerCase w) (initials (analyzeTitleTitle title))) as Hlev.
  pose proof (lev_ge_diff (rev (toLowerCase w)) (rev (initials (analyzeTitleTitle title))))
    as Hdiff.
  rewrite <- Hlev, !length_rev, toLowerCase_length in Hdiff.
  split; [done|]. split; [done|]. split; [simpl; lia|].
  split; [simpl; lia|]. split; [simpl; lia|]. split; [|split].
  - simpl. intros Heq. rewrite Heq, editDistance_lev, lev_refl in Hd. lia.
  - by apply nearOf_niceness.
  - destruct (walkInitials_words (words (analyzeTitleTitle title))
                (initials (analyzeTitleTitle title)) 0 (toLowerCase w))
      as (tws & Hsub & _ & Hwalk).
    exists tws. split; [done|]. split; [done|].
    eapply sublist_StronglySorted; [exact Hsub|apply analyze_startIndex_sorted].
Qed.

(** ** What a generated compound is *)

Section pool.
Context (titleInfo : TitleInfo) (wordSet : gset jsstring)
        (searchLower : jsstring) (minWordLength maxCandidates : nat)
        (pool : list WordMatch).

Lemma innerLoop_poolState i first : forall seconds j st,
  first ∈ pool -> (forall x, x ∈ seconds -> x ∈ pool) ->
  poolState titleInfo searchLower minWordLength pool st ->
  poolState titleInfo searchLower minWordLength pool
    (MatchingB.innerLoop titleInfo wordSet searchLower minWordLength
       maxCandidates i first j seconds st).
Proof.
  intros seconds. induction seconds as [|second seconds IH];
    intros j [compounds seen] Hfirst Hsec Hst; cbn [MatchingB.innerLoop]; [done|].
  assert (Hnext : forall st',
    poolState titleInfo searchLower minWordLength pool st' ->
    poolState titleInfo searchLower minWordLength pool
      (MatchingB.innerLoop titleInfo wordSet searchLower minWordLength
         maxCandidates i first (S j) seconds st')).
  { intros st' Hst'. apply IH; [done| |done]. intros x Hx. apply Hsec. by right. }
  destruct (decide (i = j)); [by apply Hnext|].
  destruct (Nat.ltb_spec (length (word first ++ word second)) minWordLength);
    [by apply Hnext|].
  destruct (Nat.ltb_spec (length (letters titleInfo))
              (length (word first ++ word second))); [by apply Hnext|].
  destruct ((0 <? length searchLower)
            && negb (includes (word first ++ word second) searchLower)) eqn:Hterm;
    [by apply Hnext|].
  destruct (bool_decide _); [by apply Hnext|].
  destruct (bool_decide_reflect (word first ++ word second ∈ seen)) as [|Hfresh];
    [by apply Hnext|].
  destruct (findWordInTitle titleInfo (word first ++ word second)) as [idxs|];
    [|by apply Hnext].
  cbv zeta.
  match goal with |- context [compounds ++ [?r]] => set (new := r) end.
  assert (Hst' : poolState titleInfo searchLower minWordLength pool
                   (compounds ++ [new], {[word first ++ word second]} ∪ seen)).
  { destruct Hst as (Hnd & Hseen & Hall). cbn [fst snd] in *.
    split; [|split]; cbn [fst snd].
    - rewrite List.map_app. cbn [map]. apply NoDup_app. split; [done|]. split.
      + intros w Hw Hw'. apply list_elem_of_singleton in Hw'. subst w.
        by apply Hfresh, Hseen.
      + apply NoDup_singleton.
    - intros w. rewrite List.map_app, elem_of_app, elem_of_union, elem_of_singleton.
      cbn [map]. rewrite list_elem_of_singleton, Hseen. subst new. simpl. tauto.
    - apply Forall_app. split; [done|]. constructor; [|constructor].
      exists first, second. split; [done|]. split; [apply Hsec; left|].
      split; [done|]. split; [done|]. split; [simpl; lia|]. simpl.
      destruct searchLower as [|c sl]; [by left|right].
      simpl in Hterm. by destruct (includes _ _). }
  destruct (_ <=? _); [done|]. by apply Hnext.
Qed.

Lemma outerLoop_poolState : forall firsts i st,
  (forall x, x ∈ firsts -> x ∈ pool) ->
  poolState titleInfo searchLower minWordLength pool st ->
  poolState titleInfo searchLower minWordLength pool
    (MatchingB.outerLoop titleInfo wordSet searchLower minWordLength
       maxCandidates pool i firsts st).
Proof.
  induction firsts as [|first firsts IH]; intros i st Hsub Hst;
    cbn [MatchingB.outerLoop]; [done|]. cbv zeta.
  assert (Hin : poolState titleInfo searchLower minWordLength pool
                  (MatchingB.innerLoop titleInfo wordSet searchLower minWordLength
                     maxCandidates i first 0 pool st)).
  { apply innerLoop_poolState; [apply Hsub; left|done|done]. }
  destruct (_ <=? _); [done|]. apply IH; [|done].
  intros x Hx. apply Hsub. by right.
Qed.
End pool.

Lemma generateCompoundMatches_pool `{Collator} titleInfo exactMatches wordSet
    searchLower minWordLength maxRes minComponentLength poolSize :
  let generated :=
    MatchingB.generateCompoundMatches titleInfo exactMatches wordSet searchLower
      minWordLength maxRes minComponentLength poolSize in
  NoDup (map word generated) /\
  Forall (pairsPool titleInfo searchLower minWordLength
            (filter (fun m => minComponentLength <= length (word m)) exactMatches))
         generated.
Proof.
  intros generated. subst generated. unfold MatchingB.generateCompoundMatches.
  destruct (_ <=? _); [split; constructor|].
  destruct (_ <? _); [split; constructor|].
  set (usable := filter (fun m => minComponentLength <= length (word m)) exactMatches).
  set (pool := take poolSize usable).
  match goal with |- context [MatchingB.outerLoop ?a ?b ?c ?d ?e ?f ?g ?h ?i] =>
    pose proof (outerLoop_poolState a b c d e f h g i) as Hst end.
  destruct Hst as (Hnd & _ & Hall); [done| |].
  { split; [constructor|]. split; [|constructor]. intros w. simpl.
    split; [by intros ?%elem_of_empty|by intros ?%elem_of_nil]. }
  split.
  - eapply sublist_NoDup; [|apply fmap_sublist, sublist_take].
    by rewrite sortBy_Permutation.
  - apply Forall_forall. intros m Hm%elem_of_take_sortBy.
    rewrite Forall_forall in Hall. destruct (Hall m Hm) as (f & s & Hf & Hs & Hrest).
    exists f, s. split; [by eapply subseteq_take|]. split; [by eapply subseteq_take|done].
Qed.

(** The generated compounds of a search have pairwise different words,
    none the word of a returned exact match.  Each is the concatenation
    of its two components, is between [minLength] and the number of
    title letters long and holds the search term; each component is a
    dictionary word at least [minLength] and at least
    [max(2, min(4, minLength))] long that holds the search term itself
    and is found in the title on its own. *)
Theorem generated_compounds_described (C : Collator) (titleInfo : TitleInfo)
    (allWords : list jsstring) (wordSet : gset jsstring) (options : Options) :
  let r := MatchingB.findAllMatches titleInfo allWords wordSet options in
  let term := toLowerCase (trim (searchTerm options)) in
  NoDup (map word (compound_ r)) /\
  forall m, m ∈ compound_ r ->
    (forall e, e ∈ exact_ r -> word e <> word m) /\
    minLength options <= length (word m) <= length (letters titleInfo) /\
    (term = [] \/ exists pre post, word m = pre ++ term ++ post) /\
    exists first second,
      components m = Some [first; second] /\ word m = first ++ second /\
      Forall (fun c => c ∈ allWords /\
                       minLength options <= length c /\
                       Nat.max 2 (Nat.min 4 (minLength options)) <= length c /\
                       (term = [] \/ exists pre post, c = pre ++ term ++ post) /\
                       is_Some (findWordInTitle titleInfo c)) [first; second].
Proof.
  intros r term. subst r. cbn [compound_ exact_ MatchingB.findAllMatches]. cbv zeta.
  fold term. destruct (includeCompounds options).
  2:{ split; [constructor|]. by intros m ?%elem_of_nil. }
  match goal with |- context [MatchingB.generateCompoundMatches ?a ?b ?c ?d ?e ?f ?g ?h] =>
    destruct (generateCompoundMatches_pool a b c d e f g h) as [Hnd Hall];
    set (generated := MatchingB.generateCompoundMatches a b c d e f g h) in * end.
  split.
  - eapply sublist_NoDup; [exact Hnd|]. apply fmap_sublist, sublist_filter.
  - intros m [Hnot Hm]%list_elem_of_filter.
    rewrite Forall_forall in Hall.
    destruct (Hall m Hm) as (f & s & Hf & Hs & Hcomp & Hword & Hlen & Hterm).
    split; [|split; [done|split]].
    + intros e He Heq. apply Hnot. apply elem_of_list_to_set.
      rewrite <- Heq. apply list_elem_of_fmap. by exists e.
    + destruct Hterm as [?|Hinc%includes_infix]; [by left|by right].
    + exists (word f), (word s). split; [done|]. split; [done|].
      assert (Hpool : forall x,
        x ∈ filter (fun m => Nat.max 2 (Nat.min 4 (minLength options))
                             <= length (word m))
              (sortBy compareMatches
                 (MatchingB.exactLoop titleInfo (minLength options) term allWords)) ->
        word x ∈ allWords /\
        minLength options <= length (word x) /\
        Nat.max 2 (Nat.min 4 (minLength options)) <= length (word x) /\
        (term = [] \/ exists pre post, word x = pre ++ term ++ post) /\
        is_Some (findWordInTitle titleInfo (word x))).
      { intros x [Hx1 Hx2]%list_elem_of_filter.
        apply elem_of_sortBy in Hx2. rewrite exactLoopB_omap in Hx2.
        apply list_elem_of_omap in Hx2 as (w & Hw & Hx).
        apply exactOfB_iff in Hx as (Hmin & Hinc & idxs & Hfind & ->). simpl in *.
        do 3 (split; [done|]). split; [|by exists idxs].
        destruct Hinc as [?|Hinc%includes_infix]; [by left|by right]. }
      constructor; [by apply Hpool|]. constructor; [by apply Hpool|constructor].
Qed.

(** ** What a dictionary compound of the first version is *)

Lemma splitLoop_Some wordSet seen w : forall n a part1 part2,
  MatchingA.splitLoop wordSet seen w (seq a n) = Some (part1, part2) ->
  (w ∉ seen) /\
  exists k, a <= k < a + n /\ part1 = take k w /\ part2 = drop k w /\
            part1 ∈ wordSet /\ part2 ∈ wordSet /\
            forall k', a <= k' < k ->
              ~ (take k' w ∈ wordSet /\ drop k' w ∈ wordSet).
Proof.
  induction n as [|n IH]; intros a part1 part2; cbn [seq MatchingA.splitLoop];
    [done|]. cbv zeta.
  assert (Hrec : ~ (take a w ∈ wordSet /\ drop a w ∈ wordSet) \/ w ∈ seen ->
    MatchingA.splitLoop wordSet seen w (seq (S a) n) = Some (part1, part2) ->
    (w ∉ seen) /\
    exists k, a <= k < a + S n /\ part1 = take k w /\ part2 = drop k w /\
              part1 ∈ wordSet /\ part2 ∈ wordSet /\
              forall k', a <= k' < k ->
                ~ (take k' w ∈ wordSet /\ drop k' w ∈ wordSet)).
  { intros Ha Hs. apply IH in Hs as (Hseen & k & Hk & -> & -> & H1 & H2 & Hfirst).
    split; [done|]. destruct Ha as [Ha|]; [|done].
    exists k. split; [lia|]. do 4 (split; [done|]).
    intros k' Hk'. destruct (decide (k' = a)) as [->|]; [done|].
    apply Hfirst. lia. }
  destruct (bool_decide_reflect (take a w ∈ wordSet)) as [H1|H1];
    [|apply Hrec; left; tauto].
  destruct (bool_decide_reflect (drop a w ∈ wordSet)) as [H2|H2];
    [|apply Hrec; left; tauto].
  cbn [andb]. destruct (bool_decide_reflect (w ∈ seen)) as [Hs|Hs];
    [apply Hrec; by right|].
  intros [= <- <-]. split; [done|]. exists a. split; [lia|].
  do 4 (split; [done|]). intros k' Hk'. lia.
Qed.

Lemma splitLoop_None wordSet seen w : forall n a,
  MatchingA.splitLoop wordSet seen w (seq a n) = None ->
  w ∈ seen \/
  forall k, a <= k < a + n -> ~ (take k w ∈ wordSet /\ drop k w ∈ wordSet).
Proof.
  induction n as [|n IH]; intros a; cbn [seq MatchingA.splitLoop].
  { intros _. right. intros k Hk. lia. }
  cbv zeta.
  destruct (bool_decide_reflect (take a w ∈ wordSet)) as [H1|H1];
    [destruct (bool_decide_reflect (drop a w ∈ wordSet)) as [H2|H2]|]; cbn [andb].
  - destruct (bool_decide_reflect (w ∈ seen)) as [Hs|Hs]; [by left|done].
  - intros [?|Hn]%IH; [by left|right]. intros k Hk.
    destruct (decide (k = a)) as [->|]; [tauto|]. apply Hn. lia.
  - intros [?|Hn]%IH; [by left|right]. intros k Hk.
    destruct (decide (k = a)) as [->|]; [tauto|]. apply Hn. lia.
Qed.

Section dictionaryCompounds.
Context (titleInfo : TitleInfo) (wordSet : gset jsstring)
        (minComponentLength maxRes : nat) (allWords : list jsstring).

Lemma compoundLoop_step w idxs results seen :
  w ∈ allWords ->
  minComponentLength * 2 <= length w <= length (letters titleInfo) ->
  findWordInTitle titleInfo w = Some idxs ->
  loopState titleInfo wordSet minComponentLength allWords results seen ->
  match MatchingA.splitLoop wordSet seen w
          (seq minComponentLength
             (S (length w - minComponentLength) - minComponentLength)) with
  | Some (part1, part2) =>
      loopState titleInfo wordSet minComponentLength allWords
        (results ++
           [mkWordMatch w idxs
              (nmul (MatchingA.calculateNiceness titleInfo w idxs) (Fin (8 # 10)))
              Compound (Some [part1; part2]) None])
        ({[w]} ∪ seen)
  | None => w ∈ seen \/ ~ splits wordSet minComponentLength w
  end.
Proof.
  intros Hw Hlen Hfind (Hnd & Hseen & Hall).
  destruct (MatchingA.splitLoop _ _ _ _) as [[part1 part2]|] eqn:Hsplit.
  - apply splitLoop_Some in Hsplit
      as (Hfresh & k & Hk & -> & -> & H1 & H2 & Hfirst).
    split; [|split].
    + rewrite List.map_app. cbn [map]. apply NoDup_app. split; [done|]. split.
      * intros x Hx Hx'. apply list_elem_of_singleton in Hx'. subst x.
        by apply Hfresh, Hseen.
      * apply NoDup_singleton.
    + intros x. rewrite List.map_app, elem_of_app, elem_of_union, elem_of_singleton.
      cbn [map]. rewrite list_elem_of_singleton, Hseen. simpl. tauto.
    + apply Forall_app. split; [done|]. constructor; [|constructor].
      split; [done|]. split; [done|]. do 4 (split; [done|]).
      exists (take k w), (drop k w). split; [done|]. simpl.
      split; [by rewrite take_drop|]. do 2 (split; [done|]).
      rewrite length_take, length_drop. split; [lia|]. split; [lia|].
      intros k' Hk'. apply Hfirst. lia.
  - apply splitLoop_None in Hsplit as [?|Hn]; [by left|right].
    intros (k & Hk & H1 & H2). apply (Hn k); [lia|done].
Qed.

Lemma compoundLoop_sound : forall rest results seen,
  (forall w, w ∈ rest -> w ∈ allWords) ->
  loopState titleInfo wordSet minComponentLength allWords results seen ->
  exists seen',
    loopState titleInfo wordSet minComponentLength allWords
      (MatchingA.compoundLoop titleInfo wordSet minComponentLength
         maxRes rest results seen) seen'.
Proof.
  induction rest as [|w rest IH]; intros results seen Hsub Hst;
    cbn [MatchingA.compoundLoop]; [by exists seen|]. cbv zeta.
  assert (Hrest : forall x, x ∈ rest -> x ∈ allWords).
  { intros x Hx. apply Hsub. by right. }
  destruct (Nat.ltb_spec (length w) (minComponentLength * 2)); [by apply IH|].
  destruct (Nat.ltb_spec (length (letters titleInfo)) (length w)); [by apply IH|].
  destruct (findWordInTitle titleInfo w) as [idxs|] eqn:Hfind; [|by apply IH].
  assert (Hin : w ∈ allWords) by (apply Hsub; left).
  assert (Hlen : minComponentLength * 2 <= length w <= length (letters titleInfo))
    by lia.
  pose proof (compoundLoop_step w idxs results seen Hin Hlen Hfind Hst) as Hstep.
  destruct (MatchingA.splitLoop _ _ _ _) as [[part1 part2]|].
  - destruct (_ <=? _); [by eexists|]. by apply IH.
  - destruct (_ <=? _); [by exists seen|]. by apply IH.
Qed.

Lemma compoundLoop_complete : forall rest results seen,
  (forall w, w ∈ rest -> w ∈ allWords) ->
  loopState titleInfo wordSet minComponentLength allWords results seen ->
  length results + length rest <= maxRes ->
  forall w,
    w ∈ map word results \/
    (w ∈ rest /\
     minComponentLength * 2 <= length w <= length (letters titleInfo) /\
     is_Some (findWordInTitle titleInfo w) /\
     splits wordSet minComponentLength w) ->
    w ∈ map word (MatchingA.compoundLoop titleInfo wordSet minComponentLength
                    maxRes rest results seen).
Proof.
  induction rest as [|x rest IH]; intros results seen Hsub Hst Hroom w Hw;
    cbn [MatchingA.compoundLoop].
  { destruct Hw as [|[[]%elem_of_nil _]]; done. }
  cbv zeta. cbn [length] in Hroom.
  assert (Hrest : forall y, y ∈ rest -> y ∈ allWords).
  { intros y Hy. apply Hsub. by right. }
  assert (Hskip : ~ (minComponentLength * 2 <= length x <= length (letters titleInfo)
                     /\ is_Some (findWordInTitle titleInfo x)) ->
    w ∈ map word (MatchingA.compoundLoop titleInfo wordSet minComponentLength
                    maxRes rest results seen)).
  { intros Hno. apply IH; [done|done|lia|].
    destruct Hw as [|(Hin & Hlen & Hfind & Hsp)]; [by left|].
    apply elem_of_cons in Hin as [->|Hin]; [tauto|]. right. tauto. }
  destruct (Nat.ltb_spec (length x) (minComponentLength * 2));
    [apply Hskip; lia|].
  destruct (Nat.ltb_spec (length (letters titleInfo)) (length x));
    [apply Hskip; lia|].
  destruct (findWordInTitle titleInfo x) as [idxs|] eqn:Hfind;
    [|apply Hskip; intros [_ []]; done].
  assert (Hx : x ∈ allWords) by (apply Hsub; left).
  assert (Hxlen : minComponentLength * 2 <= length x <= length (letters titleInfo))
    by lia.
  pose proof (compoundLoop_step x idxs results seen Hx Hxlen Hfind Hst) as Hstep.
  destruct (MatchingA.splitLoop _ _ _ _) as [[part1 part2]|].
  - match goal with |- context [results ++ [?r]] => set (new := r) in * end.
    assert (Hw' : w ∈ map word (results ++ [new]) \/
                  (w ∈ rest /\
                   minComponentLength * 2 <= length w <= length (letters titleInfo) /\
                   is_Some (findWordInTitle titleInfo w) /\
                   splits wordSet minComponentLength w)).
    { rewrite List.map_app, elem_of_app. cbn [map].
      destruct Hw as [|(Hin & Hrest')]; [left; by left|].
      apply elem_of_cons in Hin as [->|Hin]; [|by right].
      left. right. by left. }
    destruct (Nat.leb_spec maxRes (length (results ++ [new]))) as [Hfull|Hroom'].
    + rewrite length_app in Hfull. cbn [length] in Hfull.
      destruct rest; [|cbn [length] in Hroom; lia].
      destruct Hw' as [|[[]%elem_of_nil _]]; done.
    + apply (IH _ ({[x]} ∪ seen)); [done|done| |done].
      rewrite length_app. cbn [length]. lia.
  - assert (Hw' : w ∈ map word results \/
                  (w ∈ rest /\
                   minComponentLength * 2 <= length w <= length (letters titleInfo) /\
                   is_Some (findWordInTitle titleInfo w) /\
                   splits wordSet minComponentLength w)).
    { destruct Hw as [|(Hin & Hlen & Hf & Hsp)]; [by left|].
      apply elem_of_cons in Hin as [->|Hin]; [|by right].
      destruct Hstep as [Hs|Hn]; [|done]. left. by apply Hst. }
    destruct (Nat.leb_spec maxRes (length results)) as [Hfull|Hroom'].
    + destruct Hw' as [|[Hin _]]; [done|]. destruct rest; [|cbn [length] in Hroom; lia].
      by apply elem_of_nil in Hin.
    + apply IH; [done|done|lia|done].
Qed.
End dictionaryCompounds.

(** [findCompoundWords] of the first version returns dictionary words:
    each record's word is an entry of [allWords], at least twice
    [minComponentLength] long, found in the title at the record's
    indices, and its two components are the split into two members of
    the word set with the shortest first part.  No word is returned
    twice, and when [maxResults] is at least the size of the dictionary
    every eligible word that splits is returned. *)
Theorem dictionary_compounds_characterised (titleInfo : TitleInfo)
    (wordSet : gset jsstring) (allWords : list jsstring)
    (minComponentLength maxRes : nat) :
  let found :=
    MatchingA.findCompoundWords titleInfo wordSet allWords minComponentLength
      maxRes in
  NoDup (map word found) /\
  (forall m, m ∈ found ->
     word m ∈ allWords /\
     minComponentLength * 2 <= length (word m) <= length (letters titleInfo) /\
     findWordInTitle titleInfo (word m) = Some (indices m) /\
     type m = Compound /\
     exists part1 part2,
       components m = Some [part1; part2] /\
       firstSplit wordSet minComponentLength (word m) part1 part2) /\
  (length allWords <= maxRes ->
   forall w, w ∈ allWords ->
     minComponentLength * 2 <= length w <= length (letters titleInfo) ->
     is_Some (findWordInTitle titleInfo w) ->
     splits wordSet minComponentLength w ->
     exists m, m ∈ found /\ word m = w).
Proof.
  intros found. subst found. unfold MatchingA.findCompoundWords.
  assert (Hinit : loopState titleInfo wordSet minComponentLength allWords [] ∅).
  { split; [constructor|]. split; [|constructor]. intros w. simpl.
    split; [by intros ?%elem_of_empty|by intros ?%elem_of_nil]. }
  destruct (compoundLoop_sound titleInfo wordSet minComponentLength maxRes allWords
              allWords [] ∅) as (seen' & Hnd & _ & Hall); [done|done|].
  split; [|split].
  - by rewrite sortBy_Permutation.
  - intros m Hm%elem_of_sortBy. rewrite Forall_forall in Hall.
    destruct (Hall m Hm) as (Hin & Hlen & Hfind & Hnice & Hty & _ & Hparts). done.
  - intros Hroom w Hw Hlen Hfind Hsp.
    assert (Hin : w ∈ map word
              (MatchingA.compoundLoop titleInfo wordSet minComponentLength maxRes
                 allWords [] ∅)).
    { apply compoundLoop_complete with (allWords := allWords);
        [done|done|simpl; lia|by right]. }
    apply list_elem_of_fmap in Hin as (m & -> & Hm).
    exists m. split; [by apply elem_of_sortBy|done].
Qed.

(** ** The range of the niceness *)

Lemma ratio_unit_Z (p d : Z) :
  (0 <= p <= d)%Z -> (0 < d)%Z -> (0 <= inject_Z p / inject_Z d <= 1)%Q.
Proof.
  intros Hp Hd.
  assert (Hpos : (0 < inject_Z d)%Q) by (rewrite <- (Zlt_Qlt 0); lia).
  split.
  - apply Qle_shift_div_l; [done|]. rewrite Qmult_0_l, <- (Zle_Qle 0). lia.
  - apply Qle_shift_div_r; [done|]. rewrite Qmult_1_l, <- Zle_Qle. lia.
Qed.

Lemma startLetterScoreB_range titleInfo l : forall q0 (n : nat),
  (0 <= q0 <= inject_Z (Z.of_nat n))%Q ->
  within 0 (inject_Z (Z.of_nat (n + length l)))
    (foldl (fun acc letterIdx =>
              match findTitleWord 0 (words titleInfo) letterIdx with
              | Some (_, tw) =>
                  let posInWord := (letterIdx - Z.of_nat (letterStartIndex tw))%Z in
                  let wordLength :=
                    (Z.of_nat (letterEndIndex tw) - Z.of_nat (letterStartIndex tw))%Z in
                  let denom := Z.max (wordLength - 1) 1 in
                  let posScore := nsub (Fin 1) (ndiv (ofZ posInWord) (ofZ denom)) in
                  nadd acc posScore
              | None => acc
              end) (Fin q0) l).
Proof.
  induction l as [|i l IH]; intros q0 n Hq; cbn [foldl length].
  { exists q0. rewrite Nat.add_0_r. done. }
  replace (n + S (length l)) with (S n + length l) by lia.
  assert (HS : (inject_Z (Z.of_nat (S n)) == inject_Z (Z.of_nat n) + 1)%Q).
  { rewrite Nat2Z.inj_succ, <- Z.add_1_r, inject_Z_plus. reflexivity. }
  destruct (findTitleWord 0 (words titleInfo) i) as [[wi tw]|] eqn:Hf.
  - apply findTitleWord_inWord in Hf as (Hin & _).
    unfold inWord in Hin. apply andb_prop in Hin as [H1%Z.leb_le H2%Z.ltb_lt].
    cbv zeta. rewrite ndiv_ofZ_ofZ by lia. cbn [nsub nopp nadd].
    apply IH.
    match goal with |- context [(inject_Z ?p / inject_Z ?d)%Q] =>
      destruct (ratio_unit_Z p d) as [Hr0 Hr1]; [lia|lia|];
      set (r := (inject_Z p / inject_Z d)%Q) in * end.
    rewrite HS. lra.
  - apply IH. rewrite HS. lra.
Qed.

Lemma wordsUsed_size titleInfo letterIndices :
  size (wordsUsed titleInfo letterIndices) <= length (words titleInfo).
Proof.
  transitivity (size (list_to_set (C := gset nat) (seq 0 (length (words titleInfo))))).
  - apply subseteq_size. intros wi Hwi. unfold wordsUsed in Hwi.
    apply wordsUsed_elem in Hwi as [?%elem_of_empty|(i & tw & _ & Hf)]; [done|].
    apply findTitleWord_inWord in Hf as (_ & _ & Hl & _).
    apply lookup_lt_Some in Hl. apply elem_of_list_to_set, elem_of_seq. lia.
  - rewrite size_list_to_set by apply NoDup_seq. by rewrite length_seq.
Qed.

Lemma initialsMatched_le a : forall b, initialsMatched a b <= length b.
Proof.
  induction a as [|x a IH]; intros [|y b]; simpl; try lia.
  destruct (decide (x = y)); [|lia]. specialize (IH b). lia.
Qed.

Lemma within_scale (k : Q) x :
  (0 <= k)%Q -> within 0 1 x -> within 0 k (nmul x (Fin k)).
Proof.
  intros Hk (q & -> & Hq). exists (q * k)%Q. split; [done|]. split.
  - apply Qmult_le_0_compat; [apply Hq|done].
  - rewrite <- (Qmult_1_l k) at 2. apply Qmult_le_compat_r; [apply Hq|done].
Qed.

Lemma wordCoverageTerm_range titleInfo letterIndices :
  within 0 40 (MatchingB.wordCoverageTerm titleInfo letterIndices).
Proof.
  unfold MatchingB.wordCoverageTerm. cbv zeta. apply within_scale; [done|].
  destruct (Nat.ltb_spec 0 (length (words titleInfo))) as [Hpos|].
  - rewrite ndiv_ofNat_ofNat by done. eexists. split; [done|].
    apply ratio_unit; [apply wordsUsed_size|done].
  - exists 0%Q. split; [done|]. lra.
Qed.

Lemma startLetterTerm_range titleInfo wordLen letterIndices :
  length letterIndices <= wordLen ->
  within 0 30 (MatchingB.startLetterTerm titleInfo wordLen letterIndices).
Proof.
  intros Hlen. unfold MatchingB.startLetterTerm. apply within_scale; [done|].
  destruct (startLetterScoreB_range titleInfo letterIndices 0 0) as (q & Hq & Hq0 & Hq1).
  { change (inject_Z (Z.of_nat 0)) with 0%Q. lra. }
  change (MatchingB.startLetterScore titleInfo letterIndices = Fin q) in Hq.
  rewrite Hq, ndiv_ofNat_pos by lia.
  eexists. split; [done|].
  assert (Hpos : (0 < inject_Z (Z.of_nat (Nat.max wordLen 1)))%Q)
    by (rewrite <- (Zlt_Qlt 0); lia).
  split.
  - apply Qle_shift_div_l; [done|]. by rewrite Qmult_0_l.
  - apply Qle_shift_div_r; [done|]. rewrite Qmult_1_l.
    apply (Qle_trans _ _ _ Hq1). rewrite <- Zle_Qle. lia.
Qed.

Lemma initialsTerm_range titleInfo w :
  within 0 20 (MatchingB.initialsTerm titleInfo w).
Proof.
  unfold MatchingB.initialsTerm. cbv zeta.
  destruct (0 <? initialsMatched _ _); cbn [andb]; [|exists 0%Q; split; [done|lra]].
  destruct (Nat.ltb_spec 0 (length (initials titleInfo))) as [Hpos|];
    [|exists 0%Q; split; [done|lra]].
  apply within_scale; [done|]. rewrite ndiv_ofNat_ofNat by done.
  eexists. split; [done|]. apply ratio_unit; [apply initialsMatched_le|done].
Qed.

Lemma lengthBonus_range wordLen : within 0 10 (lengthBonus wordLen).
Proof.
  unfold lengthBonus. apply within_scale; [done|].
  unfold ofNat. cbn [ndiv qsign Qnum Z.compare nmin].
  assert (H0 : (0 <= inject_Z (Z.of_nat wordLen) / 10)%Q).
  { apply Qle_shift_div_l; [done|]. rewrite Qmult_0_l, <- (Zle_Qle 0). lia. }
  destruct (Qle_bool _ 1) eqn:Hle.
  - apply Qle_bool_iff in Hle. eexists. split; [done|]. split; done.
  - exists 1%Q. split; [done|]. lra.
Qed.

(** Whenever there are no more indices than letters in the word, the
    five terms of the second version's niceness lie in their ranges: the
    first-letter bonus is 0 or 25, word coverage is within 0..40, the
    start-letter term within 0..30, the initials term within 0..20 and
    the length term within 0..10; the niceness is a whole number of
    hundredths between 0 and 125. *)
Theorem niceness_terms_bounded (titleInfo : TitleInfo) (w : jsstring)
    (idxs : list (option nat)) :
  length idxs <= length w ->
  let letterIndices := MatchingB.letterIndicesOf titleInfo idxs in
  (MatchingB.firstLetterBonus titleInfo letterIndices = Fin 0 \/
   MatchingB.firstLetterBonus titleInfo letterIndices = Fin 25) /\
  within 0 40 (MatchingB.wordCoverageTerm titleInfo letterIndices) /\
  within 0 30 (MatchingB.startLetterTerm titleInfo (length w) letterIndices) /\
  within 0 20 (MatchingB.initialsTerm titleInfo w) /\
  within 0 10 (lengthBonus (length w)) /\
  hundredths 0 12500 (MatchingB.calculateNiceness titleInfo w idxs).
Proof.
  intros Hlen letterIndices.
  assert (Hfirst : MatchingB.firstLetterBonus titleInfo letterIndices = Fin 0 \/
                   MatchingB.firstLetterBonus titleInfo letterIndices = Fin 25).
  { unfold MatchingB.firstLetterBonus. destruct (words titleInfo); [by left|].
    destruct (bool_decide _); [by right|by left]. }
  assert (Hcount : length letterIndices <= length w).
  { unfold letterIndices, MatchingB.letterIndicesOf.
    etransitivity; [apply filter_length_le|]. by rewrite length_map. }
  pose proof (wordCoverageTerm_range titleInfo letterIndices) as Hcov.
  pose proof (startLetterTerm_range titleInfo (length w) letterIndices Hcount) as Hstart.
  pose proof (initialsTerm_range titleInfo w) as Hinit.
  pose proof (lengthBonus_range (length w)) as Hbonus.
  do 5 (split; [done|]).
  unfold MatchingB.calculateNiceness. cbv zeta. fold letterIndices.
  destruct Hcov as (q1 & -> & H1), Hstart as (q2 & -> & H2),
           Hinit as (q3 & -> & H3), Hbonus as (q4 & -> & H4).
  destruct Hfirst as [-> | ->]; cbn [nadd]; apply round2_range; unfold inject_Z; lra.
Qed.

Lemma niceness_terms_bounded_witness :
  hundredths 0 12500
    (MatchingB.calculateNiceness (analyzeTitleTitle (str "cat dog")) (str "cog")
       [Some 0; Some 5; Some 6]).
Proof.
  apply (niceness_terms_bounded (analyzeTitleTitle (str "cat dog")) (str "cog")
           [Some 0; Some 5; Some 6]).
  simpl. lia.
Defined.

(** ** Parts of a found word *)

Lemma matchChars_app lp : forall a b t rest idxs,
  matchChars lp (a ++ b) t rest = Some idxs ->
  matchChars lp a t rest = Some (take (length a) idxs).
Proof.
  induction a as [|c a IH]; intros b t rest idxs; cbn [app matchChars length].
  - intros _. by rewrite take_0.
  - destruct (advance c t rest) as [[k rest']|]; [|done].
    destruct (matchChars lp (a ++ b) (S k) rest') as [idxs'|] eqn:Hm; [|done].
    intros [= <-]. by rewrite (IH _ _ _ _ Hm).
Qed.

Lemma findWordInTitle_sublist titleInfo w :
  is_Some (findWordInTitle titleInfo w) <->
  toLowerCase w `sublist_of` letters titleInfo.
Proof.
  unfold findWordInTitle. cbv zeta. split.
  - intros [idxs H]. destruct (_ <? _); [done|]. by eapply matchChars_sublist.
  - intros Hsub. pose proof (sublist_length _ _ Hsub).
    destruct (Nat.ltb_spec (length (letters titleInfo)) (length (toLowerCase w)));
      [lia|]. by apply matchChars_complete.
Qed.

(** Whatever the title information, a found word has all its parts
    found: every word obtained by deleting characters is found, and a
    leading part is found at the leading indices of the whole word. *)
Theorem found_word_parts (titleInfo : TitleInfo) (w : jsstring)
    (idxs : list (option nat)) :
  findWordInTitle titleInfo w = Some idxs ->
  (forall v, v `sublist_of` w -> is_Some (findWordInTitle titleInfo v)) /\
  (forall a b, w = a ++ b ->
     findWordInTitle titleInfo a = Some (take (length a) idxs)).
Proof.
  intros Hfind. split.
  - intros v Hv. apply findWordInTitle_sublist.
    transitivity (toLowerCase w).
    + unfold toLowerCase. by apply fmap_sublist.
    + apply findWordInTitle_sublist. by exists idxs.
  - intros a b ->. revert Hfind. unfold findWordInTitle. cbv zeta.
    unfold toLowerCase. rewrite List.map_app, !length_app, !length_map.
    destruct (Nat.ltb_spec (length (letters titleInfo)) (length a + length b));
      [done|].
    destruct (Nat.ltb_spec (length (letters titleInfo)) (length a)); [lia|].
    intros Hm. apply matchChars_app in Hm. by rewrite length_map in Hm.
Qed.

Lemma found_word_parts_witness :
  findWordInTitle (analyzeTitleTitle (str "cat dog")) (str "co")
  = Some [Some 0; Some 5].
Proof.
  destruct (found_word_parts (analyzeTitleTitle (str "cat dog")) (str "cog")
              [Some 0; Some 5; Some 6]) as [_ Hparts]; [reflexivity|].
  exact (Hparts (str "co") (str "g") eq_refl).
Defined.

(** ** The loaded dictionary *)

Lemma split_no_sep sep text : Forall (fun line => sep ∉ line) (split sep text).
Proof.
  induction text as [|c text IH]; simpl.
  - constructor; [apply not_elem_of_nil|constructor].
  - destruct (decide (c = sep)) as [->|Hne].
    + constructor; [apply not_elem_of_nil|done].
    + destruct (split sep text) as [|line lines]; inversion IH; subst.
      * constructor; [|constructor]. by intros [->|[]%elem_of_nil]%elem_of_cons.
      * constructor; [|done]. rewrite not_elem_of_cons. done.
Qed.

Lemma trimStart_toLowerCase s : trimStart (toLowerCase s) = toLowerCase (trimStart s).
Proof.
  induction s as [|c s IH]; simpl; [done|].
  rewrite isSpace_toLowerChar. by destruct (isSpace c).
Qed.

Lemma trim_toLowerCase s : trim (toLowerCase s) = toLowerCase (trim s).
Proof.
  unfold trim. rewrite trimStart_toLowerCase. unfold toLowerCase at 1.
  rewrite <- map_rev. fold (toLowerCase (rev (trimStart s))).
  rewrite trimStart_toLowerCase. unfold toLowerCase. by rewrite map_rev.
Qed.

Lemma trimStart_suffix s : exists pre, s = pre ++ trimStart s.
Proof.
  induction s as [|c s [pre IH]]; simpl; [by exists []|].
  destruct (isSpace c); [|by exists []]. exists (c :: pre). simpl. by f_equal.
Qed.

Lemma trimStart_head s c : head (trimStart s) = Some c -> isSpace c = false.
Proof.
  induction s as [|d s IH]; simpl; [done|].
  destruct (isSpace d) eqn:Hd; [done|]. simpl. by intros [= <-].
Qed.

Lemma trimStart_fixed s :
  (forall c, head s = Some c -> isSpace c = false) -> trimStart s = s.
Proof. destruct s as [|c s]; simpl; [done|]. intros H. by rewrite (H c eq_refl). Qed.

Lemma trim_sublist s : trim s `sublist_of` s.
Proof.
  unfold trim. destruct (trimStart_suffix s) as [pre Hpre].
  destruct (trimStart_suffix (rev (trimStart s))) as [pre' Hpre'].
  rewrite Hpre at 2. apply sublist_inserts_l.
  transitivity (rev (rev (trimStart s))); [|by rewrite rev_involutive].
  rewrite Hpre' at 2. rewrite rev_app_distr. by apply sublist_inserts_r.
Qed.

Lemma trim_idem s : trim (trim s) = trim s.
Proof.
  unfold trim. set (t := trimStart s). set (u := trimStart (rev t)).
  assert (Hu : trimStart u = u).
  { apply trimStart_fixed. intros c. apply trimStart_head. }
  assert (Hr : trimStart (rev u) = rev u).
  { apply trimStart_fixed. intros c Hc.
    destruct (trimStart_suffix (rev t)) as [pre Hpre]. fold u in Hpre.
    assert (Ht : t = rev u ++ rev pre).
    { rewrite <- (rev_involutive t), Hpre, rev_app_distr. done. }
    apply (trimStart_head s). fold t. rewrite Ht.
    revert Hc. by destruct (rev u). }
  by rewrite Hr, rev_involutive, Hu.
Qed.

Lemma toLowerChar_newline c : "010"%char = toLowerChar c -> c = "010"%char.
Proof. destruct c as [[] [] [] [] [] [] [] []]; by intros [=]. Qed.

(** Every word the loader keeps is non-empty, holds no line feed, and is
    unchanged by trimming and by lowercasing; so the word set built from
    the loaded list holds exactly the entries of the list. *)
Theorem loaded_words_normal (text : jsstring) :
  Forall (fun w => w <> [] /\ ("010"%char ∉ w) /\ trim w = w /\ toLowerCase w = w)
         (wordList text) /\
  forall w, w ∈ buildWordSet (wordList text) <-> w ∈ wordList text.
Proof.
  assert (Hall : Forall (fun w => w <> [] /\ ("010"%char ∉ w) /\ trim w = w
                                  /\ toLowerCase w = w) (wordList text)).
  { apply Forall_forall. intros w [Hlen Hw]%list_elem_of_filter.
    apply list_elem_of_fmap in Hw as (line & -> & Hline).
    split; [|split; [|split]].
    - intros Hnil. rewrite Hnil in Hlen. simpl in Hlen. lia.
    - intros (c & Hc%toLowerChar_newline & Hin)%list_elem_of_fmap. subst c.
      pose proof (split_no_sep "010"%char text) as Hno.
      rewrite Forall_forall in Hno. apply (Hno line Hline).
      eapply elem_of_sublist; [exact Hin|apply trim_sublist].
    - by rewrite trim_toLowerCase, trim_idem.
    - apply toLowerCase_idem. }
  split; [done|]. intros w. unfold buildWordSet.
  rewrite elem_of_list_to_set, list_elem_of_fmap. rewrite Forall_forall in Hall.
  split.
  - intros (v & -> & Hv). destruct (Hall v Hv) as (_ & _ & _ & ->). done.
  - intros Hw. exists w. split; [|done]. by destruct (Hall w Hw) as (_ & _ & _ & ->).
Qed.

(** ** The order of the compound and of the near lists *)

Lemma generateCompoundMatches_sorted (C : Collator) (ord : CollatorOrder C)
    titleInfo exactMatches wordSet searchLower minWordLength maxRes
    minComponentLength poolSize :
  StronglySorted (fun a b => compareMatches a b <> Gt)
    (MatchingB.generateCompoundMatches titleInfo exactMatches wordSet searchLower
       minWordLength maxRes minComponentLength poolSize).
Proof.
  unfold MatchingB.generateCompoundMatches.
  destruct (_ <=? _); [constructor|]. destruct (_ <? _); [constructor|]. cbv zeta.
  eapply sublist_StronglySorted; [apply sublist_take|].
  apply (sortBy_sorted compareMatches (fun m => finite (niceness m))).
  - intros a b Ha Hb Hab.
    destruct (outranks_total a b Ha Hb) as [H|H].
    + apply compareMatches_outranks in H; [|done..]. congruence.
    + apply compareMatches_outranks; done.
  - intros a b c Ha Hb Hc Hab Hbc. apply compareMatches_outranks; try done.
    apply (outranks_trans a b c); apply compareMatches_outranks; done.
  - apply Forall_forall. intros m Hm.
    apply outerLoop_elem in Hm as [Hm%elem_of_nil|(_ & _ & _ & -> & _)]; [done|].
    apply round2_finite, nmul_finite; [apply calculateNicenessB_finite|by eexists].
Qed.




Lemma compareNiceness_le a b :
  finite (niceness a) -> finite (niceness b) ->
  compareNiceness a b <> Gt <->
  exists p q, niceness a = Fin p /\ niceness b = Fin q /\ (q <= p)%Q.
Proof.
  intros [p Hp] [q Hq]. unfold compareNiceness. rewrite Hp, Hq.
  cbn [nsub nopp nadd signOf]. rewrite qsign_Gt. split.
  - intros Hn. exists p, q. do 2 (split; [done|]).
    destruct (Qlt_le_dec p q) as [Hlt|]; [|done]. exfalso. apply Hn. lra.
  - intros (p' & q' & [= <-] & [= <-] & Hle). lra.
Qed.

(** The near list is in order of niceness: of two entries the earlier
    one has a niceness at least as high as the later one. *)
Theorem near_matches_sorted (titleInfo : TitleInfo) (allWords : list jsstring)
    (maxEditDistance maxRes : nat) :
  let found :=
    MatchingA.findNearMatches titleInfo allWords maxEditDistance maxRes in
  forall i j a b,
    i < j -> found !! i = Some a -> found !! j = Some b ->
    exists p q, niceness a = Fin p /\ niceness b = Fin q /\ (q <= p)%Q.
Proof.
  intros found i j a b Hij Hi Hj. subst found.
  unfold MatchingA.findNearMatches in *. cbv zeta in *.
  destruct (_ <? _); [done|].
  set (inits := toLowerCase (initials titleInfo)) in *.
  set (all := MatchingA.nearLoop titleInfo inits maxEditDistance maxRes allWords []) in *.
  assert (Hfin : Forall (fun m => finite (niceness m)) all).
  { apply Forall_forall. intros m Hm.
    apply nearLoop_nearOf in Hm as [Hm%elem_of_nil|(w & _ & _ & _ & Hd & ->)]; [done|].
    destruct (nearOf_niceness titleInfo inits maxEditDistance w Hd) as (z & -> & _).
    by eexists. }
  assert (Hsorted : StronglySorted (fun a b => compareNiceness a b <> Gt)
                      (take maxRes (sortBy compareNiceness all))).
  { eapply sublist_StronglySorted; [apply sublist_take|].
    apply (sortBy_sorted compareNiceness (fun m => finite (niceness m))); [| |done].
    - intros x y Hx Hy. rewrite !compareNiceness_le by done.
      unfold compareNiceness. destruct Hx as [p ->], Hy as [q ->].
      cbn [nsub nopp nadd signOf]. rewrite qsign_Gt.
      intros Hgt. exists q, p. do 2 (split; [done|]). lra.
    - intros x y z Hx Hy Hz. rewrite !compareNiceness_le by done.
      intros (p & q & Hp & Hq & Hpq) (q' & r & Hq' & Hr & Hqr).
      rewrite Hq in Hq'. injection Hq' as <-.
      exists p, r. do 2 (split; [done|]). lra. }
  assert (Hfin' : forall m, m ∈ take maxRes (sortBy compareNiceness all) ->
                            finite (niceness m)).
  { intros m Hm%elem_of_take_sortBy. rewrite Forall_forall in Hfin. auto. }
  apply compareNiceness_le; [eapply Hfin', list_elem_of_lookup_2; eauto..|].
  by eapply (StronglySorted_lookup _ _ Hsorted).
Qed.

(** ** When the unguarded niceness is a finite number *)

Lemma nadd_finite_inv x y : finite (nadd x y) -> finite x /\ finite y.
Proof.
  destruct x, y; simpl; intros [r H]; try discriminate H; split; by eexists.
Qed.

Lemma infOf_infinite s : ~ finite (infOf s).
Proof. destruct s; intros [r H]; discriminate H. Qed.

Lemma nmul_finite_inv x y : finite (nmul x y) -> finite x /\ finite y.
Proof.
  destruct x, y; cbn [nmul]; intros H;
    try (by apply infOf_infinite in H);
    try (destruct H as [r H]; discriminate H);
    split; by eexists.
Qed.

Lemma ndiv_ofNat_finite_inv x n : finite (ndiv x (ofNat n)) -> finite x /\ 0 < n.
Proof.
  destruct x; unfold ofNat; cbn [ndiv]; intros H;
    try (by apply infOf_infinite in H);
    try (destruct H as [r H]; discriminate H).
  split; [by eexists|]. destruct n; [|lia].
  change (finite (infOf (qsign q))) in H. by apply infOf_infinite in H.
Qed.

Lemma round2_finite_inv x : finite (round2 x) -> finite x.
Proof.
  destruct x; [by eexists|..]; vm_compute; intros [r H]; discriminate H.
Qed.

(** The unguarded niceness of the first version is a finite number
    exactly when the title has at least one word and the candidate word
    is not empty; in every other case it is NaN or an infinity. *)
Theorem unguarded_niceness_finite (titleInfo : TitleInfo) (w : jsstring)
    (idxs : list (option nat)) :
  finite (MatchingA.calculateNiceness titleInfo w idxs) <->
  words titleInfo <> [] /\ w <> [].
Proof.
  split; [|intros [Hws Hw]; by apply calculateNicenessA_finite].
  unfold MatchingA.calculateNiceness. cbv zeta.
  intros [Hscore _]%round2_finite_inv%nadd_finite_inv.
  assert (Hbase : finite
    (nadd (nadd (Fin 0)
       (nmul (ndiv (ofNat (size (wordsUsed titleInfo
                 (map (indexOf (letterPositions titleInfo)) idxs))))
               (ofNat (length (words titleInfo)))) (Fin 40)))
       (nmul (ndiv (MatchingA.startLetterScore titleInfo
                      (map (indexOf (letterPositions titleInfo)) idxs))
                   (ofNat (length w))) (Fin 30)))).
  { destruct (0 <? _); [|done]. by apply nadd_finite_inv in Hscore as [? _]. }
  apply nadd_finite_inv in Hbase as [[_ Hcov]%nadd_finite_inv Hstart].
  apply nmul_finite_inv in Hcov as [[_ Hws]%ndiv_ofNat_finite_inv _].
  apply nmul_finite_inv in Hstart as [[_ Hw]%ndiv_ofNat_finite_inv _].
  split; intros Hnil; [rewrite Hnil in Hws|rewrite Hnil in Hw]; simpl in *; lia.
Qed.

(** ** The highlighted title *)

Lemma omap_lookup_nil {A} (g : nat -> nat) (ps : list nat) :
  omap (fun p => @nil A !! g p) ps = [].
Proof. induction ps as [|p ps IH]; csimpl; [done|]. by rewrite IH. Qed.

Lemma omap_lookup_shift {A} (x : A) l off ps :
  Forall (le (S off)) ps ->
  omap (fun p => (x :: l) !! (p - off)) ps = omap (fun p => l !! (p - S off)) ps.
Proof.
  induction 1 as [|p ps Hp _ IH]; csimpl; [done|].
  replace (p - off) with (S (p - S off)) by lia. simpl. by rewrite IH.
Qed.

(** Picking the marked entries of a list is reading it at the marks. *)
Lemma marked_entries {A} (l : list A) : forall (h : nat -> bool) ps off,
  StronglySorted lt ps -> Forall (le off) ps ->
  (forall i, h i = true <-> off + i ∈ ps) ->
  (filter (fun s : A * bool => snd s = true) (imap (fun i c => (c, h i)) l)).*1
  = omap (fun p => l !! (p - off)) ps.
Proof.
  induction l as [|x l IH]; intros h ps off Hsort Hge Hh.
  { by rewrite omap_lookup_nil. }
  rewrite imap_cons.
  change ((fun i c => (c, h i)) ∘ S) with (fun i (c : A) => (c, (h ∘ S) i)).
  destruct (h 0) eqn:H0.
  - apply Hh in H0. rewrite Nat.add_0_r in H0.
    destruct ps as [|p ps]; [by apply elem_of_nil in H0|].
    inversion Hsort as [|? ? Hsort' Hlt]; subst.
    inversion Hge as [|? ? Hp Hge']; subst.
    assert (p = off) as ->.
    { apply elem_of_cons in H0 as [->|Hin]; [done|].
      rewrite Forall_forall in Hlt. specialize (Hlt _ Hin). lia. }
    assert (Hge1 : Forall (le (S off)) ps).
    { eapply Forall_impl; [exact Hlt|]. simpl. lia. }
    rewrite filter_cons_True by done. csimpl. rewrite Nat.sub_diag. simpl. f_equal.
    rewrite omap_lookup_shift by done. apply IH; [done|done|].
    intros i. unfold compose. rewrite Hh, elem_of_cons.
    replace (off + S i) with (S off + i) by lia. split; [|by right].
    intros [?|?]; [lia|done].
  - assert (Hge1 : Forall (le (S off)) ps).
    { apply Forall_forall. intros p Hp. rewrite Forall_forall in Hge.
      specialize (Hge p Hp). destruct (decide (p = off)) as [->|]; [|lia].
      assert (h 0 = true); [|congruence]. apply Hh. by rewrite Nat.add_0_r. }
    rewrite filter_cons_False by (simpl; congruence).
    rewrite omap_lookup_shift by done. apply IH; [done|done|].
    intros i. unfold compose. rewrite Hh.
    by replace (off + S i) with (S off + i) by lia.
Qed.

Lemma imap_chars {A B} (l : list A) : forall h : nat -> B,
  (imap (fun i c => (c, h i)) l).*1 = l.
Proof.
  induction l as [|c l IH]; intros h; [done|].
  rewrite imap_cons. csimpl. f_equal. apply (IH (h ∘ S)).
Qed.

Lemma matched_characters title w idxs :
  findWordInTitle (analyzeTitleTitle title) w = Some idxs ->
  exists ps, idxs = map Some ps /\ StronglySorted lt ps /\
    Forall2 (fun p c' => exists c, title !! p = Some c /\ toLowerChar c = c')
            ps (toLowerCase w).
Proof.
  intros (ks & -> & Hsome & Hlen & Hinc & Hemb)%find_matched_positions.
  set (lp := letterPositions (analyzeTitleTitle title)) in *.
  assert (Hex : exists ps, Forall2 (fun k p => lp !! k = Some p) ks ps).
  { clear -Hsome. induction Hsome as [|k ks [p Hp] _ [ps IH]]; [by exists []|].
    exists (p :: ps). by constructor. }
  destruct Hex as [ps Hks]. exists ps. split; [|split].
  - clear -Hks. induction Hks; simpl; [done|]. congruence.
  - apply lookup_StronglySorted. intros i j a b Hij Hi Hj.
    destruct (Forall2_lookup_r _ _ _ _ _ Hks Hi) as (ki & Hki & Hpi).
    destruct (Forall2_lookup_r _ _ _ _ _ Hks Hj) as (kj & Hkj & Hpj).
    pose proof (StronglySorted_lt_increasing _ (analyze_positions_sorted title)) as Hlp.
    apply (Hlp ki kj); [by apply (Hinc i j)|done|done].
  - apply Forall2_same_length_lookup_2.
    { rewrite <- Hlen. symmetry. by eapply Forall2_length. }
    intros n p c' Hp Hc'.
    destruct (Forall2_lookup_r _ _ _ _ _ Hks Hp) as (k & Hk & Hkp).
    destruct (Hemb n k Hk) as (d & Hd & Hl).
    destruct (analyze_fields title) as (Hf1 & Hf2 & _).
    unfold lp in Hkp. rewrite Hf1 in Hkp. rewrite Hf2 in Hl.
    destruct (collectLetters_lookup title 0 k p Hkp) as (_ & c & Ht & _ & Hc).
    rewrite Nat.sub_0_r in Ht. exists c. split; [done|]. congruence.
Qed.

(** [HighlightedTitle] shows the title unchanged, and for the indices of
    a word found in the title its highlighted characters, read in order,
    spell the word but for the case of the letters. *)
Theorem highlighted_title_spells (title w : jsstring) (idxs : list (option nat)) :
  findWordInTitle (analyzeTitleTitle title) w = Some idxs ->
  (HighlightedTitle title idxs).*1 = title /\
  toLowerCase (filter (fun s => snd s = true) (HighlightedTitle title idxs)).*1
  = toLowerCase w.
Proof.
  intros Hfind. split; [apply imap_chars|].
  destruct (matched_characters title w idxs Hfind) as (ps & -> & Hsort & Hall).
  unfold HighlightedTitle.
  rewrite (marked_entries title (fun i => bool_decide (Some i ∈ map Some ps)) ps 0).
  - clear Hsort Hfind. induction Hall as [|p c' ps cs (c & Hp & Hc) _ IH]; [done|].
    csimpl. rewrite Nat.sub_0_r, Hp. simpl. by rewrite Hc, IH.
  - done.
  - apply Forall_forall. intros; lia.
  - intros i. rewrite bool_decide_eq_true, list_elem_of_fmap. simpl. split.
    + by intros (p & [= ->] & Hp).
    + intros Hi. by exists i.
Qed.

Lemma highlighted_title_spells_witness :
  toLowerCase
    (filter (fun s => snd s = true)
       (HighlightedTitle (str "Cat Dog") [Some 0; Some 5; Some 6])).*1
  = toLowerCase (str "COG").
Proof.
  apply (highlighted_title_spells (str "Cat Dog") (str "COG")
           [Some 0; Some 5; Some 6]).
  vm_compute. reflexivity.
Defined.

(** ** The distance is a metric *)

Lemma edits_compose N : forall a b c n m,
  length a + length b + length c < N ->
  edits n a b -> edits m b c -> exists k, k <= n + m /\ edits k a c.
Proof.
  induction N as [|N IH]; intros a b c n m HN E1 E2; [lia|].
  assert (Hstep : forall a' b' c' n' m',
    edits n' a' b' -> edits m' b' c' ->
    length a' + length b' + length c' < length a + length b + length c ->
    exists k, k <= n' + m' /\ edits k a' c').
  { intros a' b' c' n' m' E1' E2' Hlt. apply (IH a' b' c'); [lia|done|done]. }
  clear IH HN.
  inversion E1 as [ |n1 x a1 b1 E1'|n1 x y a1 b1 E1'|n1 x a1 b1 E1'|n1 y a1 b1 E1'];
    subst.
  - inversion E2 as [ | | | |m1 z b2 c1 E2']; subst.
    + exists 0. split; [lia|constructor].
    + destruct (Hstep _ _ _ _ _ E1 E2') as (k & Hk & E); [simpl; lia|].
      exists (S k). split; [lia|by constructor].
  - inversion E2 as [ |m1 z b2 c1 E2'|m1 z z' b2 c1 E2'|m1 z b2 c1 E2'|m1 z b2 c1 E2'];
      subst.
    + destruct (Hstep _ _ _ _ _ E1' E2') as (k & Hk & E); [simpl; lia|].
      exists k. split; [lia|by constructor].
    + destruct (Hstep _ _ _ _ _ E1' E2') as (k & Hk & E); [simpl; lia|].
      exists (S k). split; [lia|by constructor].
    + destruct (Hstep _ _ _ _ _ E1' E2') as (k & Hk & E); [simpl; lia|].
      exists (S k). split; [lia|by constructor].
    + destruct (Hstep _ _ _ _ _ E1 E2') as (k & Hk & E); [simpl; lia|].
      exists (S k). split; [lia|by constructor].
  - inversion E2 as [ |m1 z b2 c1 E2'|m1 z z' b2 c1 E2'|m1 z b2 c1 E2'|m1 z b2 c1 E2'];
      subst.
    + destruct (Hstep _ _ _ _ _ E1' E2') as (k & Hk & E); [simpl; lia|].
      exists (S k). split; [lia|by constructor].
    + destruct (Hstep _ _ _ _ _ E1' E2') as (k & Hk & E); [simpl; lia|].
      exists (S k). split; [lia|by constructor].
    + destruct (Hstep _ _ _ _ _ E1' E2') as (k & Hk & E); [simpl; lia|].
      exists (S k). split; [lia|by constructor].
    + destruct (Hstep _ _ _ _ _ E1 E2') as (k & Hk & E); [simpl; lia|].
      exists (S k). split; [lia|by constructor].
  - destruct (Hstep _ _ _ _ _ E1' E2) as (k & Hk & E); [simpl; lia|].
    exists (S k). split; [lia|by constructor].
  - inversion E2 as [ |m1 z b2 c1 E2'|m1 z z' b2 c1 E2'|m1 z b2 c1 E2'|m1 z b2 c1 E2'];
      subst.
    + destruct (Hstep _ _ _ _ _ E1' E2') as (k & Hk & E); [simpl; lia|].
      exists (S k). split; [lia|by constructor].
    + destruct (Hstep _ _ _ _ _ E1' E2') as (k & Hk & E); [simpl; lia|].
      exists (S k). split; [lia|by constructor].
    + destruct (Hstep _ _ _ _ _ E1' E2') as (k & Hk & E); [simpl; lia|].
      exists k. split; [lia|done].
    + destruct (Hstep _ _ _ _ _ E1 E2') as (k & Hk & E); [simpl; lia|].
      exists (S k). split; [lia|by constructor].
Qed.

(** The distance obeys the triangle inequality: going through a third
    string never takes fewer edits. *)
Theorem editDistance_triangle (a b c : jsstring) :
  MatchingA.editDistance a c
  <= MatchingA.editDistance a b + MatchingA.editDistance b c.
Proof.
  rewrite !editDistance_lev.
  destruct (edits_compose
              (S (length (rev a) + length (rev b) + length (rev c)))
              (rev a) (rev b) (rev c) _ _ ltac:(lia)
              (lev_edits (rev a) (rev b)) (lev_edits (rev b) (rev c)))
    as (k & Hk & E).
  apply lev_least in E. lia.
Qed.

(** ** What the analyzer reads *)

Lemma collectLetters_complete title : forall i p c,
  title !! p = Some c -> isLetter c = true -> i + p ∈ fst (collectLetters i title).
Proof.
  induction title as [|d rest IH]; intros i p c Hp Hc; [done|]. simpl.
  specialize (IH (S i)). destruct (collectLetters (S i) rest) as [ps ls].
  simpl in IH. destruct p as [|p]; simpl in Hp.
  - injection Hp as ->. rewrite Hc, Nat.add_0_r. left.
  - replace (i + S p) with (S i + p) by lia.
    destruct (isLetter d); simpl; [right|]; by eapply IH.
Qed.

(** The analyzer keeps the title as [original]; [letters] is the title
    with everything but the letters A-Z and a-z removed, in lower case;
    [letterPositions] holds exactly the positions of those letters, and
    [letters] at [k] is the lowercased title character at
    [letterPositions] of [k]. *)
Theorem analyzer_reads_letters (title : jsstring) :
  let ti := analyzeTitleTitle title in
  original ti = title /\
  letters ti = toLowerCase (List.filter isLetter title) /\
  (forall p, p ∈ letterPositions ti <->
             exists c, title !! p = Some c /\ isLetter c = true) /\
  (forall k p, letterPositions ti !! k = Some p ->
     exists c, title !! p = Some c /\ letters ti !! k = Some (toLowerChar c)).
Proof.
  intros ti. subst ti.
  destruct (analyze_fields title) as (Hp & Hl & _ & _ & Ho).
  rewrite Ho, Hl, Hp, collectLetters_letters. do 2 (split; [done|]). split.
  - intros p. split.
    + intros [k Hk]%list_elem_of_lookup_1.
      destruct (collectLetters_lookup title 0 k p Hk) as (_ & c & Hc & Hlet & _).
      rewrite Nat.sub_0_r in Hc. eauto.
    + intros (c & Hc & Hlet). apply (collectLetters_complete title 0 p c Hc Hlet).
  - intros k p Hk.
    destruct (collectLetters_lookup title 0 k p Hk) as (_ & c & Hc & _ & Hlow).
    rewrite Nat.sub_0_r in Hc. rewrite collectLetters_letters in Hlow. eauto.
Qed.

Lemma analyzer_reads_letters_witness :
  exists c, str "Cat Dog" !! 4 = Some c /\
            letters (analyzeTitleTitle (str "Cat Dog")) !! 3 = Some (toLowerChar c).
Proof.
  apply (proj2 (proj2 (proj2 (analyzer_reads_letters (str "Cat Dog"))))).
  vm_compute. reflexivity.
Defined.

(** ** The niceness of what a search returns *)

Lemma calculateNicenessB_range titleInfo w idxs :
  length idxs <= length w ->
  hundredths 0 12500 (MatchingB.calculateNiceness titleInfo w idxs).
Proof.
  intros Hlen. unfold MatchingB.calculateNiceness. cbv zeta.
  set (letterIndices := MatchingB.letterIndicesOf titleInfo idxs).
  assert (Hcount : length letterIndices <= length w).
  { unfold letterIndices, MatchingB.letterIndicesOf.
    etransitivity; [apply filter_length_le|]. by rewrite length_map. }
  destruct (wordCoverageTerm_range titleInfo letterIndices) as (q1 & -> & H1).
  destruct (startLetterTerm_range titleInfo (length w) letterIndices Hcount)
    as (q2 & -> & H2).
  destruct (initialsTerm_range titleInfo w) as (q3 & -> & H3).
  destruct (lengthBonus_range (length w)) as (q4 & -> & H4).
  unfold MatchingB.firstLetterBonus. destruct (words titleInfo) as [|first ?];
    [|destruct (bool_decide _)]; cbn [nadd]; apply round2_range; unfold inject_Z; lra.
Qed.

(** Every niceness that the second version returns is a whole number of
    hundredths: between 0 and 125 for an exact match, between 0 and
    112.5 for a compound. *)
Theorem returned_niceness_range (C : Collator) (titleInfo : TitleInfo)
    (allWords : list jsstring) (wordSet : gset jsstring) (options : Options) :
  let r := MatchingB.findAllMatches titleInfo allWords wordSet options in
  Forall (fun m => hundredths 0 12500 (niceness m)) (exact_ r) /\
  Forall (fun m => hundredths 0 11250 (niceness m)) (compound_ r).
Proof.
  intros r. split; apply Forall_forall; intros m Hm.
  - apply exactB_elem in Hm as (w & _ & Hm).
    apply exactOfB_iff in Hm as (_ & _ & idxs & Hfind & ->). cbn [niceness].
    apply calculateNicenessB_range.
    by rewrite (findWordInTitle_indices_length _ _ _ Hfind).
  - apply compoundB_elem in Hm as (_ & _ & Hfind & -> & _).
    destruct (calculateNicenessB_range titleInfo (word m) (indices m))
      as (z & -> & Hz).
    { by rewrite (findWordInTitle_indices_length _ _ _ Hfind). }
    assert (Hlo : (inject_Z 0 <= inject_Z z)%Q) by (rewrite <- Zle_Qle; lia).
    assert (Hhi : (inject_Z z <= inject_Z 12500)%Q) by (rewrite <- Zle_Qle; lia).
    set (x := inject_Z z) in *.
    change (inject_Z 0) with 0%Q in Hlo. change (inject_Z 12500) with 12500%Q in Hhi.
    clearbody x. cbn [nmul].
    assert (E : (x / 100 * (9 # 10) * 100 == x * (9 # 10))%Q) by field.
    apply round2_range; rewrite E.
    + change (inject_Z 0) with 0%Q. lra.
    + change (inject_Z 11250) with 11250%Q. lra.
Qed.

(** ** The two versions side by side *)

(** When the search term has no white space around it and the lists have
    room for the whole dictionary, both versions return the same words
    as exact matches, each with the same indices. *)
Theorem versions_find_same_words (C : Collator) (titleInfo : TitleInfo)
    (allWords : list jsstring) (wordSet : gset jsstring) (options : Options) :
  trim (searchTerm options) = searchTerm options ->
  length allWords <= maxResults options ->
  forall w idxs,
    (exists m, m ∈ exact_ (MatchingA.findAllMatches titleInfo allWords wordSet options)
               /\ word m = w /\ indices m = idxs) <->
    (exists m, m ∈ exact_ (MatchingB.findAllMatches titleInfo allWords wordSet options)
               /\ word m = w /\ indices m = idxs).
Proof.
  intros Htrim Hroom w idxs.
  cbn [exact_ MatchingA.findAllMatches MatchingB.findAllMatches]. cbv zeta.
  rewrite Htrim, exactLoopA_omap, exactLoopB_omap.
  set (fa := exactOfA titleInfo (minLength options) (searchTerm options)
               (toLowerCase (searchTerm options))).
  set (fb := exactOfB titleInfo (minLength options) (toLowerCase (searchTerm options))).
  pose proof (omap_length_le fa allWords) as Ha.
  pose proof (omap_length_le fb allWords) as Hb.
  rewrite !take_ge by (rewrite sortBy_length; lia).
  assert (Hsame : forall v,
    (exists m, fa v = Some m /\ word m = w /\ indices m = idxs) <->
    (exists m, fb v = Some m /\ word m = w /\ indices m = idxs)).
  { intros v. unfold fa, fb, exactOfA, exactOfB. rewrite toLowerCase_length.
    destruct (_ <? _); [by split; intros (? & ? & _)|].
    destruct (_ <? _); [by split; intros (? & ? & _)|].
    destruct (_ && _); [by split; intros (? & ? & _)|].
    destruct (findWordInTitle titleInfo v) as [ks|]; [|by split; intros (? & ? & _)].
    split; intros (m & [= <-] & Hw & Hi); simpl in *; eexists; split; done. }
  split; intros (m & Hm%elem_of_sortBy & Hw & Hi);
    apply list_elem_of_omap in Hm as (v & Hv & Hm).
  - destruct (proj1 (Hsame v)) as (m' & Hm' & Hw' & Hi'); [by exists m|].
    exists m'. split; [|done]. apply elem_of_sortBy, list_elem_of_omap. by exists v.
  - destruct (proj2 (Hsame v)) as (m' & Hm' & Hw' & Hi'); [by exists m|].
    exists m'. split; [|done]. apply elem_of_sortBy, list_elem_of_omap. by exists v.
Qed.

Lemma versions_find_same_words_witness :
  let ti := analyzeTitleTitle (str "Cat Dog") in
  let options := mkOptions 3 10 [] true true in
  exists m,
    m ∈ exact_ (@MatchingA.findAllMatches codeUnitCompare ti [str "cog"; str "cod"] ∅
                  options) /\
    word m = str "cog" /\ indices m = [Some 0; Some 5; Some 6].
Proof.
  intros ti options.
  apply (versions_find_same_words codeUnitCompare ti [str "cog"; str "cod"] ∅ options).
  - reflexivity.
  - simpl. lia.
  - exists (mkWordMatch (str "cog") [Some 0; Some 5; Some 6]
              (MatchingB.calculateNiceness ti (str "cog") [Some 0; Some 5; Some 6])
              Exact None None).
    split; [|done].
    replace (exact_ (@MatchingB.findAllMatches codeUnitCompare ti
                       [str "cog"; str "cod"] ∅ options))
      with [mkWordMatch (str "cog") [Some 0; Some 5; Some 6]
              (MatchingB.calculateNiceness ti (str "cog") [Some 0; Some 5; Some 6])
              Exact None None] by (vm_compute; reflexivity).
    left.
Defined.

(** ** The compound list of the first version *)

(** In the result of the first version a compound never repeats the
    word of an exact match or of a near match, compounds have pairwise
    different words, and every compound is a dictionary word found in
    the title at its indices.  Such a word is an exact match as well
    whenever it passes the filters of the exact loop: with no search
    term, a minimum length of at most 6 and room for the whole
    dictionary in the exact list, the compound list is empty. *)
Theorem dictionary_compounds_apart (C : Collator) (titleInfo : TitleInfo)
    (allWords : list jsstring) (wordSet : gset jsstring) (options : Options) :
  let r := MatchingA.findAllMatches titleInfo allWords wordSet options in
  NoDup (map word (compound_ r)) /\
  forall c, c ∈ compound_ r ->
    word c ∈ allWords /\
    findWordInTitle titleInfo (word c) = Some (indices c) /\
    (forall e, e ∈ exact_ r -> word e <> word c) /\
    (forall n, n ∈ near_ r -> word n <> word c) /\
    ~ (searchTerm options = [] /\ minLength options <= 6 /\
       length allWords <= maxResults options).
Proof.
  intros r. subst r. cbn [exact_ compound_ near_ MatchingA.findAllMatches]. cbv zeta.
  destruct (includeCompounds options).
  2:{ split; [constructor|]. by intros c ?%elem_of_nil. }
  assert (Hinit : loopState titleInfo wordSet 3 allWords [] ∅).
  { split; [constructor|]. split; [|constructor]. intros w. simpl.
    split; [by intros ?%elem_of_empty|by intros ?%elem_of_nil]. }
  destruct (compoundLoop_sound titleInfo wordSet 3 (maxResults options) allWords
              allWords [] ∅) as (seen' & Hnd & _ & Hall); [done|done|].
  split.
  - eapply sublist_NoDup; [|apply fmap_sublist; etransitivity;
                             [apply sublist_take|apply sublist_filter]].
    unfold MatchingA.findCompoundWords. by rewrite sortBy_Permutation.
  - intros c Hc. apply subseteq_take in Hc.
    apply list_elem_of_filter in Hc as [Hnot Hc].
    unfold MatchingA.findCompoundWords in Hc. apply elem_of_sortBy in Hc.
    rewrite Forall_forall in Hall.
    destruct (Hall c Hc) as (Hin & Hlen & Hfind & _).
    do 2 (split; [done|]). split; [|split].
    + intros e He Heq. apply Hnot, elem_of_list_to_set.
      rewrite <- Heq. apply list_elem_of_fmap. by exists e.
    + intros n Hn Heq.
      destruct (includeNearMatches options); [|by apply elem_of_nil in Hn].
      apply findNearMatches_elem in Hn as [(_ & _ & Hnone) _]. congruence.
    + intros (Hterm & Hmin & Hroom). apply Hnot, elem_of_list_to_set.
      rewrite exactLoopA_omap, Hterm.
      set (f := exactOfA titleInfo (minLength options) [] (toLowerCase [])).
      pose proof (omap_length_le f allWords).
      rewrite take_ge by (rewrite sortBy_length; lia).
      apply list_elem_of_fmap.
      exists (mkWordMatch (word c) (indices c)
                (MatchingA.calculateNiceness titleInfo (word c) (indices c))
                Exact None None).
      split; [done|]. apply elem_of_sortBy, list_elem_of_omap.
      exists (word c). split; [done|]. unfold f, exactOfA.
      destruct (Nat.ltb_spec (length (word c)) (minLength options)); [lia|].
      destruct (Nat.ltb_spec (length (letters titleInfo)) (length (word c))); [lia|].
      simpl. by rewrite Hfind.
Qed.

Lemma dictionary_compounds_apart_witness :
  let ti := analyzeTitleTitle (str "Cat Dog") in
  let dict := [str "catdog"; str "cat"; str "dog"] in
  let r := @MatchingA.findAllMatches codeUnitCompare ti dict (buildWordSet dict)
             (mkOptions 7 2 [] true true) in
  let c := mkWordMatch (str "catdog") [Some 0; Some 1; Some 2; Some 4; Some 5; Some 6]
             (nmul (MatchingA.calculateNiceness ti (str "catdog")
                      [Some 0; Some 1; Some 2; Some 4; Some 5; Some 6])
                   (Fin (8 # 10)))
             Compound (Some [str "cat"; str "dog"]) None in
  c ∈ compound_ r /\ word c ∈ dict.
Proof.
  intros ti dict r c.
  assert (H : c ∈ compound_ r).
  { replace (compound_ r) with [c] by (vm_compute; reflexivity). left. }
  split; [exact H|].
  exact (proj1 (proj2 (dictionary_compounds_apart codeUnitCompare ti dict
                         (buildWordSet dict) (mkOptions 7 2 [] true true)) c H)).
Defined.

(** ** The further properties at concrete inputs *)

Lemma title_words_located_witness :
  let w := mkTitleWord (str "dog") 4 3 6 in
  w ∈ words (analyzeTitleTitle (str "Cat Dog")) /\
  (startIndex w = 0 \/
   exists o, str "Cat Dog" !! (startIndex w - 1) = Some o /\ isLetter o = false) /\
  (forall o, str "Cat Dog" !! (startIndex w + length (tw_word w)) = Some o ->
             isLetter o = false).
Proof.
  intros w.
  assert (H : w ∈ words (analyzeTitleTitle (str "Cat Dog"))).
  { replace (words (analyzeTitleTitle (str "Cat Dog")))
      with [mkTitleWord (str "cat") 0 0 3; w] by (vm_compute; reflexivity).
    right. left. }
  split; [exact H|].
  exact (proj2 (title_words_located (str "Cat Dog") w H)).
Defined.

Lemma analyzer_letters_initials_witness :
  let ti := analyzeTitleTitle (str "Cat Dog") in
  let w := mkTitleWord (str "dog") 4 3 6 in
  words ti !! 1 = Some w /\
  exists c, initials ti !! 1 = Some c /\
            letters ti !! letterStartIndex w = Some c /\
            head (tw_word w) = Some c /\ isLowerLetter c = true.
Proof.
  intros ti w.
  assert (H : words ti !! 1 = Some w) by (vm_compute; reflexivity).
  split; [exact H|].
  exact (proj2 (analyzer_letters_initials (str "Cat Dog")) 1 w H).
Defined.

Lemma exact_matches_characterised_witness :
  let ti := analyzeTitleTitle (str "Cat Dog") in
  let options := mkOptions 3 10 [] true true in
  let idxs := [Some 0; Some 5; Some 6] in
  let m := mkWordMatch (str "cog") idxs
             (MatchingB.calculateNiceness ti (str "cog") idxs) Exact None None in
  let r := @MatchingB.findAllMatches codeUnitCompare ti [str "cog"; str "cod"] ∅
             options in
  m ∈ exact_ r /\ findWordInTitle ti (word m) = Some (indices m).
Proof.
  intros ti options idxs m r.
  destruct (exact_matches_characterised codeUnitCompare ti [str "cog"; str "cod"] ∅
              options) as [Hsound Hcomplete].
  assert (H : m ∈ exact_ r).
  { apply Hcomplete; [simpl; lia|]. split; [left|]. split; [simpl; lia|].
    split; [by left|]. vm_compute. reflexivity. }
  split; [exact H|].
  destruct (Hsound m H) as [(_ & _ & _ & Hfind) _]. exact Hfind.
Defined.

Lemma near_matches_described_witness :
  let ti := analyzeTitleTitle (str "Cat Dog") in
  let m := mkWordMatch (str "cdx") [Some 0; Some 4] (Fin (5000 # 100)) Near None
             (Some 1) in
  m ∈ MatchingA.findNearMatches ti [str "cdx"; str "ca"] 2 5 /\
  hundredths 0 5000 (niceness m).
Proof.
  intros ti m.
  assert (H : m ∈ MatchingA.findNearMatches ti [str "cdx"; str "ca"] 2 5).
  { replace (MatchingA.findNearMatches ti [str "cdx"; str "ca"] 2 5) with [m]
      by (vm_compute; reflexivity).
    left. }
  split; [exact H|].
  destruct (near_matches_described (str "Cat Dog") [str "cdx"; str "ca"] 2 5 m H)
    as (_ & _ & _ & _ & _ & _ & Hnice & _).
  exact Hnice.
Defined.

Lemma generated_compounds_described_witness :
  let dict := [str "ca"; str "do"] in
  let ti := analyzeTitleTitle (str "Cat Dog") in
  let r := @MatchingB.findAllMatches codeUnitCompare ti dict (buildWordSet dict)
             (mkOptions 2 10 [] true true) in
  let m := mkWordMatch (str "cado") [Some 0; Some 1; Some 4; Some 5]
             (Fin (9135 # 100)) Compound (Some [str "ca"; str "do"]) None in
  m ∈ compound_ r /\ forall e, e ∈ exact_ r -> word e <> word m.
Proof.
  intros dict ti r m.
  assert (H : m ∈ compound_ r).
  { replace (compound_ r) with [m] by (vm_compute; reflexivity). left. }
  split; [exact H|].
  exact (proj1 (proj2 (generated_compounds_described codeUnitCompare ti dict
                         (buildWordSet dict) (mkOptions 2 10 [] true true)) m H)).
Defined.

Lemma dictionary_compounds_characterised_witness :
  let ti := analyzeTitleTitle (str "Cat Dog") in
  let dict := [str "catdog"; str "cat"; str "dog"] in
  exists m,
    m ∈ MatchingA.findCompoundWords ti (buildWordSet dict) dict 3 10 /\
    word m = str "catdog".
Proof.
  intros ti dict.
  destruct (dictionary_compounds_characterised ti (buildWordSet dict) dict 3 10)
    as (_ & _ & Hcomplete).
  apply Hcomplete.
  - simpl. lia.
  - left.
  - simpl. lia.
  - exists [Some 0; Some 1; Some 2; Some 4; Some 5; Some 6].
    vm_compute. reflexivity.
  - exists 3. split; [simpl; lia|]. split.
    + apply (elem_of_buildWordSet (str "cat")). right. left.
    + apply (elem_of_buildWordSet (str "dog")). right. right. left.
Defined.


Lemma near_matches_sorted_witness :
  let ti := analyzeTitleTitle (str "Cat Dog") in
  exists p q,
    niceness (nearOf ti (str "cd") 2 (str "cdx")) = Fin p /\
    niceness (nearOf ti (str "cd") 2 (str "cx")) = Fin q /\ (q <= p)%Q.
Proof.
  intros ti.
  apply (near_matches_sorted ti [str "cx"; str "cdx"; str "ca"] 2 5 0 1).
  - lia.
  - vm_compute. reflexivity.
  - vm_compute. reflexivity.
Defined.
